(** * Cell clustering in the unit cube: a shallow embedding of
      [cell_clustering.cpp] and the properties of its engine.

    Conventions of the embedding.

    - A C [float] is an exact rational ([Q]).  Rounding, infinities and NaN
      are not represented: a quotient by zero is 0, as [Qdiv] has it, where
      the program would produce an infinity or a NaN, and a sum such as
      [pathTraveled + 0.1] always grows, where a binary32 sum stops growing
      at 2^21.  A theorem whose conclusion would not survive that difference
      is stated on the range where the two arithmetics agree on it: path
      thresholds below 2^21, a diffusion constant of at most 1/2, pair counts
      that keep the sums of [getEnergy] below 2^24.  One rounding is
      modelled, because it decides a test on small inputs: [getCriterion]
      compares a [float] with the [double] literal [0.1], and takes the
      conversion to [float] as a parameter.  [sqrt] and [pow(.,1/3)] are
      parameters of the functions that call them, so every theorem holds
      whatever those two library functions return; executable instances are
      given for running the code on concrete inputs.
    - A C [int] is a [Z] (or a [nat] where it counts or indexes cells); no
      run of interest comes near the 32-bit range.
    - Arrays are flat: an array of cells is a function from the index to the
      content, and the concentration mesh is a function of the substance and
      the three voxel indices.  An access past the allocated size is
      undefined behaviour in C++; here it reads or writes the slot of that
      index, and the theorems that matter say which indices are touched.
    - Memory that the program reads before writing it is a parameter (the
      content that the allocator hands out).
    - [rand()] is a stream [rnd : nat -> Q] of the values of
      [RandomFloatPos()] and a cursor in the state.
    - The OpenMP pragmas are ignored: loops run sequentially in index
      order.
    - Printing and the stopwatches are left out; so are the calls of the
      two metrics in [main], which change no state.  The one infinity that
      the program absorbs, [fmin(100, spatialRange/0)] in [getEnergy], is
      modelled by cases: the term is 100.

    The file has three parts: the program, the vocabulary in which its
    properties are stated together with sample inputs, and the properties. *)

From Stdlib Require Import ZArith QArith Qround Qabs Qminmax List Lia Lqa Bool PeanoNat.
Import ListNotations.

Open Scope Q_scope.

(** * The program *)

(** ** Comparisons on floats *)

Definition Qltb (x y : Q) : bool :=
  match x ?= y with Lt => true | _ => false end.

(** ** Loops *)

(** [for (c = 0; c < n; c++) body(c)] *)
Fixpoint forUp {S : Type} (n : nat) (body : nat -> S -> S) (s : S) : S :=
  match n with
  | O => s
  | Datatypes.S m => body m (forUp m body s)
  end.

(** [c = n; while (c--) body(c)] : indices n-1 down to 0 *)
Fixpoint forDown {S : Type} (n : nat) (body : nat -> S -> S) (s : S) : S :=
  match n with
  | O => s
  | Datatypes.S m => forDown m body (body m s)
  end.

(** [for (i = 0; i < L; i++) body(i)] with an [int] bound *)
Definition forZ {S : Type} (L : Z) (body : Z -> S -> S) (s : S) : S :=
  forUp (Z.to_nat L) (fun i => body (Z.of_nat i)) s.

(** ** Data *)

(** [float[3]] *)
Record vec3 : Type := mkVec { c0 : Q; c1 : Q; c2 : Q }.

(** An array indexed by the cell number. *)
Definition upd {A : Type} (f : nat -> A) (i : nat) (v : A) : nat -> A :=
  fun j => if Nat.eqb j i then v else f j.

(** [float**** Conc], read as [Conc s i1 i2 i3]. *)
Definition field : Type := Z -> Z -> Z -> Z -> Q.

Definition sameVoxel (s i1 i2 i3 s' i1' i2' i3' : Z) : bool :=
  (s =? s')%Z && (i1 =? i1')%Z && (i2 =? i2')%Z && (i3 =? i3')%Z.

Definition store (C : field) (s i1 i2 i3 : Z) (v : Q) : field :=
  fun s' i1' i2' i3' =>
    if sameVoxel s' i1' i2' i3' s i1 i2 i3 then v else C s' i1' i2' i3'.

Definition inCube (p : vec3) : Prop :=
  (0 <= c0 p <= 1) /\ (0 <= c1 p <= 1) /\ (0 <= c2 p <= 1).

(** ** getNorm and getL2Distance *)

Section Norms.
Variable sqrtF : Q -> Q.

Definition getNorm (a : vec3) : Q :=
  let arraySum := 0 in
  let d := c0 a * c0 a in
  let arraySum := arraySum + d in
  let d := c1 a * c1 a in
  let arraySum := arraySum + d in
  let d := c2 a * c2 a in
  let arraySum := arraySum + d in
  sqrtF arraySum.

Definition getL2Distance (pos1x pos1y pos1z pos2x pos2y pos2z : Q) : Q :=
  let l2Norm := 0 in
  let d := pos2x - pos1x in
  let d := d * d in
  let l2Norm := l2Norm + d in
  let d := pos2y - pos1y in
  let d := d * d in
  let l2Norm := l2Norm + d in
  let d := pos2z - pos1z in
  let d := d * d in
  let l2Norm := l2Norm + d in
  sqrtF l2Norm.
End Norms.

(** ** produceSubstances *)

(** [std::min((int)floor(x/sideLength), L)], [L] already decremented. *)
Definition voxelOf (sideLength : Q) (Lm : Z) (x : Q) : Z :=
  Z.min (Qfloor (x / sideLength)) Lm.

(** [!(type == 1)] *)
Definition substanceOf (t : Z) : Z := if (t =? 1)%Z then 0%Z else 1%Z.

(** The voxel gets 0.1 more and is then capped at 1. *)
Definition deposit (x : Q) : Q :=
  let C := x + (1 # 10) in
  if Qltb 1 C then 1 else C.

Definition produceCell (posAll : nat -> vec3) (typesAll : nat -> Z)
    (sideLength : Q) (Lm : Z) (c : nat) (Conc : field) : field :=
  let i1 := voxelOf sideLength Lm (c0 (posAll c)) in
  let i2 := voxelOf sideLength Lm (c1 (posAll c)) in
  let i3 := voxelOf sideLength Lm (c2 (posAll c)) in
  let s := substanceOf (typesAll c) in
  store Conc s i1 i2 i3 (deposit (Conc s i1 i2 i3)).

Definition produceSubstances (Conc : field) (posAll : nat -> vec3)
    (typesAll : nat -> Z) (L : Z) (n : nat) : field :=
  let sideLength := 1 / inject_Z L in
  let L := (L - 1)%Z in
  forUp n (produceCell posAll typesAll sideLength L) Conc.

(** The voxel a cell deposits into, in the words of the specification:
    [floor(position / voxelSize)] clamped above to [L-1] on each axis, in
    substance 0 for type +1 and substance 1 otherwise. *)
Definition depositsAt (posAll : nat -> vec3) (typesAll : nat -> Z) (L : Z)
    (c : nat) (s i1 i2 i3 : Z) : bool :=
  let h := 1 / inject_Z L in
  sameVoxel s i1 i2 i3
    (substanceOf (typesAll c))
    (Z.min (Qfloor (c0 (posAll c) / h)) (L - 1))
    (Z.min (Qfloor (c1 (posAll c) / h)) (L - 1))
    (Z.min (Qfloor (c2 (posAll c) / h)) (L - 1)).

(** Number of active cells that map to a voxel. *)
Definition hits (posAll : nat -> vec3) (typesAll : nat -> Z) (L : Z)
    (n : nat) (s i1 i2 i3 : Z) : nat :=
  length (filter (fun c => depositsAt posAll typesAll L c s i1 i2 i3) (seq 0 n)).

(** ** runDiffusionStep *)

(** [*C += v] on one voxel of the live mesh *)
Definition addAt (Conc : field) (s i1 i2 i3 : Z) (v : Q) : field :=
  store Conc s i1 i2 i3 (Conc s i1 i2 i3 + v).

(** Body of the copy loop: one voxel of both substances goes to [tempConc]. *)
Definition copyVoxel (Conc : field) (i1 i2 i3 : Z) (tempConc : field) : field :=
  let tempConc := store tempConc 0%Z i1 i2 i3 (Conc 0%Z i1 i2 i3) in
  store tempConc 1%Z i1 i2 i3 (Conc 1%Z i1 i2 i3).

(** The pair of updates under one of the six tests: voxel [(i1,i2,i3)] of
    each substance receives [(tempConc[nb] - tempConc[self]) * D]. *)
Definition pull (tempConc : field) (D : Q) (i1 i2 i3 j1 j2 j3 : Z)
    (Conc : field) : field :=
  let Conc := addAt Conc 0%Z i1 i2 i3
                ((tempConc 0%Z j1 j2 j3 - tempConc 0%Z i1 i2 i3) * D) in
  addAt Conc 1%Z i1 i2 i3 ((tempConc 1%Z j1 j2 j3 - tempConc 1%Z i1 i2 i3) * D).

(** Body of the update loop. *)
Definition diffuseVoxel (tempConc : field) (L : Z) (D : Q) (i1 i2 i3 : Z)
    (Conc : field) : field :=
  let xUp := (i1 + 1)%Z in
  let xDown := (i1 - 1)%Z in
  let yUp := (i2 + 1)%Z in
  let yDown := (i2 - 1)%Z in
  let zUp := (i3 + 1)%Z in
  let zDown := (i3 - 1)%Z in
  let Conc := if (xUp <? L)%Z then pull tempConc D i1 i2 i3 xUp i2 i3 Conc else Conc in
  let Conc := if (0 <=? xDown)%Z then pull tempConc D i1 i2 i3 xDown i2 i3 Conc else Conc in
  let Conc := if (yUp <? L)%Z then pull tempConc D i1 i2 i3 i1 yUp i3 Conc else Conc in
  let Conc := if (0 <=? yDown)%Z then pull tempConc D i1 i2 i3 i1 yDown i3 Conc else Conc in
  let Conc := if (zUp <? L)%Z then pull tempConc D i1 i2 i3 i1 i2 zUp Conc else Conc in
  if (0 <=? zDown)%Z then pull tempConc D i1 i2 i3 i1 i2 zDown Conc else Conc.

(** What the body of the update loop leaves in its own voxel, as a
    function of what was there. *)
Definition diffuseValue (t : field) (L : Z) (D : Q) (s a b c : Z) (v : Q) : Q :=
  let v := if (a + 1 <? L)%Z then v + (t s (a + 1)%Z b c - t s a b c) * D else v in
  let v := if (0 <=? a - 1)%Z then v + (t s (a - 1)%Z b c - t s a b c) * D else v in
  let v := if (b + 1 <? L)%Z then v + (t s a (b + 1)%Z c - t s a b c) * D else v in
  let v := if (0 <=? b - 1)%Z then v + (t s a (b - 1)%Z c - t s a b c) * D else v in
  let v := if (c + 1 <? L)%Z then v + (t s a b (c + 1)%Z - t s a b c) * D else v in
  if (0 <=? c - 1)%Z then v + (t s a b (c - 1)%Z - t s a b c) * D else v.

(** [stack] is what the variable-length array [tempConc] holds before the
    copy loop fills it. *)
Definition runDiffusionStep (stack : field) (Conc : field) (L : Z) (D : Q) : field :=
  let tempConc :=
    forZ L (fun i1 => forZ L (fun i2 => forZ L (fun i3 =>
      copyVoxel Conc i1 i2 i3))) stack in
  let D := D / 6 in
  forZ L (fun i1 => forZ L (fun i2 => forZ L (fun i3 =>
    diffuseVoxel tempConc L D i1 i2 i3))) Conc.

(** The six axis-aligned neighbours, in the order the code tests them. *)
Definition neighbours (i1 i2 i3 : Z) : list (Z * Z * Z) :=
  [ (i1 + 1, i2, i3); (i1 - 1, i2, i3);
    (i1, i2 + 1, i3); (i1, i2 - 1, i3);
    (i1, i2, i3 + 1); (i1, i2, i3 - 1) ]%Z.

Definition inGrid (L : Z) (v : Z * Z * Z) : bool :=
  let '(i1, i2, i3) := v in
  (0 <=? i1)%Z && (i1 <? L)%Z && (0 <=? i2)%Z && (i2 <? L)%Z
  && (0 <=? i3)%Z && (i3 <? L)%Z.

(** The diffusion update in the words of the specification: to the value
    of a voxel, add [(neighbour - self) * (D/6)] for each neighbour inside
    the grid, all read from the mesh as it was before the step. *)
Definition diffused (old : field) (L : Z) (D : Q) (s i1 i2 i3 : Z) : Q :=
  fold_left
    (fun acc nb => let '(j1, j2, j3) := nb in
       acc + (old s j1 j2 j3 - old s i1 i2 i3) * (D / 6))
    (filter (inGrid L) (neighbours i1 i2 i3))
    (old s i1 i2 i3).

(** ** runDecayStep *)

Definition decayVoxel (mu : Q) (i1 i2 i3 : Z) (Conc : field) : field :=
  let Conc := store Conc 0%Z i1 i2 i3 (Conc 0%Z i1 i2 i3 * mu) in
  store Conc 1%Z i1 i2 i3 (Conc 1%Z i1 i2 i3 * mu).

Definition runDecayStep (Conc : field) (L : Z) (mu : Q) : field :=
  let mu := 1 - mu in
  forZ L (fun i1 => forZ L (fun i2 => forZ L (fun i3 =>
    decayVoxel mu i1 i2 i3))) Conc.

(** ** The cell population *)

Record Pop : Type := mkPop {
  posAll : nat -> vec3;            (* float** posAll *)
  pathTraveled : nat -> Q;         (* float* pathTraveled *)
  typesAll : nat -> Z;             (* int* typesAll *)
  numberDivisions : nat -> Z;      (* int* numberDivisions *)
  currentNumberCells : nat;        (* the count the growth step returns *)
  rng : nat                        (* calls of rand() made so far *)
}.

Definition vadd (p : vec3) (k : Q) (d : vec3) (norm : Q) : vec3 :=
  mkVec (c0 p + k * c0 d / norm) (c1 p + k * c1 d / norm) (c2 p + k * c2 d / norm).

(** ** cellMovementAndDuplication *)

Section Growth.
Variable rnd : nat -> Q.
Variable sqrtF : Q -> Q.

(** [rand()/RAND_MAX], threading the position in the stream *)
Definition RandomFloatPos (k : nat) : Q * nat := (rnd k, S k).

(** Three draws, each minus 0.5. *)
Definition randomOffset (k : nat) : vec3 * nat :=
  let '(r0, k) := RandomFloatPos k in
  let '(r1, k) := RandomFloatPos k in
  let '(r2, k) := RandomFloatPos k in
  (mkVec (r0 - (1 # 2)) (r1 - (1 # 2)) (r2 - (1 # 2)), k).

(** Body of the loop over the cells.  The daughter's slot
    [currentNumberCells-1] is never the parent's: the count starts at
    [n] and [c < n]; so writing its three coordinates at once reads the
    same parent position as the three assignments of the source. *)
Definition growCell (pathThreshold : Q) (divThreshold : Z) (c : nat)
    (p : Pop) : Pop :=
  let '(currentCellMovement, k) := randomOffset (rng p) in
  let currentNorm := getNorm sqrtF currentCellMovement in
  let posAll1 :=
    upd (posAll p) c (vadd (posAll p c) (1 # 10) currentCellMovement currentNorm) in
  let path1 := upd (pathTraveled p) c (pathTraveled p c + (1 # 10)) in
  if (numberDivisions p c <? divThreshold)%Z then
    if Qltb pathThreshold (path1 c) then
      let path2 := upd path1 c (path1 c - pathThreshold) in
      let divs2 := upd (numberDivisions p) c (numberDivisions p c + 1)%Z in
      let cnc := S (currentNumberCells p) in
      let divs3 := upd divs2 (cnc - 1)%nat (divs2 c) in
      let types3 := upd (typesAll p) (cnc - 1)%nat (- typesAll p c)%Z in
      let '(duplicatedCellOffset, k) := randomOffset k in
      let currentNorm := getNorm sqrtF duplicatedCellOffset in
      let posAll2 :=
        upd posAll1 (cnc - 1)%nat
          (vadd (posAll1 c) (5 # 100) duplicatedCellOffset currentNorm) in
      mkPop posAll2 path2 types3 divs3 cnc k
    else mkPop posAll1 path1 (typesAll p) (numberDivisions p) (currentNumberCells p) k
  else mkPop posAll1 path1 (typesAll p) (numberDivisions p) (currentNumberCells p) k.

Definition cellMovementAndDuplication (pathThreshold : Q) (divThreshold : Z)
    (n : nat) (p : Pop) : Pop :=
  let p := mkPop (posAll p) (pathTraveled p) (typesAll p) (numberDivisions p)
                 n (rng p) in
  forUp n (growCell pathThreshold divThreshold) p.

(** Whether cell [c] divides in a growth step entered with population [p]:
    the test the loop makes once the cell has moved. *)
Definition divides (pathThreshold : Q) (divThreshold : Z) (p : Pop) (c : nat) : bool :=
  (numberDivisions p c <? divThreshold)%Z
  && Qltb pathThreshold (pathTraveled p c + (1 # 10)).

(** Number of cells below index [c] that divide in the step. *)
Definition divisionsBefore (pathThreshold : Q) (divThreshold : Z) (p : Pop)
    (c : nat) : nat :=
  length (filter (divides pathThreshold divThreshold p) (seq 0 c)).
End Growth.

(** ** runDiffusionClusterStep *)

(** [min(i+1, L)] and [max(i-1, 0)], [L] already decremented. *)
Definition upIndex (Lm i : Z) : Z := Z.min (i + 1) Lm.
Definition downIndex (i : Z) : Z := Z.max (i - 1) 0.

(** The divisor of one finite difference, [sideLength*(up-down)]. *)
Definition gradDenominator (sideLength : Q) (up down : Z) : Q :=
  sideLength * inject_Z (up - down).

(** The three finite differences of one substance at voxel [(i1,i2,i3)]. *)
Definition gradientAt (Conc : field) (s : Z) (sideLength : Q) (Lm : Z)
    (i1 i2 i3 : Z) : vec3 :=
  let xUp := upIndex Lm i1 in
  let xDown := downIndex i1 in
  let yUp := upIndex Lm i2 in
  let yDown := downIndex i2 in
  let zUp := upIndex Lm i3 in
  let zDown := downIndex i3 in
  mkVec
    ((Conc s xUp i2 i3 - Conc s xDown i2 i3) / gradDenominator sideLength xUp xDown)
    ((Conc s i1 yUp i3 - Conc s i1 yDown i3) / gradDenominator sideLength yUp yDown)
    ((Conc s i1 i2 zUp - Conc s i1 i2 zDown) / gradDenominator sideLength zUp zDown).

Definition zeroVec : vec3 := mkVec 0 0 0.

Section Cluster.
Variable sqrtF : Q -> Q.

(** Body of the loop over the cells. *)
Definition clusterCell (Conc : field) (posAll : nat -> vec3)
    (typesAll : nat -> Z) (sideLength : Q) (Lm : Z) (speed : Q) (c : nat)
    (movVec : nat -> vec3) : nat -> vec3 :=
  let i1 := voxelOf sideLength Lm (c0 (posAll c)) in
  let i2 := voxelOf sideLength Lm (c1 (posAll c)) in
  let i3 := voxelOf sideLength Lm (c2 (posAll c)) in
  let gradSub1 := gradientAt Conc 0%Z sideLength Lm i1 i2 i3 in
  let gradSub2 := gradientAt Conc 1%Z sideLength Lm i1 i2 i3 in
  let normGrad1 := getNorm sqrtF gradSub1 in
  let normGrad2 := getNorm sqrtF gradSub2 in
  if Qltb 0 normGrad1 && Qltb 0 normGrad2 then
    upd movVec c
      (mkVec
        (inject_Z (typesAll c) * (c0 gradSub1 / normGrad1 - c0 gradSub2 / normGrad2) * speed)
        (inject_Z (typesAll c) * (c1 gradSub1 / normGrad1 - c1 gradSub2 / normGrad2) * speed)
        (inject_Z (typesAll c) * (c2 gradSub1 / normGrad1 - c2 gradSub2 / normGrad2) * speed))
  else upd movVec c zeroVec.

Definition runDiffusionClusterStep (Conc : field) (movVec : nat -> vec3)
    (posAll : nat -> vec3) (typesAll : nat -> Z) (cc : nat) (L : Z)
    (speed : Q) : nat -> vec3 :=
  let sideLength := 1 / inject_Z L in
  let L := (L - 1)%Z in
  forUp cc (clusterCell Conc posAll typesAll sideLength L speed) movVec.
End Cluster.

(** ** getCriterion *)

(** [for (i = lo; i < hi; i++) body(i)] *)
Definition forRange {S : Type} (lo hi : nat) (body : nat -> S -> S) (s : S) : S :=
  forUp (hi - lo) (fun j => body (lo + j)%nat) s.

(** The arrays [posSubvol], [typesSubvol] and the counter next to them. *)
Record SubVol : Type := mkSubVol {
  posSubvol : nat -> vec3;
  typesSubvol : nat -> Z;
  nrCellsSubVol : nat
}.

(** The counters of the pair loop. *)
Record Counts : Type := mkCounts {
  nrClose : Z;
  sameTypeClose : Z;
  diffTypeClose : Z
}.

Definition inSubVol (subVolMax : Q) (p : vec3) : bool :=
  Qltb (Qabs (c0 p - (1 # 2))) subVolMax
  && Qltb (Qabs (c1 p - (1 # 2))) subVolMax
  && Qltb (Qabs (c2 p - (1 # 2))) subVolMax.

(** Body of the selection loop.  [fresh i1] is the content of the block
    that [new float[3]] returns for slot [i1]. *)
Definition selectCell (fresh : nat -> vec3) (posAll : nat -> vec3)
    (typesAll : nat -> Z) (subVolMax : Q) (i1 : nat) (sv : SubVol) : SubVol :=
  let posSubvol1 := upd (posSubvol sv) i1 (fresh i1) in
  if inSubVol subVolMax (posAll i1) then
    mkSubVol (upd posSubvol1 (nrCellsSubVol sv) (posAll i1))
             (upd (typesSubvol sv) (nrCellsSubVol sv) (typesAll i1))
             (S (nrCellsSubVol sv))
  else mkSubVol posSubvol1 (typesSubvol sv) (nrCellsSubVol sv).

(** The [double] that the literal [0.1] denotes, 3602879701896397 / 2^55.
    It is not a [float]: the floats next to it are 13421772 / 2^27 and
    13421773 / 2^27. *)
Definition tenthDouble : Q := 3602879701896397 # 36028797018963968.

Section Criterion.
Variable sqrtF : Q -> Q.
Variable cbrtF : Q -> Q.      (* pow(x, 1.0/3.0) *)
Variable toFloat : Q -> Q.    (* the rounding of a double stored in a float *)

Definition dist (p q : vec3) : Q :=
  getL2Distance sqrtF (c0 p) (c1 p) (c2 p) (c0 q) (c1 q) (c2 q).

(** Body of the inner pair loop. *)
Definition pairStep (spatialRange : Q) (sv : SubVol) (i1 i2 : nat)
    (k : Counts) : Counts :=
  let currDist := dist (posSubvol sv i1) (posSubvol sv i2) in
  if Qltb currDist spatialRange then
    if (typesSubvol sv i1 * typesSubvol sv i2 <? 0)%Z then
      mkCounts (nrClose k + 1) (sameTypeClose k) (diffTypeClose k + 1)
    else
      mkCounts (nrClose k + 1) (sameTypeClose k + 1) (diffTypeClose k)
  else k.

Definition pairLoop (spatialRange : Q) (sv : SubVol) : Counts :=
  forUp (nrCellsSubVol sv)
    (fun i1 => forRange (i1 + 1) (nrCellsSubVol sv) (pairStep spatialRange sv i1))
    (mkCounts 0 0 0).

(** [scratch] is what the arrays [posSubvol] and [typesSubvol] hold when
    they are allocated, [fresh] what the blocks allocated in the loop hold.
    [correctness_coefficient] is a [float] that the program compares with
    the [double] literal [0.1]: the comparison is made between the rounded
    quotient and [tenthDouble], so a quotient of exactly one tenth, which
    rounds to the float above [tenthDouble], passes the test [> 0.1].  The
    literals of the other three tests (0.25, 4, 100) are floats. *)
Definition getCriterion (fresh : nat -> vec3) (scratch : SubVol)
    (posAll : nat -> vec3)
    (typesAll : nat -> Z) (n : nat) (spatialRange : Q) (targetN : Z) : bool :=
  let subVolMax := cbrtF (inject_Z targetN / inject_Z (Z.of_nat n)) / 2 in
  let sv := forUp n (selectCell fresh posAll typesAll subVolMax)
              (mkSubVol (posSubvol scratch) (typesSubvol scratch) 0) in
  let nr := inject_Z (Z.of_nat (nrCellsSubVol sv)) in
  if Qltb (nr / inject_Z targetN) (1 # 4) then false
  else if Qltb 4 (nr / inject_Z targetN) then false
  else
    let k := pairLoop spatialRange sv in
    let correctness_coefficient :=
      toFloat (inject_Z (diffTypeClose k) / (inject_Z (nrClose k) + 1)) in
    if Qltb tenthDouble correctness_coefficient then false
    else
      let avgNeighbors := inject_Z (sameTypeClose k) / nr in
      if Qltb avgNeighbors 100 then false else true.

(** *** The criterion in the words of the specification *)

(** Within [r] of 0.5 on every axis. *)
Definition inCentralCube (r : Q) (p : vec3) : bool :=
  Qltb (Qabs (c0 p - (1 # 2))) r
  && Qltb (Qabs (c1 p - (1 # 2))) r
  && Qltb (Qabs (c2 p - (1 # 2))) r.

(** Euclidean distance: the square root of the sum, taken from 0 in the
    order of the axes, of the squared coordinate differences. *)
Definition euclid (p q : vec3) : Q :=
  sqrtF (0 + (c0 q - c0 p) * (c0 q - c0 p)
           + (c1 q - c1 p) * (c1 q - c1 p)
           + (c2 q - c2 p) * (c2 q - c2 p)).

(** Indices of the cells of the central cube of half-width
    [cbrt(targetN/n)/2], in index order. *)
Definition subvolCells (posAll : nat -> vec3) (n : nat) (targetN : Z) : list nat :=
  filter
    (fun i => inCentralCube (cbrtF (inject_Z targetN / inject_Z (Z.of_nat n)) / 2)
                (posAll i))
    (seq 0 n).

(** All unordered pairs of a list. *)
Fixpoint pairsOf (l : list nat) : list (nat * nat) :=
  match l with
  | [] => []
  | x :: t => map (pair x) t ++ pairsOf t
  end.

(** Pairs of subvolume cells at distance below [spatialRange]. *)
Definition closePairs (posAll : nat -> vec3) (n : nat) (spatialRange : Q)
    (targetN : Z) : list (nat * nat) :=
  filter (fun ab => Qltb (euclid (posAll (fst ab)) (posAll (snd ab))) spatialRange)
    (pairsOf (subvolCells posAll n targetN)).

Definition diffType (typesAll : nat -> Z) (ab : nat * nat) : bool :=
  negb (typesAll (fst ab) =? typesAll (snd ab))%Z.

Definition nDiffClose posAll typesAll n spatialRange targetN : nat :=
  length (filter (diffType typesAll) (closePairs posAll n spatialRange targetN)).

Definition nSameClose posAll typesAll n spatialRange targetN : nat :=
  length (filter (fun ab => negb (diffType typesAll ab))
            (closePairs posAll n spatialRange targetN)).
End Criterion.

(** ** getEnergy *)

(** The accumulators of the pair loop of [getEnergy]. *)
Record Energies : Type := mkEnergies {
  intraClusterEnergy : Q;
  extraClusterEnergy : Q;
  nrSmallDist : Q
}.

(** [fmin(100.0, spatialRange/currDist)].  The term is only computed when
    [currDist < spatialRange]; at [currDist = 0] the quotient of the program
    is then plus infinity and [fmin] returns 100, which is what the first
    branch says. *)
Definition energyTerm (spatialRange currDist : Q) : Q :=
  if Qeq_bool currDist 0 then 100 else Qmin 100 (spatialRange / currDist).

Section Energy.
Variable sqrtF : Q -> Q.
Variable cbrtF : Q -> Q.      (* pow(x, 1.0/3.0) *)

(** Body of the inner pair loop. *)
Definition energyStep (spatialRange : Q) (sv : SubVol) (i1 i2 : nat)
    (e : Energies) : Energies :=
  let currDist := dist sqrtF (posSubvol sv i1) (posSubvol sv i2) in
  if Qltb currDist spatialRange then
    let nrSmallDist := nrSmallDist e + 1 in
    if (0 <? typesSubvol sv i1 * typesSubvol sv i2)%Z then
      mkEnergies (intraClusterEnergy e + energyTerm spatialRange currDist)
                 (extraClusterEnergy e) nrSmallDist
    else
      mkEnergies (intraClusterEnergy e)
                 (extraClusterEnergy e + energyTerm spatialRange currDist)
                 nrSmallDist
  else e.

Definition energyLoop (spatialRange : Q) (sv : SubVol) : Energies :=
  forUp (nrCellsSubVol sv)
    (fun i1 => forRange (i1 + 1) (nrCellsSubVol sv) (energyStep spatialRange sv i1))
    (mkEnergies 0 0 0).

(** [scratch] and [fresh] as in [getCriterion]. *)
Definition getEnergy (fresh : nat -> vec3) (scratch : SubVol)
    (posAll : nat -> vec3) (typesAll : nat -> Z) (n : nat)
    (spatialRange : Q) (targetN : Z) : Q :=
  let subVolMax := cbrtF (inject_Z targetN / inject_Z (Z.of_nat n)) / 2 in
  let sv := forUp n (selectCell fresh posAll typesAll subVolMax)
              (mkSubVol (posSubvol scratch) (typesSubvol scratch) 0) in
  let e := energyLoop spatialRange sv in
  let totalEnergy :=
    (extraClusterEnergy e - intraClusterEnergy e) / (1 + 100 * nrSmallDist e) in
  totalEnergy.

(** *** The energy in the words of its comment: over the close pairs of
    the subvolume, the terms of the pairs of different types minus the terms
    of the pairs of equal types, over [1 + 100 * (number of close pairs)]. *)

Definition sumQ (l : list Q) : Q := fold_left Qplus l 0.

(** The term of a pair: [min(100, spatialRange/d)] at distance [d], and
    100 at distance 0. *)
Definition pairTerm (posAll : nat -> vec3) (spatialRange : Q) (ab : nat * nat) : Q :=
  let d := euclid sqrtF (posAll (fst ab)) (posAll (snd ab)) in
  if Qeq_bool d 0 then 100 else Qmin 100 (spatialRange / d).

Definition extraEnergy posAll typesAll n spatialRange targetN : Q :=
  sumQ (map (pairTerm posAll spatialRange)
          (filter (diffType typesAll)
             (closePairs sqrtF cbrtF posAll n spatialRange targetN))).

Definition intraEnergy posAll typesAll n spatialRange targetN : Q :=
  sumQ (map (pairTerm posAll spatialRange)
          (filter (fun ab => negb (diffType typesAll ab))
             (closePairs sqrtF cbrtF posAll n spatialRange targetN))).
End Energy.

(** ** main: parameters, initialisation and the two phases *)

(** Modelled from the spec: the record [cdc_params] is declared in
    [util.hpp], which is not part of the sources at hand; these are the nine
    fields that [main] reads.  Counts that the specification requires
    non-negative are naturals. *)
Record cdc_params : Type := mkParams {
  speed : Q;
  T : nat;
  L : Z;
  D : Q;
  mu : Q;
  divThreshold : Z;
  finalNumberCells : nat;
  spatialRange : Q;
  pathThreshold : Q
}.

(** Modelled from the spec: the checks of the configuration loader
    ([get_params] of [util.hpp], not part of the sources at hand), as the
    specification lists them: grid resolution, final cell count, path
    threshold and spatial range positive, decay fraction in [0,1], division
    threshold non-negative. *)
Definition validated (P : cdc_params) : Prop :=
  (0 < L P)%Z /\ (1 <= finalNumberCells P)%nat /\ 0 < pathThreshold P
  /\ 0 < spatialRange P /\ (0 <= mu P <= 1) /\ (0 <= divThreshold P)%Z.

(** The state of [main]: the mesh, the cell arrays with the count [n] and
    the position in the random stream, and the movement buffer. *)
Record Sim : Type := mkSim {
  Conc : field;
  pop : Pop;
  currMov : nat -> vec3
}.

Definition n (st : Sim) : nat := currentNumberCells (pop st).

Definition set0 (v : vec3) (x : Q) : vec3 := mkVec x (c1 v) (c2 v).
Definition set1 (v : vec3) (x : Q) : vec3 := mkVec (c0 v) x (c2 v).
Definition set2 (v : vec3) (x : Q) : vec3 := mkVec (c0 v) (c1 v) x.

(** [if (x < 0) x = 0; else if (x > 1) x = 1;] *)
Definition clampCoord (x : Q) : Q :=
  if Qltb x 0 then 0 else if Qltb 1 x then 1 else x.

(** The three boundary tests on cell [c]. *)
Definition clampCell (c : nat) (posAll : nat -> vec3) : nat -> vec3 :=
  let posAll := upd posAll c (set0 (posAll c) (clampCoord (c0 (posAll c)))) in
  let posAll := upd posAll c (set1 (posAll c) (clampCoord (c1 (posAll c)))) in
  upd posAll c (set2 (posAll c) (clampCoord (c2 (posAll c)))).

(** Body of the last loop of a clustering step: add the movement, then
    the three boundary tests. *)
Definition moveCell (currMov : nat -> vec3) (c : nat) (posAll : nat -> vec3)
    : nat -> vec3 :=
  let posAll := upd posAll c (set0 (posAll c) (c0 (posAll c) + c0 (currMov c))) in
  let posAll := upd posAll c (set1 (posAll c) (c1 (posAll c) + c1 (currMov c))) in
  let posAll := upd posAll c (set2 (posAll c) (c2 (posAll c) + c2 (currMov c))) in
  clampCell c posAll.

(** Body of the initialisation loop of [main].  The blocks that
    [new float[3]] returns for slot [i1] hold what [heap] holds there. *)
Definition initCell (heap : Sim) (i1 : nat) (st : Sim) : Sim :=
  let zeroFloat := 0 in
  let currMov1 := upd (currMov st) i1 (currMov heap i1) in
  let posAll1 := upd (posAll (pop st)) i1 (posAll (pop heap) i1) in
  let path1 := upd (pathTraveled (pop st)) i1 zeroFloat in
  let path1 := upd path1 i1 0 in
  let currMov1 := upd currMov1 i1 (set0 (currMov1 i1) zeroFloat) in
  let currMov1 := upd currMov1 i1 (set1 (currMov1 i1) zeroFloat) in
  let posAll1 := upd posAll1 i1 (set0 (posAll1 i1) (1 # 2)) in
  let posAll1 := upd posAll1 i1 (set1 (posAll1 i1) (1 # 2)) in
  mkSim (Conc st)
        (mkPop posAll1 path1 (typesAll (pop st)) (numberDivisions (pop st))
               (currentNumberCells (pop st)) (rng (pop st)))
        currMov1.

Definition zeroVoxel (i2 i3 i4 : Z) (C : field) : field :=
  let zeroFloat := 0 in
  let C := store C 0%Z i2 i3 i4 zeroFloat in
  store C 1%Z i2 i3 i4 zeroFloat.

(** [main] up to the start of phase 1.  [heap] is the content of the
    memory that the arrays are allocated in. *)
Definition main_init (P : cdc_params) (heap : Sim) : Sim :=
  let numberDivisions0 := upd (numberDivisions (pop heap)) 0 0%Z in
  let typesAll0 := upd (typesAll (pop heap)) 0 1%Z in
  let st := mkSim (Conc heap)
              (mkPop (posAll (pop heap)) (pathTraveled (pop heap)) typesAll0
                     numberDivisions0 0 0)
              (currMov heap) in
  let st := forUp (finalNumberCells P) (initCell heap) st in
  let Conc0 :=
    forZ (L P) (fun i2 => forZ (L P) (fun i3 => forZ (L P) (fun i4 =>
      zeroVoxel i2 i3 i4))) (Conc st) in
  mkSim Conc0
        (mkPop (posAll (pop st)) (pathTraveled (pop st)) (typesAll (pop st))
               (numberDivisions (pop st)) 1 0)
        (currMov st).

Section Driver.
Variable rnd : nat -> Q.
Variable sqrtF : Q -> Q.
Variable stack : field.        (* what [tempConc] holds on entry *)
Variable P : cdc_params.

(** One pass of the loop of phase 1. *)
Definition phase1Step (st : Sim) : Sim :=
  let Conc1 := produceSubstances (Conc st) (posAll (pop st)) (typesAll (pop st))
                 (L P) (n st) in
  let Conc2 := runDiffusionStep stack Conc1 (L P) (D P) in
  let Conc3 := runDecayStep Conc2 (L P) (mu P) in
  let p := cellMovementAndDuplication rnd sqrtF (pathThreshold P)
             (divThreshold P) (n st) (pop st) in
  let n := currentNumberCells p in
  (* for (c = n; c > 0; --c) *)
  let posAll1 := forDown n (fun m => clampCell (S m)) (posAll p) in
  mkSim Conc3
        (mkPop posAll1 (pathTraveled p) (typesAll p) (numberDivisions p) n (rng p))
        (currMov st).

(** [while (n < finalNumberCells)], with a bound on the number of
    passes; [None] when the bound is reached first. *)
Fixpoint phase1 (fuel : nat) (st : Sim) : option Sim :=
  if (n st <? finalNumberCells P)%nat then
    match fuel with
    | O => None
    | S fuel => phase1 fuel (phase1Step st)
    end
  else Some st.

(** One pass of the loop of phase 2. *)
Definition phase2Step (st : Sim) : Sim :=
  let p := pop st in
  let Conc1 := produceSubstances (Conc st) (posAll p) (typesAll p) (L P) (n st) in
  let Conc2 := runDiffusionStep stack Conc1 (L P) (D P) in
  let Conc3 := runDecayStep Conc2 (L P) (mu P) in
  let currMov1 := runDiffusionClusterStep sqrtF Conc3 (currMov st) (posAll p)
                    (typesAll p) (n st) (L P) (speed P) in
  (* c = n; while (c--) *)
  let posAll1 := forDown (n st) (moveCell currMov1) (posAll p) in
  mkSim Conc3
        (mkPop posAll1 (pathTraveled p) (typesAll p) (numberDivisions p)
               (currentNumberCells p) (rng p))
        currMov1.

(** [i = T; while (i--)] *)
Definition phase2 (st : Sim) : Sim := forDown (T P) (fun _ => phase2Step) st.
End Driver.

(** Sum of [numberDivisions] over the cells below [n]. *)
Definition sumDivisions (p : Pop) (n : nat) : Z :=
  fold_right Z.add 0%Z (map (numberDivisions p) (seq 0 n)).

(** The parameters of the end-to-end scenario: eight cells, at most
    three divisions per cell; the other values play no role in phase 1. *)
Definition scenarioParams (pathThreshold : Q) : cdc_params :=
  mkParams 1 0 2 (1 # 10) (1 # 10) 3 8 (1 # 10) pathThreshold.

(** A configuration with room for three cells and two divisions per cell. *)
Definition overflowParams : cdc_params :=
  mkParams 1 0 2 (1 # 10) (1 # 10) 2 3 (1 # 10) (1 # 20).

(** A configuration that stops at the first division, which comes with
    the seventh move. *)
Definition walkParams : cdc_params :=
  mkParams 1 0 2 (1 # 10) (1 # 10) 1 2 (1 # 10) (13 # 20).

(** * Vocabulary and sample inputs *)

(** ** Vocabulary for the growth step *)

Section GrowthSpec.
Variable rnd : nat -> Q.
Variable sqrtF : Q -> Q.
Variable pathThreshold : Q.
Variable divThreshold : Z.
Variable p : Pop.                (* the population on entry *)
Variable n : nat.                (* the active count on entry *)

(** Position in the random stream when the loop reaches cell [c]: three
    draws per cell, three more per division. *)
Definition cursorAt (c : nat) : nat :=
  (rng p + 3 * c + 3 * divisionsBefore pathThreshold divThreshold p c)%nat.

(** The three draws starting at [k], each minus 0.5. *)
Definition offsetAt (k : nat) : vec3 :=
  mkVec (rnd k - (1 # 2)) (rnd (S k) - (1 # 2)) (rnd (S (S k)) - (1 # 2)).

(** Where cell [c] stands after its random move of length 0.1. *)
Definition movedPos (c : nat) : vec3 :=
  let off := offsetAt (cursorAt c) in
  vadd (posAll p c) (1 # 10) off (getNorm sqrtF off).

(** The next free index when cell [c] divides. *)
Definition daughterSlot (c : nat) : nat :=
  (n + divisionsBefore pathThreshold divThreshold p c)%nat.

(** Where the daughter of cell [c] is put: the parent's new position
    plus a normalised random offset scaled by 0.05. *)
Definition daughterPos (c : nat) : vec3 :=
  let off := offsetAt (cursorAt c + 3) in
  vadd (movedPos c) (5 # 100) off (getNorm sqrtF off).

(** What the step has done for cell [c] in the population [q]. *)
Definition cellDone (q : Pop) (c : nat) : Prop :=
  posAll q c = movedPos c
  /\ typesAll q c = typesAll p c
  /\ if divides pathThreshold divThreshold p c then
       pathTraveled q c = pathTraveled p c + (1 # 10) - pathThreshold
       /\ numberDivisions q c = (numberDivisions p c + 1)%Z
       /\ typesAll q (daughterSlot c) = (- typesAll p c)%Z
       /\ numberDivisions q (daughterSlot c) = (numberDivisions p c + 1)%Z
       /\ posAll q (daughterSlot c) = daughterPos c
     else
       pathTraveled q c = pathTraveled p c + (1 # 10)
       /\ numberDivisions q c = numberDivisions p c.

(** The state of the loop when it is about to handle cell [m]. *)
Definition growInv (m : nat) (q : Pop) : Prop :=
  currentNumberCells q = daughterSlot m
  /\ rng q = cursorAt m
  /\ (forall j, (m <= j < n)%nat ->
        posAll q j = posAll p j /\ pathTraveled q j = pathTraveled p j
        /\ numberDivisions q j = numberDivisions p j
        /\ typesAll q j = typesAll p j)
  /\ (forall j, (n <= j)%nat -> pathTraveled q j = pathTraveled p j)
  /\ (forall j, (daughterSlot m <= j)%nat ->
        posAll q j = posAll p j /\ numberDivisions q j = numberDivisions p j
        /\ typesAll q j = typesAll p j)
  /\ (forall c, (c < m)%nat -> cellDone q c).
End GrowthSpec.

(** Squared Euclidean length, and the difference of two positions. *)
Definition normSq (v : vec3) : Q := c0 v * c0 v + c1 v * c1 v + c2 v * c2 v.

Definition vsub (a b : vec3) : vec3 :=
  mkVec (c0 a - c0 b) (c1 a - c1 b) (c2 a - c2 b).

(** ** Vocabulary for the clustering step *)

(** The three divisors [sideLength*(up-down)] that the clustering step
    uses for a cell at position [p] on a grid of resolution [L]. *)
Definition gradDenominators (L : Z) (p : vec3) : vec3 :=
  let sideLength := 1 / inject_Z L in
  let Lm := (L - 1)%Z in
  let i1 := voxelOf sideLength Lm (c0 p) in
  let i2 := voxelOf sideLength Lm (c1 p) in
  let i3 := voxelOf sideLength Lm (c2 p) in
  mkVec (gradDenominator sideLength (upIndex Lm i1) (downIndex i1))
        (gradDenominator sideLength (upIndex Lm i2) (downIndex i2))
        (gradDenominator sideLength (upIndex Lm i3) (downIndex i3)).

(** The gradient of substance [s] at the voxel of a cell at [p]. *)
Definition cellGradient (Conc : field) (s : Z) (L : Z) (p : vec3) : vec3 :=
  let sideLength := 1 / inject_Z L in
  let Lm := (L - 1)%Z in
  gradientAt Conc s sideLength Lm
    (voxelOf sideLength Lm (c0 p)) (voxelOf sideLength Lm (c1 p))
    (voxelOf sideLength Lm (c2 p)).

(** The finite-difference gradient in the words of the specification.  The
    cell at [p] sits in the voxel of index [min(floor(x/h), L-1)] on each
    axis, [h = 1/L]; along an axis the gradient is the difference of the
    concentration between the next voxel up, [min(i+1, L-1)], and the next
    voxel down, [max(i-1, 0)], over their distance [h * (up - down)]. *)
Definition centralDifference (Conc : field) (s L : Z) (p : vec3) : vec3 :=
  let h := 1 / inject_Z L in
  let i1 := Z.min (Qfloor (c0 p / h)) (L - 1) in
  let i2 := Z.min (Qfloor (c1 p / h)) (L - 1) in
  let i3 := Z.min (Qfloor (c2 p / h)) (L - 1) in
  mkVec
    ((Conc s (Z.min (i1 + 1) (L - 1)) i2 i3 - Conc s (Z.max (i1 - 1) 0) i2 i3)
       / (h * inject_Z (Z.min (i1 + 1) (L - 1) - Z.max (i1 - 1) 0)))
    ((Conc s i1 (Z.min (i2 + 1) (L - 1)) i3 - Conc s i1 (Z.max (i2 - 1) 0) i3)
       / (h * inject_Z (Z.min (i2 + 1) (L - 1) - Z.max (i2 - 1) 0)))
    ((Conc s i1 i2 (Z.min (i3 + 1) (L - 1)) - Conc s i1 i2 (Z.max (i3 - 1) 0))
       / (h * inject_Z (Z.min (i3 + 1) (L - 1) - Z.max (i3 - 1) 0))).

(** The L2 norm: the square root of the sum, taken from 0, of the squared
    components. *)
Definition l2norm (sqrtF : Q -> Q) (v : vec3) : Q :=
  sqrtF (0 + c0 v * c0 v + c1 v * c1 v + c2 v * c2 v).

(** ** Vocabulary for phase 1 *)

(** Sum of [f 0 .. f (m-1)]. *)
Definition sumZ (f : nat -> Z) (m : nat) : Z :=
  fold_right Z.add 0%Z (map f (seq 0 m)).

(** A cell that has divided [d] times out of [divThreshold] can still
    grow into a clone of [2^(divThreshold-d)] cells, itself included. *)
Definition cloneSize (divThreshold : Z) (q : Pop) (j : nat) : Z :=
  (2 ^ (divThreshold - numberDivisions q j))%Z.

(** What the growth phase keeps true of the population: paths are
    non-negative in the [cap] allocated slots, division counts stay within
    the threshold, and the clone sizes of the active cells add up to
    [2^divThreshold]. *)
Definition lineageInv (divThreshold : Z) (cap : nat) (q : Pop) : Prop :=
  (forall j, (j < cap)%nat -> 0 <= pathTraveled q j)
  /\ (forall j, (j < currentNumberCells q)%nat ->
        (0 <= numberDivisions q j <= divThreshold)%Z)
  /\ sumZ (cloneSize divThreshold q) (currentNumberCells q) = (2 ^ divThreshold)%Z.

(** ** Vocabulary for the mesh *)

(** Every voxel of the grid, of both substances, holds a value in
    [lo, hi]. *)
Definition fieldWithin (L : Z) (lo hi : Q) (C : field) : Prop :=
  forall s a b c, s = 0%Z \/ s = 1%Z -> inGrid L (a, b, c) = true ->
    lo <= C s a b c <= hi.

(** [f 0 + ... + f (n-1)] *)
Fixpoint sumTo (n : nat) (f : nat -> Q) : Q :=
  match n with
  | O => 0
  | S m => sumTo m f + f m
  end.

(** The amount of substance [s] on the grid. *)
Definition totalMass (L : Z) (C : field) (s : Z) : Q :=
  sumTo (Z.to_nat L) (fun a =>
    sumTo (Z.to_nat L) (fun b =>
      sumTo (Z.to_nat L) (fun c =>
        C s (Z.of_nat a) (Z.of_nat b) (Z.of_nat c)))).

(** What the two neighbours along one axis add to the voxel at index [i],
    before the factor [D/6]: [f] is the mesh along that axis. *)
Definition axisDelta (L : Z) (f : Z -> Q) (i : Z) : Q :=
  (if (i + 1 <? L)%Z then f (i + 1)%Z - f i else 0)
  + (if (0 <=? i - 1)%Z then f (i - 1)%Z - f i else 0).

(** A sum over the three indices of the grid. *)
Definition sum3 (n : nat) (g : nat -> nat -> nat -> Q) : Q :=
  sumTo n (fun a => sumTo n (fun b => sumTo n (fun c => g a b c))).

(** ** Vocabulary for binary32 *)

(** The floats next to one tenth: [floatTenth] is the nearest one, and
    lies above it and above [tenthDouble]; [floatBelowTenth] is the one
    before, and lies below both. *)
Definition floatTenth : Q := 13421773 # 134217728.
Definition floatBelowTenth : Q := 13421772 # 134217728.

(** What the proofs use of the rounding of a double to a float: it is
    monotone, it takes one tenth to [floatTenth], and it leaves the float
    [floatBelowTenth] where it is. *)
Definition roundsToFloat (toFloat : Q -> Q) : Prop :=
  (forall x y, x <= y -> toFloat x <= toFloat y)
  /\ toFloat (1 # 10) == floatTenth
  /\ toFloat floatBelowTenth == floatBelowTenth.

(** ** Executable instances and sample inputs *)

(** Square root truncated to 24 fractional bits. *)
Definition sqrt24 (q : Q) : Q :=
  Z.sqrt (Qnum q * Zpos (Qden q) * 4 ^ 24) # (Qden q * 2 ^ 24).

(** A stream of draws [1, 0.5, 0.5, 1, 0.5, 0.5, ...]: every offset points
    along the first axis. *)
Definition rndEast (k : nat) : Q :=
  match (k mod 3)%nat with O => 1 | _ => 1 # 2 end.

(** Memory that holds zeros, and 0.5 in every coordinate of a position. *)
Definition heapCalm : Sim :=
  mkSim (fun _ _ _ _ => 0)
        (mkPop (fun _ => mkVec (1 # 2) (1 # 2) (1 # 2)) (fun _ => 0)
               (fun _ => 0%Z) (fun _ => 0%Z) 0 0)
        (fun _ => zeroVec).

Definition zeroField : field := fun _ _ _ _ => 0.

(** A lone seed cell in the middle of the cube. *)
Definition seedPop : Pop :=
  mkPop (fun _ => mkVec (1 # 2) (1 # 2) (1 # 2)) (fun _ => 0)
        (fun _ => 1%Z) (fun _ => 0%Z) 1 0.

(** Integer cube root by bisection on the bits, and the cube root of a
    rational truncated to 24 fractional bits. *)
Fixpoint cbrtBits (bits : nat) (x r : Z) : Z :=
  match bits with
  | O => r
  | S b =>
      let c := (r + 2 ^ Z.of_nat b)%Z in
      if (c * c * c <=? x)%Z then cbrtBits b x c else cbrtBits b x r
  end.

Definition cbrt24 (q : Q) : Q :=
  cbrtBits 96 (Qnum q * Zpos (Qden q) * Zpos (Qden q) * 8 ^ 24) 0 # (Qden q * 2 ^ 24).

(** A mesh whose concentration grows along the three axes. *)
Definition rampField : field := fun s i j k => inject_Z (s + i + 2 * j + 3 * k).

(** Two cells of type +1 in the middle of the cube. *)
Definition twinPos : nat -> vec3 := fun _ => mkVec (1 # 2) (1 # 2) (1 # 2).
Definition twinTypes : nat -> Z := fun _ => 1%Z.
Definition emptySubVol : SubVol := mkSubVol (fun _ => zeroVec) (fun _ => 0%Z) 0.

(** A mesh in which substance 0 grows along the first axis and substance 1
    along the second. *)
Definition crossField : field :=
  fun s i j k => if (s =? 0)%Z then inject_Z i else inject_Z j.

(** Cells that have left the cube through the face [x = 0]. *)
Definition strayPos : nat -> vec3 := fun _ => mkVec (- (1 # 10)) (1 # 2) (1 # 2).

(** Rounding to the nearest multiple of 2^-27, which is the spacing of
    the floats between 1/16 and 1/8. *)
Definition round27 (q : Q) : Q :=
  Qfloor (q * inject_Z 134217728 + (1 # 2)) # 134217728.

(** 263 cells at the centre of the cube, 249 of type +1 followed by 14 of
    type -1, and 29 cells of type +1 a quarter of the cube away. *)
Definition tenthPos (i : nat) : vec3 :=
  if (i <? 263)%nat then mkVec (1 # 2) (1 # 2) (1 # 2)
  else mkVec (1 # 4) (1 # 2) (1 # 2).
Definition tenthTypes (i : nat) : Z :=
  if (i <? 249)%nat then 1%Z else if (i <? 263)%nat then (-1)%Z else 1%Z.

(** Two cells in the middle of the cube, of types +1 and -1. *)
Definition mixedTypes (i : nat) : Z := if (i =? 0)%nat then 1%Z else (-1)%Z.

(** * Properties *)

(** ** Float comparisons *)

Lemma Qltb_true (x y : Q) : Qltb x y = true <-> x < y.
Proof.
  unfold Qltb. rewrite Qlt_alt. destruct (x ?= y); split; congruence.
Qed.

Lemma Qltb_false (x y : Q) : Qltb x y = false <-> y <= x.
Proof.
  split; intro H.
  - apply Qnot_lt_le. intro Hlt. apply Qltb_true in Hlt. congruence.
  - destruct (Qltb x y) eqn:E; [|reflexivity].
    apply Qltb_true in E. exfalso. apply (Qlt_not_le _ _ E H).
Qed.

(** ** Properties of produceSubstances *)

Lemma sameVoxel_refl s i j k : sameVoxel s i j k s i j k = true.
Proof. unfold sameVoxel. rewrite !Z.eqb_refl. reflexivity. Qed.

Lemma sameVoxel_eq s i j k s' i' j' k' :
  sameVoxel s i j k s' i' j' k' = true <-> (s = s' /\ i = i' /\ j = j' /\ k = k').
Proof.
  unfold sameVoxel. rewrite !andb_true_iff, !Z.eqb_eq. tauto.
Qed.

Lemma deposit_range (x : Q) : 0 <= x <= 1 -> 0 <= deposit x <= 1.
Proof.
  intros [H0 H1]. unfold deposit. cbv zeta.
  destruct (Qltb 1 (x + (1 # 10))) eqn:E.
  - split; lra.
  - apply Qltb_false in E. split; lra.
Qed.

Lemma deposit_le_one (x : Q) : deposit x <= 1.
Proof.
  unfold deposit. cbv zeta.
  destruct (Qltb 1 (x + (1 # 10))) eqn:E.
  - lra.
  - apply Qltb_false in E. exact E.
Qed.

Lemma iter_deposit_range (k : nat) (x : Q) :
  0 <= x <= 1 -> 0 <= Nat.iter k deposit x <= 1.
Proof.
  intro H. induction k as [|k IH]; simpl; [exact H|].
  apply deposit_range, IH.
Qed.

Lemma hits_S posAll typesAll L n s i j k :
  hits posAll typesAll L (S n) s i j k =
  ((if depositsAt posAll typesAll L n s i j k then 1 else 0)
   + hits posAll typesAll L n s i j k)%nat.
Proof.
  unfold hits. rewrite seq_S, filter_app, length_app. simpl.
  destruct (depositsAt posAll typesAll L n s i j k); simpl; lia.
Qed.

Lemma produceSubstances_iter Conc posAll typesAll L n s i j k :
  produceSubstances Conc posAll typesAll L n s i j k =
  Nat.iter (hits posAll typesAll L n s i j k) deposit (Conc s i j k).
Proof.
  unfold produceSubstances. cbv zeta.
  induction n as [|n IH].
  - reflexivity.
  - rewrite hits_S. simpl forUp. unfold produceCell at 1. cbv zeta.
    unfold store at 1.
    unfold depositsAt. cbv zeta. unfold voxelOf.
    match goal with |- context [sameVoxel ?a ?b ?c ?d ?e ?f ?g ?h] =>
      destruct (sameVoxel a b c d e f g h) eqn:E end.
    + apply sameVoxel_eq in E. destruct E as (-> & -> & -> & ->).
      simpl. f_equal. exact IH.
    + simpl. exact IH.
Qed.

Lemma voxelOf_range (L : Z) (x : Q) :
  (0 < L)%Z -> 0 <= x <= 1 ->
  (0 <= voxelOf (1 / inject_Z L) (L - 1) x <= L - 1)%Z.
Proof.
  intros HL [H0 H1]. unfold voxelOf.
  assert (HLq : 0 < inject_Z L).
  { change 0 with (inject_Z 0). rewrite <- Zlt_Qlt. exact HL. }
  assert (Hx : x / (1 / inject_Z L) == x * inject_Z L).
  { field. intro Hz. rewrite Hz in HLq. apply (Qlt_irrefl 0 HLq). }
  rewrite Hx.
  assert (Hfl : (0 <= Qfloor (x * inject_Z L))%Z).
  { change 0%Z with (Qfloor 0). apply Qfloor_resp_le.
    apply Qmult_le_0_compat; lra. }
  lia.
Qed.

(** ** Loops that touch one place per pass *)

Section LoopLemmas.
Context {S A : Type} (obs : S -> A).

Lemma forUp_frame (n : nat) (body : nat -> S -> S) (s : S) :
  (forall j t, (j < n)%nat -> obs (body j t) = obs t) ->
  obs (forUp n body s) = obs s.
Proof.
  induction n as [|n IH]; intro H; simpl; [reflexivity|].
  rewrite H by lia. apply IH. intros j t Hj. apply H. lia.
Qed.

Lemma forUp_hit (n : nat) (body : nat -> S -> S) (s : S) (k : nat) :
  (k < n)%nat ->
  (forall j t, (j < n)%nat -> j <> k -> obs (body j t) = obs t) ->
  (forall t t', obs t = obs t' -> obs (body k t) = obs (body k t')) ->
  obs (forUp n body s) = obs (body k s).
Proof.
  induction n as [|n IH]; intros Hk Hfr Hcg; [lia|]. simpl.
  destruct (Nat.eq_dec k n) as [->|Hne].
  - apply Hcg. apply forUp_frame. intros j t Hj. apply Hfr; lia.
  - rewrite Hfr by lia. apply IH; [lia| |exact Hcg].
    intros j t Hj Hjk. apply Hfr; lia.
Qed.

Lemma forZ_frame (L : Z) (body : Z -> S -> S) (s : S) :
  (forall j t, (0 <= j < L)%Z -> obs (body j t) = obs t) ->
  obs (forZ L body s) = obs s.
Proof.
  intro H. unfold forZ. apply forUp_frame. intros j t Hj. apply H. lia.
Qed.

Lemma forZ_hit (L : Z) (body : Z -> S -> S) (s : S) (k : Z) :
  (0 <= k < L)%Z ->
  (forall j t, (0 <= j < L)%Z -> j <> k -> obs (body j t) = obs t) ->
  (forall t t', obs t = obs t' -> obs (body k t) = obs (body k t')) ->
  obs (forZ L body s) = obs (body k s).
Proof.
  intros Hk Hfr Hcg. unfold forZ.
  rewrite (forUp_hit _ _ _ (Z.to_nat k)).
  - rewrite Z2Nat.id by lia. reflexivity.
  - lia.
  - intros j t Hj Hjk. apply Hfr; lia.
  - rewrite Z2Nat.id by lia. exact Hcg.
Qed.
End LoopLemmas.

(** A triple loop over the grid whose body at [(i1,i2,i3)] changes nothing
    but what is observed at that voxel. *)
Lemma grid_loop_hit {S A : Type} (obs : S -> A) (L : Z)
    (body : Z -> Z -> Z -> S -> S) (s : S) (a b c : Z) :
  (0 <= a < L)%Z -> (0 <= b < L)%Z -> (0 <= c < L)%Z ->
  (forall i j k t, ~ (i = a /\ j = b /\ k = c) -> obs (body i j k t) = obs t) ->
  (forall t t', obs t = obs t' -> obs (body a b c t) = obs (body a b c t')) ->
  obs (forZ L (fun i1 => forZ L (fun i2 => forZ L (fun i3 => body i1 i2 i3))) s)
  = obs (body a b c s).
Proof.
  intros Ha Hb Hc Hfr Hcg.
  assert (Hin : forall i j t t', obs t = obs t' ->
            obs (forZ L (fun i3 => body i j i3) t) =
            if ((i =? a) && (j =? b))%Z then obs (body a b c t') else obs t').
  { intros i j t t' Ht.
    destruct ((i =? a) && (j =? b))%Z eqn:E.
    - apply andb_true_iff in E. destruct E as [E1 E2].
      apply Z.eqb_eq in E1, E2. subst i j.
      rewrite (forZ_hit obs L _ t c Hc).
      + apply Hcg, Ht.
      + intros k t0 _ Hk. apply Hfr. intros (_ & _ & ?). contradiction.
      + exact Hcg.
    - rewrite forZ_frame; [exact Ht|].
      intros k t0 _. apply Hfr. intros (-> & -> & _).
      rewrite !Z.eqb_refl in E. discriminate. }
  assert (Hmid : forall i t t', obs t = obs t' ->
            obs (forZ L (fun i2 => forZ L (fun i3 => body i i2 i3)) t) =
            if (i =? a)%Z then obs (body a b c t') else obs t').
  { intros i t t' Ht.
    destruct (i =? a)%Z eqn:E.
    - apply Z.eqb_eq in E. subst i.
      rewrite (forZ_hit obs L _ t b Hb).
      + rewrite (Hin a b t t' Ht). rewrite !Z.eqb_refl. reflexivity.
      + intros j t0 _ Hj. rewrite (Hin a j t0 t0 eq_refl).
        rewrite Z.eqb_refl. simpl.
        destruct (j =? b)%Z eqn:E; [apply Z.eqb_eq in E; contradiction|reflexivity].
      + intros t0 t0' H0. rewrite (Hin a b t0 t0' H0).
        rewrite (Hin a b t0' t0' eq_refl). reflexivity.
    - rewrite forZ_frame; [exact Ht|].
      intros j t0 _. rewrite (Hin i j t0 t0 eq_refl). rewrite E. reflexivity. }
  rewrite (forZ_hit obs L _ s a Ha).
  - rewrite (Hmid a s s eq_refl). rewrite Z.eqb_refl. reflexivity.
  - intros i t0 _ Hi. rewrite (Hmid i t0 t0 eq_refl).
    destruct (i =? a)%Z eqn:E; [apply Z.eqb_eq in E; contradiction|reflexivity].
  - intros t0 t0' H0. rewrite (Hmid a t0 t0' H0).
    rewrite (Hmid a t0' t0' eq_refl). reflexivity.
Qed.

Lemma grid_loop_frame {S A : Type} (obs : S -> A) (L : Z)
    (body : Z -> Z -> Z -> S -> S) (s : S) :
  (forall i j k t, (0 <= i < L)%Z -> (0 <= j < L)%Z -> (0 <= k < L)%Z ->
     obs (body i j k t) = obs t) ->
  obs (forZ L (fun i1 => forZ L (fun i2 => forZ L (fun i3 => body i1 i2 i3))) s)
  = obs s.
Proof.
  intro H. apply forZ_frame. intros i t Hi.
  apply forZ_frame. intros j t' Hj.
  apply forZ_frame. intros k t'' Hk. apply H; assumption.
Qed.

(** ** runDiffusionStep *)

Lemma store_same C s i j k v : store C s i j k v s i j k = v.
Proof. unfold store. rewrite sameVoxel_refl. reflexivity. Qed.

Lemma store_other C s i j k v s' i' j' k' :
  ~ (s' = s /\ i' = i /\ j' = j /\ k' = k) ->
  store C s i j k v s' i' j' k' = C s' i' j' k'.
Proof.
  intro H. unfold store.
  destruct (sameVoxel s' i' j' k' s i j k) eqn:E; [|reflexivity].
  apply sameVoxel_eq in E. contradiction.
Qed.

Lemma copyVoxel_at Conc i j k t s :
  s = 0%Z \/ s = 1%Z -> copyVoxel Conc i j k t s i j k = Conc s i j k.
Proof.
  intros [-> | ->]; unfold copyVoxel; cbv zeta.
  - rewrite store_other by (intros (? & _); discriminate).
    apply store_same.
  - apply store_same.
Qed.

Lemma copyVoxel_other Conc i j k t s a b c :
  ~ (a = i /\ b = j /\ c = k) -> copyVoxel Conc i j k t s a b c = t s a b c.
Proof.
  intro H. unfold copyVoxel; cbv zeta.
  rewrite !store_other; [reflexivity| |]; intros (_ & ? & ? & ?); apply H; auto.
Qed.

(** The copy loop: inside the grid the snapshot holds the mesh, whatever
    the array held before. *)
Lemma snapshot_in_grid stack Conc L s a b c :
  s = 0%Z \/ s = 1%Z -> (0 <= a < L)%Z -> (0 <= b < L)%Z -> (0 <= c < L)%Z ->
  forZ L (fun i1 => forZ L (fun i2 => forZ L (fun i3 =>
    copyVoxel Conc i1 i2 i3))) stack s a b c = Conc s a b c.
Proof.
  intros Hs Ha Hb Hc.
  rewrite (grid_loop_hit (fun t : field => t s a b c) L
             (fun i1 i2 i3 => copyVoxel Conc i1 i2 i3) stack a b c Ha Hb Hc).
  - apply copyVoxel_at, Hs.
  - intros i j k t H. apply copyVoxel_other. intros (-> & -> & ->). apply H; auto.
  - intros t t' _. rewrite !copyVoxel_at by exact Hs. reflexivity.
Qed.

Lemma pull_at t D a b c j1 j2 j3 C s :
  s = 0%Z \/ s = 1%Z ->
  pull t D a b c j1 j2 j3 C s a b c =
  C s a b c + (t s j1 j2 j3 - t s a b c) * D.
Proof.
  intros [-> | ->]; unfold pull, addAt; cbv zeta.
  - rewrite store_other by (intros (? & _); discriminate).
    rewrite store_same. reflexivity.
  - rewrite store_same.
    rewrite store_other by (intros (? & _); discriminate). reflexivity.
Qed.

Lemma pull_other t D i j k j1 j2 j3 C s a b c :
  ~ ((s = 0%Z \/ s = 1%Z) /\ a = i /\ b = j /\ c = k) ->
  pull t D i j k j1 j2 j3 C s a b c = C s a b c.
Proof.
  intro H. unfold pull, addAt; cbv zeta.
  rewrite !store_other; [reflexivity| |]; intros (? & ? & ? & ?); apply H; auto.
Qed.

Lemma diffuseVoxel_at t L D a b c C s :
  s = 0%Z \/ s = 1%Z ->
  diffuseVoxel t L D a b c C s a b c = diffuseValue t L D s a b c (C s a b c).
Proof.
  intro Hs. unfold diffuseVoxel, diffuseValue. cbv zeta.
  destruct (a + 1 <? L)%Z, (0 <=? a - 1)%Z, (b + 1 <? L)%Z, (0 <=? b - 1)%Z,
           (c + 1 <? L)%Z, (0 <=? c - 1)%Z;
    rewrite ?(pull_at t D a b c _ _ _ _ s Hs); reflexivity.
Qed.

Lemma diffuseVoxel_other t L D i j k C s a b c :
  ~ ((s = 0%Z \/ s = 1%Z) /\ a = i /\ b = j /\ c = k) ->
  diffuseVoxel t L D i j k C s a b c = C s a b c.
Proof.
  intro H. unfold diffuseVoxel. cbv zeta.
  destruct (i + 1 <? L)%Z, (0 <=? i - 1)%Z, (j + 1 <? L)%Z, (0 <=? j - 1)%Z,
           (k + 1 <? L)%Z, (0 <=? k - 1)%Z;
    rewrite ?(pull_other t D i j k _ _ _ _ s a b c H); reflexivity.
Qed.

(** The value only reads the snapshot at the voxel and at the neighbours
    that pass the bounds test. *)
Lemma diffuseValue_ext t t' L D s a b c v :
  (0 <= a < L)%Z -> (0 <= b < L)%Z -> (0 <= c < L)%Z ->
  (forall i j k, (0 <= i < L)%Z -> (0 <= j < L)%Z -> (0 <= k < L)%Z ->
     t s i j k = t' s i j k) ->
  diffuseValue t L D s a b c v = diffuseValue t' L D s a b c v.
Proof.
  intros Ha Hb Hc H. unfold diffuseValue. cbv zeta.
  rewrite (H a b c Ha Hb Hc).
  destruct (a + 1 <? L)%Z eqn:E1; [apply Z.ltb_lt in E1; rewrite (H (a + 1)%Z b c) by lia|];
  (destruct (0 <=? a - 1)%Z eqn:E2; [apply Z.leb_le in E2; rewrite (H (a - 1)%Z b c) by lia|]);
  (destruct (b + 1 <? L)%Z eqn:E3; [apply Z.ltb_lt in E3; rewrite (H a (b + 1)%Z c) by lia|]);
  (destruct (0 <=? b - 1)%Z eqn:E4; [apply Z.leb_le in E4; rewrite (H a (b - 1)%Z c) by lia|]);
  (destruct (c + 1 <? L)%Z eqn:E5; [apply Z.ltb_lt in E5; rewrite (H a b (c + 1)%Z) by lia|]);
  (destruct (0 <=? c - 1)%Z eqn:E6; [apply Z.leb_le in E6; rewrite (H a b (c - 1)%Z) by lia|]);
  reflexivity.
Qed.

Lemma inGrid_iff L a b c :
  inGrid L (a, b, c) = true <-> ((0 <= a < L) /\ (0 <= b < L) /\ (0 <= c < L))%Z.
Proof.
  unfold inGrid. rewrite !andb_true_iff, !Z.leb_le, !Z.ltb_lt. tauto.
Qed.

Lemma diffuseValue_diffused old L D s a b c :
  (0 <= a < L)%Z -> (0 <= b < L)%Z -> (0 <= c < L)%Z ->
  diffuseValue old L (D / 6) s a b c (old s a b c) = diffused old L D s a b c.
Proof.
  intros Ha Hb Hc. unfold diffuseValue, diffused, neighbours. cbv zeta.
  assert (G1 : inGrid L (a + 1, b, c)%Z = (a + 1 <? L)%Z).
  { apply eq_true_iff_eq. rewrite inGrid_iff, Z.ltb_lt. lia. }
  assert (G2 : inGrid L (a - 1, b, c)%Z = (0 <=? a - 1)%Z).
  { apply eq_true_iff_eq. rewrite inGrid_iff, Z.leb_le. lia. }
  assert (G3 : inGrid L (a, b + 1, c)%Z = (b + 1 <? L)%Z).
  { apply eq_true_iff_eq. rewrite inGrid_iff, Z.ltb_lt. lia. }
  assert (G4 : inGrid L (a, b - 1, c)%Z = (0 <=? b - 1)%Z).
  { apply eq_true_iff_eq. rewrite inGrid_iff, Z.leb_le. lia. }
  assert (G5 : inGrid L (a, b, c + 1)%Z = (c + 1 <? L)%Z).
  { apply eq_true_iff_eq. rewrite inGrid_iff, Z.ltb_lt. lia. }
  assert (G6 : inGrid L (a, b, c - 1)%Z = (0 <=? c - 1)%Z).
  { apply eq_true_iff_eq. rewrite inGrid_iff, Z.leb_le. lia. }
  cbn [filter]. rewrite G1, G2, G3, G4, G5, G6.
  destruct (a + 1 <? L)%Z, (0 <=? a - 1)%Z, (b + 1 <? L)%Z, (0 <=? b - 1)%Z,
           (c + 1 <? L)%Z, (0 <=? c - 1)%Z; reflexivity.
Qed.

Lemma runDiffusionStep_in_grid stack Conc L D s a b c :
  s = 0%Z \/ s = 1%Z -> (0 <= a < L)%Z -> (0 <= b < L)%Z -> (0 <= c < L)%Z ->
  runDiffusionStep stack Conc L D s a b c = diffused Conc L D s a b c.
Proof.
  intros Hs Ha Hb Hc. unfold runDiffusionStep. cbv zeta.
  set (tmp := forZ L (fun i1 => forZ L (fun i2 => forZ L (fun i3 =>
                copyVoxel Conc i1 i2 i3))) stack).
  rewrite (grid_loop_hit (fun t : field => t s a b c) L
             (fun i1 i2 i3 => diffuseVoxel tmp L (D / 6) i1 i2 i3) Conc a b c Ha Hb Hc).
  - rewrite diffuseVoxel_at by exact Hs.
    rewrite (diffuseValue_ext tmp Conc L (D / 6) s a b c _ Ha Hb Hc).
    + apply diffuseValue_diffused; assumption.
    + intros i j k Hi Hj Hk. apply snapshot_in_grid; assumption.
  - intros i j k t H. apply diffuseVoxel_other. intros (_ & -> & -> & ->). apply H; auto.
  - intros t t' Ht. rewrite !diffuseVoxel_at by exact Hs. rewrite Ht. reflexivity.
Qed.

Lemma runDiffusionStep_outside stack Conc L D s a b c :
  ~ ((s = 0%Z \/ s = 1%Z) /\ inGrid L (a, b, c) = true) ->
  runDiffusionStep stack Conc L D s a b c = Conc s a b c.
Proof.
  intro H. unfold runDiffusionStep. cbv zeta.
  apply (grid_loop_frame (fun t : field => t s a b c)).
  intros i j k t Hi Hj Hk. apply diffuseVoxel_other.
  intros (Hs & -> & -> & ->). apply H. split; [exact Hs|].
  apply inGrid_iff. auto.
Qed.

(** C4.  runDiffusionStep: the value of a voxel of the grid after the step
    is its value before plus [(neighbour - self) * (D/6)] for each of the six
    axis-aligned neighbours whose indices lie in [0,L), every term read from
    the mesh as it was on entry (whatever the snapshot array held before the
    copy); a neighbour outside the grid adds nothing, and nothing outside the
    grid changes. *)
Theorem runDiffusionStep_snapshot_laplacian
    (stack Conc : field) (L : Z) (D : Q) (s a b c : Z) :
  s = 0%Z \/ s = 1%Z ->
  (0 <= a < L)%Z -> (0 <= b < L)%Z -> (0 <= c < L)%Z ->
  runDiffusionStep stack Conc L D s a b c =
    fold_left
      (fun acc nb => let '(j1, j2, j3) := nb in
         acc + (Conc s j1 j2 j3 - Conc s a b c) * (D / 6))
      (filter (inGrid L) (neighbours a b c))
      (Conc s a b c)
  /\ (length (filter (inGrid L) (neighbours a b c)) <= 6)%nat
  /\ (forall s' i j k, inGrid L (i, j, k) = false ->
        runDiffusionStep stack Conc L D s' i j k = Conc s' i j k).
Proof.
  intros Hs Ha Hb Hc. split; [|split].
  - apply runDiffusionStep_in_grid; assumption.
  - etransitivity; [apply filter_length_le|]. simpl. lia.
  - intros s' i j k Hout. apply runDiffusionStep_outside.
    intros (_ & Hin). congruence.
Qed.

(** ** Deposits stay in the grid and in range *)

(** C3.  produceSubstances: every active cell deposits into the voxel
    [floor(position/sideLength)] capped at [L-1] per axis, in substance 0
    for type +1 and substance 1 for type -1; a voxel that [k] cells map to
    receives [k] times "add 0.1, cap at 1".  Hence, on a mesh whose voxels
    hold values in [0,1] and with the cells in the unit cube, the deposits
    fall inside the grid and every voxel of both substances still holds a
    value in [0,1], however many cells share a voxel. *)
Theorem produceSubstances_deposits_and_bounds
    (Conc : field) (posAll : nat -> vec3) (typesAll : nat -> Z) (L : Z) (n : nat) :
  (0 < L)%Z ->
  (forall s i j k, s = 0%Z \/ s = 1%Z -> inGrid L (i, j, k) = true ->
     0 <= Conc s i j k <= 1) ->
  (forall c, (c < n)%nat -> inCube (posAll c)) ->
  (substanceOf 1 = 0%Z /\ substanceOf (-1) = 1%Z)
  /\ (forall x, deposit x == Qmin (x + (1 # 10)) 1)
  /\ (forall c s i j k, (c < n)%nat ->
        depositsAt posAll typesAll L c s i j k = true ->
        (s = 0%Z \/ s = 1%Z) /\ inGrid L (i, j, k) = true)
  /\ (forall s i j k,
        produceSubstances Conc posAll typesAll L n s i j k =
        Nat.iter (hits posAll typesAll L n s i j k) deposit (Conc s i j k))
  /\ (forall s i j k, s = 0%Z \/ s = 1%Z -> inGrid L (i, j, k) = true ->
        0 <= produceSubstances Conc posAll typesAll L n s i j k <= 1).
Proof.
  intros HL HC Hpos. split; [split; reflexivity|]. split.
  { intro x. unfold deposit. cbv zeta.
    destruct (Qltb 1 (x + (1 # 10))) eqn:E.
    - apply Qltb_true in E. symmetry. apply Q.min_r. lra.
    - apply Qltb_false in E. symmetry. apply Q.min_l. exact E. }
  split.
  { intros c s i j k Hc Hd. unfold depositsAt in Hd. cbv zeta in Hd.
    apply sameVoxel_eq in Hd. destruct Hd as (-> & -> & -> & ->).
    destruct (Hpos c Hc) as (Hx & Hy & Hz).
    split.
    - unfold substanceOf. destruct (typesAll c =? 1)%Z; auto.
    - apply inGrid_iff.
      pose proof (voxelOf_range L _ HL Hx).
      pose proof (voxelOf_range L _ HL Hy).
      pose proof (voxelOf_range L _ HL Hz).
      unfold voxelOf in *. lia. }
  split.
  { intros. apply produceSubstances_iter. }
  intros s i j k Hs Hg. rewrite produceSubstances_iter.
  apply iter_deposit_range, HC; assumption.
Qed.

(** ** cellMovementAndDuplication *)

Lemma upd_same {A : Type} (f : nat -> A) i v : upd f i v i = v.
Proof. unfold upd. rewrite Nat.eqb_refl. reflexivity. Qed.

Lemma upd_other {A : Type} (f : nat -> A) i v j : j <> i -> upd f i v j = f j.
Proof.
  intro H. unfold upd. destruct (Nat.eqb_spec j i); [contradiction|reflexivity].
Qed.

Ltac proj_pop :=
  cbn [posAll pathTraveled typesAll numberDivisions currentNumberCells rng].

Ltac upd_simpl :=
  repeat (rewrite upd_same || rewrite upd_other by lia).

Section GrowthProps.
Variable rnd : nat -> Q.
Variable sqrtF : Q -> Q.
Variable thr : Q.
Variable dth : Z.

Lemma randomOffset_eq k :
  randomOffset rnd k = (offsetAt rnd k, (k + 3)%nat).
Proof.
  unfold randomOffset, RandomFloatPos, offsetAt.
  replace (k + 3)%nat with (S (S (S k))) by lia. reflexivity.
Qed.

(** The loop body with its local variables substituted. *)
Lemma growCell_eq c q :
  growCell rnd sqrtF thr dth c q =
  let off := offsetAt rnd (rng q) in
  let moved := vadd (posAll q c) (1 # 10) off (getNorm sqrtF off) in
  let path := pathTraveled q c + (1 # 10) in
  if (numberDivisions q c <? dth)%Z && Qltb thr path then
    let off2 := offsetAt rnd (rng q + 3) in
    mkPop (upd (upd (posAll q) c moved) (currentNumberCells q)
               (vadd moved (5 # 100) off2 (getNorm sqrtF off2)))
          (upd (upd (pathTraveled q) c path) c (path - thr))
          (upd (typesAll q) (currentNumberCells q) (- typesAll q c)%Z)
          (upd (upd (numberDivisions q) c (numberDivisions q c + 1)%Z)
               (currentNumberCells q) (numberDivisions q c + 1)%Z)
          (S (currentNumberCells q))
          (rng q + 3 + 3)%nat
  else
    mkPop (upd (posAll q) c moved) (upd (pathTraveled q) c path)
          (typesAll q) (numberDivisions q) (currentNumberCells q) (rng q + 3)%nat.
Proof.
  unfold growCell. rewrite !randomOffset_eq. cbv zeta.
  rewrite !upd_same.
  replace (S (currentNumberCells q) - 1)%nat with (currentNumberCells q) by lia.
  destruct (numberDivisions q c <? dth)%Z; simpl; [|reflexivity].
  destruct (Qltb thr (pathTraveled q c + (1 # 10))); reflexivity.
Qed.

Lemma divisionsBefore_S p c :
  divisionsBefore thr dth p (S c) =
  (divisionsBefore thr dth p c + if divides thr dth p c then 1 else 0)%nat.
Proof.
  unfold divisionsBefore. rewrite seq_S, filter_app, length_app. simpl.
  destruct (divides thr dth p c); simpl; lia.
Qed.

Lemma divisionsBefore_mono p c m :
  (c <= m)%nat -> (divisionsBefore thr dth p c <= divisionsBefore thr dth p m)%nat.
Proof.
  induction 1 as [|m Hle IH]; [lia|]. rewrite divisionsBefore_S. lia.
Qed.

Lemma divisionsBefore_lt p c m :
  (c < m)%nat -> divides thr dth p c = true ->
  (divisionsBefore thr dth p c < divisionsBefore thr dth p m)%nat.
Proof.
  intros Hlt Hd.
  pose proof (divisionsBefore_mono p (S c) m Hlt) as H.
  rewrite divisionsBefore_S, Hd in H. lia.
Qed.

Lemma divisionsBefore_le p c : (divisionsBefore thr dth p c <= c)%nat.
Proof.
  induction c as [|c IH]; [reflexivity|]. rewrite divisionsBefore_S.
  destruct (divides thr dth p c); lia.
Qed.

Variable p : Pop.
Variable n : nat.

Let entry : Pop :=
  mkPop (posAll p) (pathTraveled p) (typesAll p) (numberDivisions p) n (rng p).

Lemma growInv_start : growInv rnd sqrtF thr dth p n 0 entry.
Proof.
  unfold growInv, daughterSlot, cursorAt, divisionsBefore. simpl.
  repeat split; try lia; intros; lia.
Qed.

Lemma growInv_step m q :
  (m < n)%nat ->
  growInv rnd sqrtF thr dth p n m q ->
  growInv rnd sqrtF thr dth p n (S m) (growCell rnd sqrtF thr dth m q).
Proof.
  intros Hm (Hcnt & Hrng & Htodo & Hhi & Hfree & Hdone).
  destruct (Htodo m (conj (le_n m) Hm)) as (Hpos & Hpath & Hdiv & Htyp).
  pose proof (divisionsBefore_le p m) as Hle.
  rewrite growCell_eq. cbv zeta.
  rewrite Hpos, Hpath, Hdiv, Htyp, Hcnt, Hrng.
  change ((numberDivisions p m <? dth)%Z && Qltb thr (pathTraveled p m + (1 # 10)))
    with (divides thr dth p m).
  unfold growInv, daughterSlot, cursorAt in *.
  rewrite divisionsBefore_S.
  destruct (divides thr dth p m) eqn:Ed; cbn [posAll pathTraveled typesAll
    numberDivisions currentNumberCells rng].
  - (* the cell divides *)
    split; [lia|]. split; [lia|]. split.
    { intros j Hj. rewrite !upd_other by lia. apply Htodo. lia. }
    split.
    { intros j Hj. rewrite !upd_other by lia. apply Hhi. exact Hj. }
    split.
    { intros j Hj. rewrite !upd_other by lia. apply Hfree. lia. }
    intros c Hc. unfold cellDone.
    destruct (Nat.eq_dec c m) as [->|Hne].
    + rewrite Ed. unfold movedPos, daughterPos, movedPos, daughterSlot, cursorAt.
      cbv zeta. proj_pop. upd_simpl.
      repeat split; try reflexivity. exact Htyp.
    + assert (Hc' : (c < m)%nat) by lia.
      destruct (Hdone c Hc') as (Dpos & Dtyp & Drest).
      unfold daughterSlot in *. proj_pop.
      split; [upd_simpl; exact Dpos|].
      split; [upd_simpl; exact Dtyp|].
      destruct (divides thr dth p c) eqn:Ec.
      * pose proof (divisionsBefore_lt p c m Hc' Ec) as Hlt.
        destruct Drest as (D1 & D2 & D3 & D4 & D5).
        upd_simpl. auto.
      * destruct Drest as (D1 & D2).
        upd_simpl. auto.
  - (* it does not *)
    split; [lia|]. split; [lia|]. split.
    { intros j Hj. rewrite !upd_other by lia. apply Htodo. lia. }
    split.
    { intros j Hj. rewrite !upd_other by lia. apply Hhi. exact Hj. }
    split.
    { intros j Hj. rewrite !upd_other by lia. apply Hfree. lia. }
    intros c Hc. unfold cellDone.
    destruct (Nat.eq_dec c m) as [->|Hne].
    + rewrite Ed. unfold movedPos, cursorAt. cbv zeta. proj_pop. upd_simpl.
      repeat split; try reflexivity; assumption.
    + assert (Hc' : (c < m)%nat) by lia.
      destruct (Hdone c Hc') as (Dpos & Dtyp & Drest).
      unfold daughterSlot in *. proj_pop.
      split; [upd_simpl; exact Dpos|].
      split; [exact Dtyp|].
      destruct (divides thr dth p c) eqn:Ec.
      * destruct Drest as (D1 & D2 & D3 & D4 & D5).
        upd_simpl. auto.
      * destruct Drest as (D1 & D2).
        upd_simpl. auto.
Qed.

Lemma growInv_loop m :
  (m <= n)%nat ->
  growInv rnd sqrtF thr dth p n m (forUp m (growCell rnd sqrtF thr dth) entry).
Proof.
  induction m as [|m IH]; intro Hm.
  - apply growInv_start.
  - simpl. apply growInv_step; [lia|]. apply IH. lia.
Qed.

Lemma growInv_final :
  growInv rnd sqrtF thr dth p n n (cellMovementAndDuplication rnd sqrtF thr dth n p).
Proof. apply growInv_loop. apply le_n. Qed.
End GrowthProps.

Lemma divides_iff thr dth p c :
  divides thr dth p c = true <->
  (numberDivisions p c < dth)%Z /\ thr < pathTraveled p c + (1 # 10).
Proof.
  unfold divides. rewrite andb_true_iff, Z.ltb_lt, Qltb_true. tauto.
Qed.

(** A normalised offset scaled by [k] has squared length [k*k], provided
    the square root is exact on the offset at hand. *)
Lemma vadd_unit sqrtF (pos off : vec3) (k : Q) :
  0 < normSq off ->
  getNorm sqrtF off * getNorm sqrtF off == normSq off ->
  normSq (vsub (vadd pos k off (getNorm sqrtF off)) pos) == k * k.
Proof.
  intros Hpos Hsq.
  set (N := getNorm sqrtF off) in *.
  assert (HN : ~ N == 0).
  { intro H0. rewrite H0 in Hsq. lra. }
  unfold normSq, vsub, vadd in *. cbn [c0 c1 c2] in *.
  transitivity (k * k * (c0 off * c0 off + c1 off * c1 off + c2 off * c2 off) / (N * N)).
  - field. exact HN.
  - rewrite <- Hsq. field. exact HN.
Qed.

(** C5.  In a growth step entered with [n] cells, cell [c] divides exactly
    when [numberDivisions[c] < divThreshold] and its path, once 0.1 has been
    added for the move, exceeds [pathThreshold]: the returned count is [n]
    plus the number of such cells.  A dividing parent keeps
    [pathTraveled + 0.1 - pathThreshold] and has its division count raised by
    one; its daughter sits at the next free index, with the opposite type, the
    parent's new division count, and the parent's new position plus
    [0.05 * offset / norm(offset)], a vector of length 0.05 wherever the square
    root is exact.  A cell that does not divide only moves. *)
Theorem growth_step_division_rule
    (rnd : nat -> Q) (sqrtF : Q -> Q) (pathThreshold : Q) (divThreshold : Z)
    (p : Pop) (n c : nat) :
  (c < n)%nat ->
  let q := cellMovementAndDuplication rnd sqrtF pathThreshold divThreshold n p in
  let d := daughterSlot pathThreshold divThreshold p n c in
  let off := offsetAt rnd (cursorAt pathThreshold divThreshold p c + 3) in
  (divides pathThreshold divThreshold p c = true <->
     (numberDivisions p c < divThreshold)%Z
     /\ pathThreshold < pathTraveled p c + (1 # 10))
  /\ currentNumberCells q =
       (n + length (filter (divides pathThreshold divThreshold p) (seq 0 n)))%nat
  /\ (divides pathThreshold divThreshold p c = true ->
        pathTraveled q c = pathTraveled p c + (1 # 10) - pathThreshold
        /\ numberDivisions q c = (numberDivisions p c + 1)%Z
        /\ (n <= d < currentNumberCells q)%nat
        /\ (forall c', (c' < c)%nat ->
              divides pathThreshold divThreshold p c' = true ->
              (daughterSlot pathThreshold divThreshold p n c' < d)%nat)
        /\ typesAll q d = (- typesAll p c)%Z
        /\ numberDivisions q d = numberDivisions q c
        /\ posAll q d = vadd (posAll q c) (5 # 100) off (getNorm sqrtF off)
        /\ (0 < normSq off ->
            getNorm sqrtF off * getNorm sqrtF off == normSq off ->
            normSq (vsub (posAll q d) (posAll q c)) == (5 # 100) * (5 # 100)))
  /\ (divides pathThreshold divThreshold p c = false ->
        pathTraveled q c = pathTraveled p c + (1 # 10)
        /\ numberDivisions q c = numberDivisions p c)
  /\ typesAll q c = typesAll p c.
Proof.
  intros Hc q d off.
  destruct (growInv_final rnd sqrtF pathThreshold divThreshold p n)
    as (Hcnt & _ & _ & _ & _ & Hdone).
  fold q in Hcnt, Hdone.
  destruct (Hdone c Hc) as (Dpos & Dtyp & Drest).
  split; [apply divides_iff|].
  split; [exact Hcnt|].
  split; [|split; [|exact Dtyp]].
  - intro Hd. rewrite Hd in Drest.
    destruct Drest as (D1 & D2 & D3 & D4 & D5).
    assert (Hposd : posAll q d = vadd (posAll q c) (5 # 100) off (getNorm sqrtF off)).
    { unfold d. rewrite D5, Dpos. reflexivity. }
    repeat split.
    + exact D1.
    + exact D2.
    + unfold d, daughterSlot. lia.
    + rewrite Hcnt. unfold d, daughterSlot.
      pose proof (divisionsBefore_lt pathThreshold divThreshold p c n Hc Hd). lia.
    + intros c' Hc' Hd'. unfold d, daughterSlot.
      pose proof (divisionsBefore_lt pathThreshold divThreshold p c' c Hc' Hd'). lia.
    + exact D3.
    + unfold d. rewrite D4, D2. reflexivity.
    + exact Hposd.
    + intros Hpos Hsq. rewrite Hposd. apply vadd_unit; assumption.
  - intro Hd. rewrite Hd in Drest. exact Drest.
Qed.

(** ** Phase 1 *)

Lemma sumZ_S f m : sumZ f (S m) = (sumZ f m + f m)%Z.
Proof.
  unfold sumZ. rewrite seq_S, map_app, fold_right_app. simpl.
  generalize (map f (seq 0 m)) as l. intro l.
  induction l as [|x l IH]; simpl; [lia|]. rewrite IH. lia.
Qed.

Lemma sumZ_ext f g m :
  (forall j, (j < m)%nat -> f j = g j) -> sumZ f m = sumZ g m.
Proof.
  induction m as [|m IH]; intro H; [reflexivity|].
  rewrite !sumZ_S, IH by (intros; apply H; lia). rewrite H by lia. reflexivity.
Qed.

(** Changing one term of the sum. *)
Lemma sumZ_change f g m c :
  (c < m)%nat -> (forall j, (j < m)%nat -> j <> c -> g j = f j) ->
  sumZ g m = (sumZ f m - f c + g c)%Z.
Proof.
  induction m as [|m IH]; intros Hc H; [lia|]. rewrite !sumZ_S.
  destruct (Nat.eq_dec c m) as [->|Hne].
  - rewrite (sumZ_ext g f m) by (intros; apply H; lia). lia.
  - rewrite IH by (try lia; intros; apply H; lia).
    rewrite (H m) by lia. lia.
Qed.

Lemma sumZ_lower f m :
  (forall j, (j < m)%nat -> (1 <= f j)%Z) -> (Z.of_nat m <= sumZ f m)%Z.
Proof.
  induction m as [|m IH]; intro H; [reflexivity|]. rewrite sumZ_S.
  specialize (IH (fun j Hj => H j (Nat.lt_lt_succ_r _ _ Hj))).
  specialize (H m (Nat.lt_succ_diag_r m)). lia.
Qed.

(** A sum of [m] terms, each at least 1, that equals [m] has all terms 1. *)
Lemma sumZ_tight f m :
  (forall j, (j < m)%nat -> (1 <= f j)%Z) -> sumZ f m = Z.of_nat m ->
  forall j, (j < m)%nat -> f j = 1%Z.
Proof.
  induction m as [|m IH]; intros H Hs j Hj; [lia|].
  rewrite sumZ_S in Hs.
  pose proof (sumZ_lower f m (fun j Hj => H j (Nat.lt_lt_succ_r _ _ Hj))) as Hlo.
  pose proof (H m (Nat.lt_succ_diag_r m)) as Hm.
  destruct (Nat.eq_dec j m) as [->|Hne]; [lia|].
  apply IH; try lia. intros i Hi. apply H. lia.
Qed.

Lemma sumDivisions_sumZ p m : sumDivisions p m = sumZ (numberDivisions p) m.
Proof. reflexivity. Qed.

Lemma sumZ_const f m k :
  (forall j, (j < m)%nat -> f j = k) -> sumZ f m = (Z.of_nat m * k)%Z.
Proof.
  induction m as [|m IH]; intro H; [reflexivity|].
  rewrite sumZ_S, IH by (intros; apply H; lia). rewrite H by lia. lia.
Qed.

Lemma cloneSize_pos dth q j :
  (numberDivisions q j <= dth)%Z -> (1 <= cloneSize dth q j)%Z.
Proof.
  intro H. unfold cloneSize.
  assert (0 < 2 ^ (dth - numberDivisions q j))%Z by (apply Z.pow_pos_nonneg; lia).
  lia.
Qed.

Lemma pow2_one k : (0 <= k)%Z -> (2 ^ k = 1)%Z -> k = 0%Z.
Proof.
  intros Hk H. destruct (Z.eq_dec k 0) as [|Hne]; [assumption|].
  assert (2 ^ 1 <= 2 ^ k)%Z by (apply Z.pow_le_mono_r; lia).
  change (2 ^ 1)%Z with 2%Z in *. lia.
Qed.

Section Lineage.
Variable rnd : nat -> Q.
Variable sqrtF : Q -> Q.
Variable thr : Q.
Variable dth : Z.
Variable cap : nat.

Lemma growCell_count c q :
  (currentNumberCells q <= currentNumberCells (growCell rnd sqrtF thr dth c q))%nat.
Proof.
  rewrite growCell_eq. cbv zeta.
  destruct ((numberDivisions q c <? dth)%Z && Qltb thr (pathTraveled q c + (1 # 10)));
    proj_pop; lia.
Qed.

Lemma growCell_lineage c q :
  (c < currentNumberCells q)%nat ->
  lineageInv dth cap q ->
  lineageInv dth cap (growCell rnd sqrtF thr dth c q).
Proof.
  intros Hc (Hpath & Hdiv & Hsum).
  rewrite growCell_eq. cbv zeta.
  destruct ((numberDivisions q c <? dth)%Z && Qltb thr (pathTraveled q c + (1 # 10)))
    eqn:E; unfold lineageInv; proj_pop.
  - apply andb_true_iff in E. destruct E as [E1 E2].
    apply Z.ltb_lt in E1. apply Qltb_true in E2.
    pose proof (Hdiv c Hc) as Hdc.
    split; [|split].
    + intros j Hj. destruct (Nat.eq_dec j c) as [->|Hne].
      * upd_simpl. lra.
      * upd_simpl. apply Hpath, Hj.
    + intros j Hj.
      destruct (Nat.eq_dec j (currentNumberCells q)) as [->|Hn]; [upd_simpl; lia|].
      destruct (Nat.eq_dec j c) as [->|Hne]; [upd_simpl; lia|].
      upd_simpl. apply Hdiv. lia.
    + rewrite sumZ_S.
      rewrite (sumZ_change (cloneSize dth q) _ (currentNumberCells q) c Hc).
      * unfold cloneSize at 2 3 4. proj_pop. upd_simpl.
        rewrite Hsum.
        replace (dth - numberDivisions q c)%Z
          with (Z.succ (dth - (numberDivisions q c + 1)))%Z by lia.
        rewrite Z.pow_succ_r by lia. lia.
      * intros j Hj Hne. unfold cloneSize. proj_pop. upd_simpl. reflexivity.
  - split; [|split].
    + intros j Hj. destruct (Nat.eq_dec j c) as [->|Hne].
      * upd_simpl. specialize (Hpath c Hj). lra.
      * upd_simpl. apply Hpath, Hj.
    + exact Hdiv.
    + exact Hsum.
Qed.

Lemma growLoop_lineage n m q :
  (m <= n)%nat -> (n <= currentNumberCells q)%nat ->
  lineageInv dth cap q ->
  lineageInv dth cap (forUp m (growCell rnd sqrtF thr dth) q)
  /\ (n <= currentNumberCells (forUp m (growCell rnd sqrtF thr dth) q))%nat.
Proof.
  intros Hm Hn Hinv. induction m as [|m IH]; simpl; [auto|].
  destruct IH as [IH1 IH2]; [lia|].
  split.
  - apply growCell_lineage; [lia|exact IH1].
  - etransitivity; [exact IH2|apply growCell_count].
Qed.

Lemma growth_lineage n p :
  currentNumberCells p = n ->
  lineageInv dth cap p ->
  lineageInv dth cap (cellMovementAndDuplication rnd sqrtF thr dth n p).
Proof.
  intros Hn Hinv. unfold cellMovementAndDuplication. cbv zeta.
  apply (growLoop_lineage n n); [lia|proj_pop; lia|].
  subst n. destruct p; exact Hinv.
Qed.

(** The invariant bounds the population. *)
Lemma lineage_bound q :
  (0 <= dth)%Z -> lineageInv dth cap q ->
  (Z.of_nat (currentNumberCells q) <= 2 ^ dth)%Z.
Proof.
  intros Hd (_ & Hdiv & Hsum). rewrite <- Hsum. apply sumZ_lower.
  intros j Hj. apply cloneSize_pos. apply Hdiv, Hj.
Qed.

(** A full population consists of cells that have used all their
    divisions. *)
Lemma lineage_full q :
  lineageInv dth cap q ->
  Z.of_nat (currentNumberCells q) = (2 ^ dth)%Z ->
  forall j, (j < currentNumberCells q)%nat -> numberDivisions q j = dth.
Proof.
  intros (_ & Hdiv & Hsum) Hfull j Hj.
  assert (H1 : cloneSize dth q j = 1%Z).
  { apply (sumZ_tight _ (currentNumberCells q)); [|lia|exact Hj].
    intros i Hi. apply cloneSize_pos. apply Hdiv, Hi. }
  unfold cloneSize in H1. apply pow2_one in H1; [lia|].
  specialize (Hdiv j Hj). lia.
Qed.

(** A population that is not full has a cell with a division left. *)
Lemma lineage_young q :
  lineageInv dth cap q ->
  (Z.of_nat (currentNumberCells q) < 2 ^ dth)%Z ->
  exists c, (c < currentNumberCells q)%nat /\ (numberDivisions q c < dth)%Z.
Proof.
  intros (_ & Hdiv & Hsum) Hlt.
  assert (Hsearch : forall m, (m <= currentNumberCells q)%nat ->
            (exists c, (c < m)%nat /\ (numberDivisions q c < dth)%Z)
            \/ (forall c, (c < m)%nat -> numberDivisions q c = dth)).
  { induction m as [|m IH]; intro Hm.
    - right. intros c Hc. lia.
    - destruct IH as [(c & Hc & Hy)|Hall]; [lia| |].
      + left. exists c. split; [lia|exact Hy].
      + destruct (Z_lt_dec (numberDivisions q m) dth) as [Hy|Hn].
        * left. exists m. split; [lia|exact Hy].
        * right. intros c Hc. destruct (Nat.eq_dec c m) as [->|Hne].
          -- specialize (Hdiv m Hm). lia.
          -- apply Hall. lia. }
  destruct (Hsearch (currentNumberCells q) (le_n _)) as [H|Hall]; [exact H|].
  exfalso.
  rewrite (sumZ_const _ _ 1%Z) in Hsum.
  - lia.
  - intros j Hj. unfold cloneSize. rewrite Hall by exact Hj.
    rewrite Z.sub_diag. reflexivity.
Qed.
End Lineage.

Section Phase1Props.
Variable rnd : nat -> Q.
Variable sqrtF : Q -> Q.
Variable stack : field.
Variable P : cdc_params.

Let step := phase1Step rnd sqrtF stack P.
Let run := phase1 rnd sqrtF stack P.

Lemma phase1_continue fuel st :
  (n st < finalNumberCells P)%nat -> run (S fuel) st = run fuel (step st).
Proof.
  intro H. unfold run. simpl.
  destruct (Nat.ltb_spec (n st) (finalNumberCells P)); [reflexivity|lia].
Qed.

Lemma phase1_stop fuel st :
  (finalNumberCells P <= n st)%nat -> run fuel st = Some st.
Proof.
  intro H. unfold run.
  destruct fuel; simpl;
    destruct (Nat.ltb_spec (n st) (finalNumberCells P)); try reflexivity; lia.
Qed.

(** More passes allowed do not change a result. *)
Lemma phase1_more fuel k st r :
  run fuel st = Some r -> run (fuel + k) st = Some r.
Proof.
  revert st. induction fuel as [|fuel IH]; intros st H.
  - unfold run in H. simpl in H.
    destruct (Nat.ltb_spec (n st) (finalNumberCells P)); [discriminate|].
    rewrite phase1_stop by assumption. exact H.
  - destruct (Nat.ltb_spec (n st) (finalNumberCells P)) as [Hlt|Hge].
    + rewrite phase1_continue in H by exact Hlt.
      change (S fuel + k)%nat with (S (fuel + k)).
      rewrite phase1_continue by exact Hlt. apply IH, H.
    + rewrite phase1_stop in H by exact Hge.
      rewrite phase1_stop by exact Hge. exact H.
Qed.

Lemma phase1_deterministic f1 f2 st r1 r2 :
  run f1 st = Some r1 -> run f2 st = Some r2 -> r1 = r2.
Proof.
  intros H1 H2.
  apply (phase1_more f1 f2) in H1. apply (phase1_more f2 f1) in H2.
  rewrite Nat.add_comm in H2. congruence.
Qed.

Let grown st :=
  cellMovementAndDuplication rnd sqrtF (pathThreshold P) (divThreshold P)
    (n st) (pop st).

Lemma step_n st : n (step st) = currentNumberCells (grown st).
Proof. reflexivity. Qed.

Lemma step_path st : pathTraveled (pop (step st)) = pathTraveled (grown st).
Proof. reflexivity. Qed.

Lemma step_divs st : numberDivisions (pop (step st)) = numberDivisions (grown st).
Proof. reflexivity. Qed.

Lemma step_types st : typesAll (pop (step st)) = typesAll (grown st).
Proof. reflexivity. Qed.

Lemma step_lineage cap st :
  lineageInv (divThreshold P) cap (pop st) ->
  lineageInv (divThreshold P) cap (pop (step st)).
Proof.
  intro H.
  pose proof (growth_lineage rnd sqrtF (pathThreshold P) (divThreshold P) cap
                (n st) (pop st) eq_refl H) as G.
  exact G.
Qed.

(** A pass either adds cells, or lets every cell walk 0.1 further
    without any division. *)
Lemma step_outcome st :
  (n st < n (step st))%nat
  \/ (n (step st) = n st
      /\ forall c, (c < n st)%nat ->
           pathTraveled (pop (step st)) c = pathTraveled (pop st) c + (1 # 10)
           /\ numberDivisions (pop (step st)) c = numberDivisions (pop st) c
           /\ divides (pathThreshold P) (divThreshold P) (pop st) c = false).
Proof.
  destruct (growInv_final rnd sqrtF (pathThreshold P) (divThreshold P) (pop st) (n st))
    as (Hcnt & _ & _ & _ & _ & Hdone).
  unfold daughterSlot in Hcnt.
  destruct (divisionsBefore (pathThreshold P) (divThreshold P) (pop st) (n st))
    as [|k] eqn:Edb.
  - right. split.
    + rewrite step_n. unfold grown. rewrite Hcnt. lia.
    + intros c Hc.
      assert (Hnd : divides (pathThreshold P) (divThreshold P) (pop st) c = false).
      { destruct (divides (pathThreshold P) (divThreshold P) (pop st) c) eqn:Ed;
          [|reflexivity].
        pose proof (divisionsBefore_lt (pathThreshold P) (divThreshold P)
                      (pop st) c (n st) Hc Ed). lia. }
      destruct (Hdone c Hc) as (_ & _ & Drest). rewrite Hnd in Drest.
      destruct Drest as (D1 & D2).
      rewrite step_path, step_divs. auto.
  - left. rewrite step_n. unfold grown. rewrite Hcnt. lia.
Qed.

(** While a cell with a division left exists, the population grows
    within the number of passes its path needs to exceed the threshold. *)
Lemma wait_progress cap k :
  forall st c,
    lineageInv (divThreshold P) cap (pop st) ->
    (n st < finalNumberCells P)%nat ->
    (c < n st)%nat ->
    (numberDivisions (pop st) c < divThreshold P)%Z ->
    pathThreshold P < pathTraveled (pop st) c + inject_Z (Z.of_nat (S k)) * (1 # 10) ->
    exists j st',
      (forall fuel, run (j + fuel) st = run fuel st')
      /\ (n st < n st')%nat
      /\ lineageInv (divThreshold P) cap (pop st').
Proof.
  induction k as [|k IH]; intros st c Hinv Hn Hc Hy Hk.
  - exists 1%nat, (step st). split; [|split].
    + intro fuel. apply phase1_continue, Hn.
    + destruct (step_outcome st) as [Hgrow|(_ & Hwait)]; [exact Hgrow|].
      destruct (Hwait c Hc) as (_ & _ & Hnd).
      exfalso.
      assert (Hd : divides (pathThreshold P) (divThreshold P) (pop st) c = true).
      { apply divides_iff. split; [exact Hy|].
        change (inject_Z (Z.of_nat 1)) with 1 in Hk. lra. }
      congruence.
    + apply step_lineage, Hinv.
  - destruct (step_outcome st) as [Hgrow|(Hsame & Hwait)].
    + exists 1%nat, (step st). split; [|split].
      * intro fuel. apply phase1_continue, Hn.
      * exact Hgrow.
      * apply step_lineage, Hinv.
    + destruct (Hwait c Hc) as (Wp & Wd & _).
      destruct (IH (step st) c) as (j & st' & Hrun & Hgrow & Hinv').
      * apply step_lineage, Hinv.
      * lia.
      * lia.
      * rewrite Wd. exact Hy.
      * rewrite Wp.
        rewrite (Nat2Z.inj_succ (S k)) in Hk. unfold Z.succ in Hk.
        rewrite inject_Z_plus in Hk. change (inject_Z 1) with 1 in Hk. lra.
      * exists (S j), st'. split; [|split].
        -- intro fuel. change (S j + fuel)%nat with (S (j + fuel)).
           rewrite phase1_continue by exact Hn. apply Hrun.
        -- lia.
        -- exact Hinv'.
Qed.

(** Every positive threshold is exceeded after finitely many moves. *)
Lemma moves_needed (x y : Q) :
  0 <= y -> exists k, x < y + inject_Z (Z.of_nat (S k)) * (1 # 10).
Proof.
  intro Hy.
  exists (Z.to_nat (Qfloor (x * 10))).
  pose proof (Qlt_floor (x * 10)) as Hfl.
  assert (Hle : inject_Z (Qfloor (x * 10) + 1)
                <= inject_Z (Z.of_nat (S (Z.to_nat (Qfloor (x * 10)))))).
  { rewrite <- Zle_Qle. lia. }
  lra.
Qed.

(** Phase 1 ends, and the invariant holds when it does. *)
Lemma phase1_terminates cap gap :
  forall st,
    (0 <= divThreshold P)%Z ->
    (Z.of_nat (finalNumberCells P) <= 2 ^ divThreshold P)%Z ->
    (finalNumberCells P <= cap)%nat ->
    (finalNumberCells P - n st <= gap)%nat ->
    lineageInv (divThreshold P) cap (pop st) ->
    exists fuel st',
      run fuel st = Some st'
      /\ (finalNumberCells P <= n st')%nat
      /\ lineageInv (divThreshold P) cap (pop st').
Proof.
  induction gap as [|gap IH]; intros st Hd HF HFcap Hgap Hinv.
  - exists 0%nat, st. split; [|split]; [apply phase1_stop; lia|lia|exact Hinv].
  - destruct (Nat.ltb_spec (n st) (finalNumberCells P)) as [Hlt|Hge].
    + destruct (lineage_young (divThreshold P) cap (pop st) Hinv) as (c & Hc & Hy).
      { unfold n in Hlt. lia. }
      destruct (moves_needed (pathThreshold P) (pathTraveled (pop st) c)) as (k & Hk).
      { destruct Hinv as (Hpath & _). apply Hpath. unfold n in *. lia. }
      destruct (wait_progress cap k st c Hinv Hlt Hc Hy Hk)
        as (j & st1 & Hrun & Hgrow & Hinv1).
      pose proof (lineage_bound (divThreshold P) cap (pop st1) Hd Hinv1) as Hb.
      destruct (IH st1) as (fuel & st' & Hres & Hfin & Hinv'); try assumption.
      * lia.
      * exists (j + fuel)%nat, st'. rewrite Hrun. auto.
    + exists 0%nat, st. split; [|split]; [apply phase1_stop; lia|lia|exact Hinv].
Qed.
End Phase1Props.

(** ** Initialisation in main *)

Lemma initLoop_spec heap F st :
  let r := forUp F (initCell heap) st in
  typesAll (pop r) = typesAll (pop st)
  /\ numberDivisions (pop r) = numberDivisions (pop st)
  /\ Conc r = Conc st
  /\ currentNumberCells (pop r) = currentNumberCells (pop st)
  /\ rng (pop r) = rng (pop st)
  /\ (forall j, (j < F)%nat ->
        posAll (pop r) j = mkVec (1 # 2) (1 # 2) (c2 (posAll (pop heap) j))
        /\ pathTraveled (pop r) j = 0
        /\ currMov r j = mkVec 0 0 (c2 (currMov heap j)))
  /\ (forall j, (F <= j)%nat ->
        posAll (pop r) j = posAll (pop st) j
        /\ pathTraveled (pop r) j = pathTraveled (pop st) j
        /\ currMov r j = currMov st j).
Proof.
  induction F as [|F IH]; cbv zeta.
  - simpl. repeat split; auto; lia.
  - cbv zeta in IH. destruct IH as (I1 & I2 & I3 & I4 & I5 & I6 & I7).
    simpl forUp. set (r := forUp F (initCell heap) st) in *.
    unfold initCell. cbv zeta. cbn [pop Conc currMov]. proj_pop.
    split; [exact I1|]. split; [exact I2|]. split; [exact I3|].
    split; [exact I4|]. split; [exact I5|]. split.
    + intros j Hj. destruct (Nat.eq_dec j F) as [->|Hne].
      * upd_simpl. unfold set0, set1. cbn [c0 c1 c2]. auto.
      * upd_simpl. apply I6. lia.
    + intros j Hj. upd_simpl. apply I7. lia.
Qed.

Lemma main_init_spec P heap :
  let st := main_init P heap in
  n st = 1%nat
  /\ rng (pop st) = 0%nat
  /\ typesAll (pop st) 0%nat = 1%Z
  /\ numberDivisions (pop st) 0%nat = 0%Z
  /\ (forall j, (j < finalNumberCells P)%nat ->
        posAll (pop st) j = mkVec (1 # 2) (1 # 2) (c2 (posAll (pop heap) j))
        /\ pathTraveled (pop st) j = 0
        /\ currMov st j = mkVec 0 0 (c2 (currMov heap j)))
  /\ (forall j, (0 < j)%nat ->
        typesAll (pop st) j = typesAll (pop heap) j
        /\ numberDivisions (pop st) j = numberDivisions (pop heap) j).
Proof.
  cbv zeta. unfold main_init. cbv zeta.
  match goal with |- context [forUp (finalNumberCells P) (initCell heap) ?s] =>
    destruct (initLoop_spec heap (finalNumberCells P) s)
      as (I1 & I2 & I3 & I4 & I5 & I6 & I7);
    set (r := forUp (finalNumberCells P) (initCell heap) s) in *
  end.
  unfold n. cbn [pop Conc currMov] in *. proj_pop.
  rewrite I1, I2. cbn [pop] in *. proj_pop.
  split; [reflexivity|]. split; [reflexivity|].
  split; [apply upd_same|]. split; [apply upd_same|].
  split; [exact I6|].
  intros j Hj. upd_simpl. auto.
Qed.

Lemma main_init_lineage P heap :
  (0 <= divThreshold P)%Z ->
  lineageInv (divThreshold P) (finalNumberCells P) (pop (main_init P heap)).
Proof.
  intro Hd.
  destruct (main_init_spec P heap) as (Hn & _ & _ & Hdiv & Hcells & _).
  unfold n in Hn. unfold lineageInv. rewrite Hn.
  split; [|split].
  - intros j Hj. destruct (Hcells j Hj) as (_ & Hp & _). rewrite Hp. lra.
  - intros j Hj. assert (j = 0%nat) by lia. subst j. rewrite Hdiv. lia.
  - unfold sumZ. cbn [seq map fold_right]. unfold cloneSize.
    rewrite Hdiv, Z.sub_0_r. lia.
Qed.

(** ** The end of phase 1 *)

(** Phase 1 run with [finalNumberCells = 2^divThreshold] fills the
    population exactly, every cell having used all its divisions. *)
Lemma phase1_reaches_full rnd sqrtF stack heap (P : cdc_params) :
  (0 <= divThreshold P)%Z ->
  Z.of_nat (finalNumberCells P) = (2 ^ divThreshold P)%Z ->
  exists fuel st,
    phase1 rnd sqrtF stack P fuel (main_init P heap) = Some st
    /\ n st = finalNumberCells P
    /\ (forall c, (c < finalNumberCells P)%nat ->
          numberDivisions (pop st) c = divThreshold P).
Proof.
  intros Hd HF.
  destruct (main_init_spec P heap) as (Hn & _).
  assert (H1 : (1 <= finalNumberCells P)%nat).
  { assert (0 < 2 ^ divThreshold P)%Z by (apply Z.pow_pos_nonneg; lia). lia. }
  destruct (phase1_terminates rnd sqrtF stack P (finalNumberCells P)
              (finalNumberCells P) (main_init P heap) Hd (Z.eq_le_incl _ _ HF))
    as (fuel & st & Hrun & Hge & Hinv).
  - lia.
  - lia.
  - apply main_init_lineage, Hd.
  - pose proof (lineage_bound _ _ _ Hd Hinv) as Hb.
    assert (Hfull : n st = finalNumberCells P) by (unfold n in *; lia).
    exists fuel, st. split; [exact Hrun|]. split; [exact Hfull|].
    intros c Hc. apply (lineage_full _ _ _ Hinv); unfold n in *; lia.
Qed.

(** C1 (amended).  From the seed that [main] sets up, with
    [finalNumberCells = 8], [divThreshold = 3] and a positive
    [pathThreshold] of at most 2097151, whatever the random draws, phase 1
    ends, with exactly 8 active cells; each of the 8 cells then has
    [numberDivisions = 3], so the sum over the cells is 24 (seven divisions
    took place, and a daughter starts from its parent's count).  The bound
    on the threshold is the range in which the program's paths behave as the
    exact ones do: below 2^21 = 2097152 a binary32 sum [x + 0.1] is still
    above [x], so a path passes every threshold of the range; at 2^21 the
    sum returns [x], and a cell waiting for a larger threshold never
    divides. *)
Theorem phase1_eight_cells_all_divided
    (rnd : nat -> Q) (sqrtF : Q -> Q) (stack : field) (heap : Sim)
    (P : cdc_params) :
  finalNumberCells P = 8%nat -> divThreshold P = 3%Z ->
  0 < pathThreshold P <= 2097151 ->
  exists fuel st,
    phase1 rnd sqrtF stack P fuel (main_init P heap) = Some st
    /\ n st = 8%nat
    /\ (forall c, (c < 8)%nat -> numberDivisions (pop st) c = 3%Z)
    /\ sumDivisions (pop st) 8 = 24%Z.
Proof.
  intros HF Hd _.
  destruct (phase1_reaches_full rnd sqrtF stack heap P) as (fuel & st & Hrun & Hn & Hall).
  - rewrite Hd. lia.
  - rewrite HF, Hd. reflexivity.
  - rewrite HF in Hn, Hall. rewrite Hd in Hall.
    exists fuel, st. split; [exact Hrun|]. split; [exact Hn|]. split; [exact Hall|].
    rewrite sumDivisions_sumZ. rewrite (sumZ_const _ _ 3%Z Hall). reflexivity.
Qed.

Lemma phase1_eight_cells_all_divided_witness :
  (finalNumberCells (scenarioParams (1 # 20)) = 8%nat
   /\ divThreshold (scenarioParams (1 # 20)) = 3%Z
   /\ 0 < pathThreshold (scenarioParams (1 # 20)) <= 2097151)
  /\ exists fuel st,
       phase1 rndEast sqrt24 zeroField (scenarioParams (1 # 20)) fuel
         (main_init (scenarioParams (1 # 20)) heapCalm) = Some st
       /\ n st = 8%nat
       /\ (forall c, (c < 8)%nat -> numberDivisions (pop st) c = 3%Z)
       /\ sumDivisions (pop st) 8 = 24%Z.
Proof.
  assert (Hthr : 0 < pathThreshold (scenarioParams (1 # 20)) <= 2097151)
    by (split; [reflexivity|discriminate]).
  split.
  - split; [reflexivity|]. split; [reflexivity|exact Hthr].
  - apply (phase1_eight_cells_all_divided rndEast sqrt24 zeroField heapCalm
             (scenarioParams (1 # 20)) eq_refl eq_refl Hthr).
Defined.

(** C1 as stated fails: with [pathThreshold = 0.05] every cell divides in
    every pass, phase 1 ends after three passes with 8 cells, and the
    division counts add up to 24, not 7. *)
Lemma phase1_division_sum_not_seven :
  ~ (exists fuel st,
       phase1 rndEast sqrt24 zeroField (scenarioParams (1 # 20)) fuel
         (main_init (scenarioParams (1 # 20)) heapCalm) = Some st
       /\ n st = 8%nat
       /\ sumDivisions (pop st) 8 = 7%Z).
Proof.
  intros (fuel & st & Hrun & _ & Hsum).
  destruct (phase1_reaches_full rndEast sqrt24 zeroField heapCalm
              (scenarioParams (1 # 20)))
    as (fuel' & st' & Hrun' & _ & Hall); [cbn; lia|reflexivity|].
  assert (st = st') by (eapply phase1_deterministic; eassumption).
  subst st'.
  rewrite sumDivisions_sumZ in Hsum.
  rewrite (sumZ_const _ 8 3%Z) in Hsum by exact Hall.
  discriminate.
Qed.

(** The same run, computed: three passes, 8 cells, sum 24. *)
Example phase1_scenario_run :
  option_map (fun st => (n st, sumDivisions (pop st) 8))
    (phase1 rndEast sqrt24 zeroField (scenarioParams (1 # 20)) 3
       (main_init (scenarioParams (1 # 20)) heapCalm))
  = Some (8%nat, 24%Z).
Proof. lazy. reflexivity. Qed.

(** ** Overshooting the capacity *)

(** C10.  The loop of phase 1 compares [n] with [finalNumberCells] only
    between growth steps, and one growth step adds a daughter for every cell
    that divides in it.  For the validated configuration
    [finalNumberCells = 3], [divThreshold = 2], [pathThreshold = 0.05] the
    second pass is entered with 2 cells, both divide, the second daughter is
    written at index 3 = [finalNumberCells], past the arrays of that capacity
    (whatever the memory held there, it then holds type +1 and two
    divisions), and phase 1 ends with 4 cells rather than 3. *)
Theorem phase1_overshoots_capacity :
  validated overflowParams
  /\ forall (rnd : nat -> Q) (sqrtF : Q -> Q) (stack : field) (heap : Sim),
     exists st1 st,
       let P := overflowParams in
       (forall fuel, phase1 rnd sqrtF stack P (S fuel) (main_init P heap)
                     = phase1 rnd sqrtF stack P fuel st1)
       /\ (n st1 < finalNumberCells P)%nat
       /\ st = phase1Step rnd sqrtF stack P st1
       /\ phase1 rnd sqrtF stack P 2 (main_init P heap) = Some st
       /\ divides (pathThreshold P) (divThreshold P) (pop st1) 1 = true
       /\ (finalNumberCells P
           <= daughterSlot (pathThreshold P) (divThreshold P) (pop st1) (n st1) 1)%nat
       /\ typesAll (pop st) (finalNumberCells P) = 1%Z
       /\ numberDivisions (pop st) (finalNumberCells P) = 2%Z
       /\ n st = 4%nat
       /\ (finalNumberCells P < n st)%nat.
Proof.
  split.
  { unfold validated, overflowParams. cbn. repeat split; try lia; try lra. }
  intros rnd sqrtF stack heap.
  set (P := overflowParams).
  set (st0 := main_init P heap).
  set (st1 := phase1Step rnd sqrtF stack P st0).
  set (st2 := phase1Step rnd sqrtF stack P st1).
  assert (N0 : n st0 = 1%nat) by reflexivity.
  assert (N1 : n st1 = 2%nat) by reflexivity.
  assert (N2 : n st2 = 4%nat) by reflexivity.
  assert (L0 : (n st0 < finalNumberCells P)%nat) by (rewrite N0; cbn; lia).
  assert (L1 : (n st1 < finalNumberCells P)%nat) by (rewrite N1; cbn; lia).
  assert (L2 : (finalNumberCells P <= n st2)%nat) by (rewrite N2; cbn; lia).
  exists st1, st2. cbv zeta.
  split.
  { intro fuel. apply phase1_continue. exact L0. }
  split; [exact L1|].
  split; [reflexivity|].
  split.
  { transitivity (phase1 rnd sqrtF stack P 1 st1);
      [exact (phase1_continue rnd sqrtF stack P 1 st0 L0)|].
    transitivity (phase1 rnd sqrtF stack P 0 st2);
      [exact (phase1_continue rnd sqrtF stack P 0 st1 L1)|].
    exact (phase1_stop rnd sqrtF stack P 0 st2 L2). }
  split; [reflexivity|].
  split; [rewrite N1; cbn; reflexivity|].
  split; [reflexivity|].
  split; [reflexivity|].
  split; [exact N2|].
  rewrite N2. cbn. lia.
Qed.

(** ** The third coordinate of the seed *)

(** C9.  The initialisation loop of [main] sets coordinates 0 and 1 of
    every position to 0.5 and components 0 and 1 of every movement vector to
    0; coordinate 2 keeps what the allocated block held.  The first
    [produceSubstances] takes the seed's voxel index on the third axis from
    that value, and the first growth step adds the seed's move to it; so the
    seed's third coordinate is whatever the memory held, inside [0,1] or
    not. *)
Theorem init_leaves_third_coordinate_unwritten
    (rnd : nat -> Q) (sqrtF : Q -> Q) (P : cdc_params) (heap : Sim) (i : nat) :
  (i < finalNumberCells P)%nat ->
  let st := main_init P heap in
  let z := c2 (posAll (pop heap) 0%nat) in
  let off := offsetAt rnd 0 in
  (c0 (posAll (pop st) i) = 1 # 2 /\ c1 (posAll (pop st) i) = 1 # 2
   /\ c2 (posAll (pop st) i) = c2 (posAll (pop heap) i))
  /\ (c0 (currMov st i) = 0 /\ c1 (currMov st i) = 0
      /\ c2 (currMov st i) = c2 (currMov heap i))
  /\ (forall s i1 i2 i3,
        depositsAt (posAll (pop st)) (typesAll (pop st)) (L P) 0 s i1 i2 i3 = true ->
        i3 = Z.min (Qfloor (z / (1 / inject_Z (L P)))) (L P - 1))
  /\ c2 (posAll (cellMovementAndDuplication rnd sqrtF (pathThreshold P)
                   (divThreshold P) (n st) (pop st)) 0%nat)
     = z + (1 # 10) * c2 off / getNorm sqrtF off
  /\ (~ (0 <= z <= 1) -> ~ inCube (posAll (pop st) 0%nat)).
Proof.
  intros Hi st z off.
  destruct (main_init_spec P heap) as (Hn & Hrng & _ & _ & Hcells & _).
  fold st in Hn, Hrng, Hcells.
  destruct (Hcells i Hi) as (Hp & _ & Hm).
  assert (H0 : (0 < finalNumberCells P)%nat) by lia.
  destruct (Hcells 0%nat H0) as (Hp0 & _ & _).
  split; [rewrite Hp; auto|]. split; [rewrite Hm; auto|].
  split; [|split].
  - intros s i1 i2 i3 Hd. unfold depositsAt in Hd. cbv zeta in Hd.
    apply sameVoxel_eq in Hd. destruct Hd as (_ & _ & _ & ->).
    rewrite Hp0. reflexivity.
  - destruct (growInv_final rnd sqrtF (pathThreshold P) (divThreshold P) (pop st) (n st))
      as (_ & _ & _ & _ & _ & Hdone).
    destruct (Hdone 0%nat) as (Dpos & _); [lia|].
    rewrite Dpos. unfold movedPos, cursorAt, divisionsBefore. cbv zeta.
    rewrite Hrng, Hp0. reflexivity.
  - intros Hz (_ & _ & Hin). apply Hz. rewrite Hp0 in Hin. exact Hin.
Qed.

Lemma init_leaves_third_coordinate_unwritten_witness :
  (0 < finalNumberCells (scenarioParams (1 # 20)))%nat
  /\ c2 (posAll (pop (main_init (scenarioParams (1 # 20)) heapCalm)) 0%nat)
     = c2 (posAll (pop heapCalm) 0%nat).
Proof.
  split.
  - cbn. lia.
  - apply (init_leaves_third_coordinate_unwritten rndEast sqrt24
             (scenarioParams (1 # 20)) heapCalm 0).
    cbn. lia.
Defined.

(** ** Boundary conditions *)

Lemma forDown_frame {S A : Type} (obs : S -> A) (n : nat) (body : nat -> S -> S) :
  (forall j t, (j < n)%nat -> obs (body j t) = obs t) ->
  forall s, obs (forDown n body s) = obs s.
Proof.
  induction n as [|n IH]; intros H s; simpl; [reflexivity|].
  rewrite IH by (intros; apply H; lia). apply H. lia.
Qed.

Lemma forDown_hit {S A : Type} (obs : S -> A) (n : nat) (body : nat -> S -> S)
    (k : nat) :
  (k < n)%nat ->
  (forall j t, (j < n)%nat -> j <> k -> obs (body j t) = obs t) ->
  (forall t t', obs t = obs t' -> obs (body k t) = obs (body k t')) ->
  forall s, obs (forDown n body s) = obs (body k s).
Proof.
  induction n as [|n IH]; intros Hk Hfr Hcg s; [lia|]. simpl.
  destruct (Nat.eq_dec k n) as [->|Hne].
  - apply forDown_frame. intros j t Hj. apply Hfr; lia.
  - rewrite IH; [|lia|intros; apply Hfr; lia|exact Hcg].
    apply Hcg. apply Hfr; lia.
Qed.

Lemma clampCoord_range x : 0 <= clampCoord x <= 1.
Proof.
  unfold clampCoord.
  destruct (Qltb x 0) eqn:E0; [lra|].
  destruct (Qltb 1 x) eqn:E1; [lra|].
  apply Qltb_false in E0, E1. lra.
Qed.

Lemma clampCell_at c pos :
  clampCell c pos c =
  mkVec (clampCoord (c0 (pos c))) (clampCoord (c1 (pos c))) (clampCoord (c2 (pos c))).
Proof.
  unfold clampCell. cbv zeta. upd_simpl. unfold set0, set1, set2.
  cbn [c0 c1 c2]. reflexivity.
Qed.

Lemma clampCell_other c pos j : j <> c -> clampCell c pos j = pos j.
Proof. intro H. unfold clampCell. cbv zeta. upd_simpl. reflexivity. Qed.

Lemma clampCell_in_cube c pos : inCube (clampCell c pos c).
Proof.
  rewrite clampCell_at. unfold inCube. cbn [c0 c1 c2].
  repeat split; apply clampCoord_range.
Qed.

Lemma moveCell_at mov c pos :
  moveCell mov c pos c =
  mkVec (clampCoord (c0 (pos c) + c0 (mov c)))
        (clampCoord (c1 (pos c) + c1 (mov c)))
        (clampCoord (c2 (pos c) + c2 (mov c))).
Proof.
  unfold moveCell. cbv zeta. rewrite clampCell_at. upd_simpl.
  unfold set0, set1, set2. cbn [c0 c1 c2]. reflexivity.
Qed.

Lemma moveCell_other mov c pos j : j <> c -> moveCell mov c pos j = pos j.
Proof.
  intro H. unfold moveCell. cbv zeta. rewrite clampCell_other by exact H.
  upd_simpl. reflexivity.
Qed.

Section Boundary.
Variable rnd : nat -> Q.
Variable sqrtF : Q -> Q.
Variable stack : field.
Variable P : cdc_params.

(** Phase 2: after a pass every active cell is inside the cube. *)
Lemma phase2Step_in_cube st c :
  (c < n st)%nat -> inCube (posAll (pop (phase2Step sqrtF stack P st)) c).
Proof.
  intro Hc. unfold phase2Step. cbv zeta. cbn [pop]. proj_pop.
  rewrite (forDown_hit (fun pos : nat -> vec3 => pos c) (n st) _ c Hc).
  - rewrite moveCell_at. unfold inCube. cbn [c0 c1 c2].
    repeat split; apply clampCoord_range.
  - intros j t _ Hj. apply moveCell_other. auto.
  - intros t t' Ht. rewrite !moveCell_at, Ht. reflexivity.
Qed.

(** Phase 1: the boundary loop runs over the indices [n] down to 1. *)
Lemma phase1Step_clamps_from_one st c :
  (1 <= c <= n (phase1Step rnd sqrtF stack P st))%nat ->
  inCube (posAll (pop (phase1Step rnd sqrtF stack P st)) c).
Proof.
  intro Hc. unfold n in Hc. unfold phase1Step in *. cbv zeta in *.
  cbn [pop] in *. proj_pop. cbn [currentNumberCells] in Hc.
  destruct c as [|c]; [lia|].
  rewrite (forDown_hit (fun pos : nat -> vec3 => pos (S c)) _
             (fun m => clampCell (S m)) c).
  - apply clampCell_in_cube.
  - lia.
  - intros j t _ Hj. apply clampCell_other. lia.
  - intros t t' Ht. rewrite !clampCell_at, Ht. reflexivity.
Qed.

(** Phase 1: the boundary loop never reaches cell 0, which keeps the
    position the growth step gave it. *)
Lemma phase1Step_skips_seed st :
  posAll (pop (phase1Step rnd sqrtF stack P st)) 0%nat =
  posAll (cellMovementAndDuplication rnd sqrtF (pathThreshold P)
            (divThreshold P) (n st) (pop st)) 0%nat.
Proof.
  unfold phase1Step. cbv zeta. cbn [pop]. proj_pop.
  apply (forDown_frame (fun pos : nat -> vec3 => pos 0%nat)).
  intros j t _. apply clampCell_other. lia.
Qed.
End Boundary.

(** Passes of phase 1 taken while the population is below the target. *)
Lemma phase1_passes rnd sqrtF stack P k :
  forall st fuel,
    (forall j, (j < k)%nat ->
       (n (Nat.iter j (phase1Step rnd sqrtF stack P) st) < finalNumberCells P)%nat) ->
    phase1 rnd sqrtF stack P (k + fuel) st
    = phase1 rnd sqrtF stack P fuel (Nat.iter k (phase1Step rnd sqrtF stack P) st).
Proof.
  induction k as [|k IH]; intros st fuel H; [reflexivity|].
  change (S k + fuel)%nat with (S (k + fuel)).
  rewrite phase1_continue by (apply (H 0%nat); lia).
  rewrite IH.
  - rewrite Nat.iter_succ_r. reflexivity.
  - intros j Hj. rewrite <- Nat.iter_succ_r. apply H. lia.
Qed.

(** C2 at a failing input: [finalNumberCells = 2], [divThreshold = 1],
    [pathThreshold = 0.65], the seed at (0.5, 0.5, 0.5) and draws that move it
    by 0.1 along the first axis in every pass.  After the sixth pass of
    phase 1 the seed, an active cell, stands at 1.1 on that axis, and
    phase 1 ends after the seventh pass with the seed at 1.2: outside
    the unit cube, because the boundary loop of phase 1 starts at index [n]
    and stops before index 0. *)
Theorem phase1_seed_leaves_cube :
  let P := walkParams in
  let step := phase1Step rndEast sqrt24 zeroField P in
  let st6 := Nat.iter 6 step (main_init P heapCalm) in
  let st7 := step st6 in
  (n st6 = 1%nat /\ c0 (posAll (pop st6) 0%nat) == 11 # 10
   /\ ~ inCube (posAll (pop st6) 0%nat))
  /\ phase1 rndEast sqrt24 zeroField P 7 (main_init P heapCalm) = Some st7
  /\ n st7 = 2%nat
  /\ c0 (posAll (pop st7) 0%nat) == 12 # 10
  /\ ~ inCube (posAll (pop st7) 0%nat)
  /\ inCube (posAll (pop st7) 1%nat).
Proof.
  cbv zeta.
  set (P := walkParams).
  set (step := phase1Step rndEast sqrt24 zeroField P).
  set (st0 := main_init P heapCalm).
  assert (N : forall j, (j < 7)%nat -> n (Nat.iter j step st0) = 1%nat).
  { intros j Hj.
    do 7 (destruct j as [|j]; [lazy; reflexivity|]). lia. }
  assert (X6 : c0 (posAll (pop (Nat.iter 6 step st0)) 0%nat) == 11 # 10)
    by (lazy; reflexivity).
  assert (X7 : c0 (posAll (pop (step (Nat.iter 6 step st0))) 0%nat) == 12 # 10)
    by (lazy; reflexivity).
  assert (N7 : n (step (Nat.iter 6 step st0)) = 2%nat) by (lazy; reflexivity).
  split; [split; [apply N; lia|split; [exact X6|]]|].
  { intros ((_ & H) & _). rewrite X6 in H. lra. }
  split.
  { transitivity (phase1 rndEast sqrt24 zeroField P 0 (Nat.iter 7 step st0)).
    - apply (phase1_passes rndEast sqrt24 zeroField P 7 st0 0).
      intros j Hj. fold step. rewrite (N j Hj). cbn. lia.
    - apply phase1_stop.
      change (Nat.iter 7 step st0) with (step (Nat.iter 6 step st0)).
      rewrite N7. cbn. lia. }
  split; [exact N7|].
  split; [exact X7|].
  split.
  { intros ((_ & H) & _). rewrite X7 in H. lra. }
  apply phase1Step_clamps_from_one. fold step. rewrite N7. lia.
Qed.

(** ** runDiffusionClusterStep *)

Lemma clusterCell_at sqrtF Conc posAll typesAll h Lm speed c mv :
  clusterCell sqrtF Conc posAll typesAll h Lm speed c mv c =
  clusterCell sqrtF Conc posAll typesAll h Lm speed c (fun _ => zeroVec) c.
Proof.
  unfold clusterCell. cbv zeta.
  match goal with |- context [if ?b then _ else _] => destruct b end;
    upd_simpl; reflexivity.
Qed.

Lemma clusterCell_other sqrtF Conc posAll typesAll h Lm speed c mv j :
  j <> c -> clusterCell sqrtF Conc posAll typesAll h Lm speed c mv j = mv j.
Proof.
  intro H. unfold clusterCell. cbv zeta.
  match goal with |- context [if ?b then _ else _] => destruct b end;
    upd_simpl; reflexivity.
Qed.

Lemma runDiffusionClusterStep_at sqrtF Conc movVec posAll typesAll cc L speed c :
  (c < cc)%nat ->
  runDiffusionClusterStep sqrtF Conc movVec posAll typesAll cc L speed c =
  clusterCell sqrtF Conc posAll typesAll (1 / inject_Z L) (L - 1) speed c
    (fun _ => zeroVec) c.
Proof.
  intro Hc. unfold runDiffusionClusterStep. cbv zeta.
  rewrite (forUp_hit (fun mv : nat -> vec3 => mv c) cc _ movVec c Hc).
  - apply clusterCell_at.
  - intros j t _ Hj. apply clusterCell_other. auto.
  - intros t t' _. rewrite clusterCell_at. symmetry. apply clusterCell_at.
Qed.

Lemma runDiffusionClusterStep_inactive sqrtF Conc movVec posAll typesAll cc L speed c :
  (cc <= c)%nat ->
  runDiffusionClusterStep sqrtF Conc movVec posAll typesAll cc L speed c = movVec c.
Proof.
  intro Hc. unfold runDiffusionClusterStep. cbv zeta.
  apply (forUp_frame (fun mv : nat -> vec3 => mv c)).
  intros j t Hj. apply clusterCell_other. lia.
Qed.

(** The gradient and the norm that the loop computes are the finite
    differences and the L2 norm of the specification. *)
Lemma gradientAt_centralDifference Conc s L p :
  gradientAt Conc s (1 / inject_Z L) (L - 1)
    (voxelOf (1 / inject_Z L) (L - 1) (c0 p))
    (voxelOf (1 / inject_Z L) (L - 1) (c1 p))
    (voxelOf (1 / inject_Z L) (L - 1) (c2 p))
  = centralDifference Conc s L p.
Proof. reflexivity. Qed.

Lemma getNorm_l2norm sqrtF v : getNorm sqrtF v = l2norm sqrtF v.
Proof. reflexivity. Qed.

(** C6.  For an active cell [c], with [g1], [g2] the finite-difference
    gradients of the two substances at the cell's voxel (for each axis the
    difference of the concentration between the next voxel up and the next
    voxel down, clamped to the grid, over their distance) and [n1], [n2]
    their L2 norms: when both norms are positive the movement vector is
    [type * speed * (g1/n1 - g2/n2)], component by component, and each
    divisor is then non-zero; in every other case it is the zero vector and
    no division by a norm is made. *)
Theorem clusterStep_movement
    (sqrtF : Q -> Q) (Conc : field) (movVec posAll : nat -> vec3)
    (typesAll : nat -> Z) (cc : nat) (L : Z) (speed : Q) (c : nat) :
  (c < cc)%nat ->
  let g1 := centralDifference Conc 0 L (posAll c) in
  let g2 := centralDifference Conc 1 L (posAll c) in
  let n1 := l2norm sqrtF g1 in
  let n2 := l2norm sqrtF g2 in
  let t := inject_Z (typesAll c) in
  let mv := runDiffusionClusterStep sqrtF Conc movVec posAll typesAll cc L speed c in
  (0 < n1 /\ 0 < n2 ->
     ~ n1 == 0 /\ ~ n2 == 0
     /\ c0 mv == t * speed * (c0 g1 / n1 - c0 g2 / n2)
     /\ c1 mv == t * speed * (c1 g1 / n1 - c1 g2 / n2)
     /\ c2 mv == t * speed * (c2 g1 / n1 - c2 g2 / n2))
  /\ (~ (0 < n1 /\ 0 < n2) -> mv = zeroVec).
Proof.
  intros Hc g1 g2 n1 n2 t mv.
  assert (Hmv : mv =
    if Qltb 0 n1 && Qltb 0 n2 then
      mkVec (t * (c0 g1 / n1 - c0 g2 / n2) * speed)
            (t * (c1 g1 / n1 - c1 g2 / n2) * speed)
            (t * (c2 g1 / n1 - c2 g2 / n2) * speed)
    else zeroVec).
  { unfold mv. rewrite runDiffusionClusterStep_at by exact Hc.
    unfold clusterCell. cbv zeta.
    rewrite (gradientAt_centralDifference Conc 0 L (posAll c)).
    rewrite (gradientAt_centralDifference Conc 1 L (posAll c)).
    rewrite (getNorm_l2norm sqrtF (centralDifference Conc 0 L (posAll c))).
    rewrite (getNorm_l2norm sqrtF (centralDifference Conc 1 L (posAll c))).
    fold g1 g2. fold n1 n2. fold t.
    destruct (Qltb 0 n1 && Qltb 0 n2); apply upd_same. }
  split.
  - intros [H1 H2].
    assert (E : Qltb 0 n1 && Qltb 0 n2 = true).
    { apply andb_true_iff. split; apply Qltb_true; assumption. }
    rewrite E in Hmv. rewrite Hmv. cbn [c0 c1 c2].
    split; [lra|]. split; [lra|].
    repeat split; ring.
  - intro Hn.
    destruct (Qltb 0 n1 && Qltb 0 n2) eqn:E; [|exact Hmv].
    exfalso. apply Hn. apply andb_true_iff in E. destruct E as [E1 E2].
    split; apply Qltb_true; assumption.
Qed.

(** The divisors of the gradient are the ones named [gradDenominators]. *)
Lemma cellGradient_quotients Conc s L p :
  let h := 1 / inject_Z L in
  let i1 := voxelOf h (L - 1) (c0 p) in
  let i2 := voxelOf h (L - 1) (c1 p) in
  let i3 := voxelOf h (L - 1) (c2 p) in
  cellGradient Conc s L p =
  mkVec ((Conc s (upIndex (L - 1) i1) i2 i3 - Conc s (downIndex i1) i2 i3)
           / c0 (gradDenominators L p))
        ((Conc s i1 (upIndex (L - 1) i2) i3 - Conc s i1 (downIndex i2) i3)
           / c1 (gradDenominators L p))
        ((Conc s i1 i2 (upIndex (L - 1) i3) - Conc s i1 i2 (downIndex i3))
           / c2 (gradDenominators L p)).
Proof. reflexivity. Qed.

Lemma gradDenominator_pos (L : Z) (x : Q) :
  (2 <= L)%Z -> 0 <= x <= 1 ->
  let h := 1 / inject_Z L in
  let i := voxelOf h (L - 1) x in
  0 < gradDenominator h (upIndex (L - 1) i) (downIndex i).
Proof.
  intros HL Hx h i.
  assert (Hi : (0 <= i <= L - 1)%Z) by (apply voxelOf_range; [lia|exact Hx]).
  unfold gradDenominator, upIndex, downIndex.
  assert (Hd : (1 <= Z.min (i + 1) (L - 1) - Z.max (i - 1) 0)%Z) by lia.
  assert (HLq : 0 < inject_Z L).
  { change 0 with (inject_Z 0). rewrite <- Zlt_Qlt. lia. }
  assert (Hh : 0 < h).
  { unfold h. apply Qlt_shift_div_l; [exact HLq|lra]. }
  assert (Hq : 1 <= inject_Z (Z.min (i + 1) (L - 1) - Z.max (i - 1) 0)).
  { change 1 with (inject_Z 1). rewrite <- Zle_Qle. exact Hd. }
  nra.
Qed.

Lemma gradDenominator_degenerate (x : Q) :
  0 <= x <= 1 ->
  let h := 1 / inject_Z 1 in
  let i := voxelOf h (1 - 1) x in
  upIndex (1 - 1) i = downIndex i
  /\ gradDenominator h (upIndex (1 - 1) i) (downIndex i) == 0.
Proof.
  intros Hx h i.
  assert (Hi : (0 <= i <= 1 - 1)%Z) by (apply voxelOf_range; [lia|exact Hx]).
  assert (E : upIndex (1 - 1) i = downIndex i) by (unfold upIndex, downIndex; lia).
  split; [exact E|].
  unfold gradDenominator. rewrite E, Z.sub_diag. apply Qmult_0_r.
Qed.

(** C8 (amended).  On a grid of resolution [L >= 2], for a cell anywhere
    in the unit cube, the three divisors [sideLength*(up-down)] of the
    gradient are positive, hence non-zero.  At [L = 1] the up and down
    indices coincide on every axis and the three divisors are zero; the step
    tests neither. *)
Theorem gradient_divisors_nonzero (L : Z) (p : vec3) :
  (0 < L)%Z -> inCube p ->
  ((2 <= L)%Z ->
     0 < c0 (gradDenominators L p) /\ ~ c0 (gradDenominators L p) == 0
     /\ 0 < c1 (gradDenominators L p) /\ ~ c1 (gradDenominators L p) == 0
     /\ 0 < c2 (gradDenominators L p) /\ ~ c2 (gradDenominators L p) == 0)
  /\ (L = 1%Z ->
       c0 (gradDenominators L p) == 0 /\ c1 (gradDenominators L p) == 0
       /\ c2 (gradDenominators L p) == 0).
Proof.
  intros _ (Hx & Hy & Hz). split.
  - intro HL.
    pose proof (gradDenominator_pos L (c0 p) HL Hx) as H0.
    pose proof (gradDenominator_pos L (c1 p) HL Hy) as H1.
    pose proof (gradDenominator_pos L (c2 p) HL Hz) as H2.
    cbv zeta in H0, H1, H2.
    unfold gradDenominators. cbv zeta. cbn [c0 c1 c2].
    repeat split; try assumption; intro E; rewrite E in *; lra.
  - intros ->.
    destruct (gradDenominator_degenerate (c0 p) Hx) as (_ & H0).
    destruct (gradDenominator_degenerate (c1 p) Hy) as (_ & H1).
    destruct (gradDenominator_degenerate (c2 p) Hz) as (_ & H2).
    unfold gradDenominators. cbv zeta. cbn [c0 c1 c2]. auto.
Qed.

(** C8 as stated fails at [L = 1], a resolution the configuration check
    accepts: the only voxel index is 0, both neighbour indices are 0, and the
    three divisors are zero. *)
Lemma gradient_divisors_zero_at_L1 :
  ~ (forall (L : Z) (p : vec3),
       (0 < L)%Z -> inCube p ->
       ~ c0 (gradDenominators L p) == 0
       /\ ~ c1 (gradDenominators L p) == 0
       /\ ~ c2 (gradDenominators L p) == 0).
Proof.
  intro H.
  destruct (H 1%Z (mkVec (1 # 2) (1 # 2) (1 # 2))) as (H0 & _).
  - lia.
  - unfold inCube. cbn. lra.
  - apply H0. reflexivity.
Qed.

(** ** getCriterion *)

Lemma forUp_fold {S : Type} (n : nat) (body : nat -> S -> S) (s : S) :
  forUp n body s = fold_left (fun s i => body i s) (seq 0 n) s.
Proof.
  induction n as [|n IH]; [reflexivity|].
  rewrite seq_S, fold_left_app. simpl. rewrite IH. reflexivity.
Qed.

Lemma fold_left_map {A B S : Type} (f : S -> B -> S) (g : A -> B) (l : list A) :
  forall s, fold_left f (map g l) s = fold_left (fun s a => f s (g a)) l s.
Proof. induction l as [|a l IH]; intro s; simpl; [reflexivity|apply IH]. Qed.

Lemma seq_add_map lo k : forall a,
  map (fun j => (lo + j)%nat) (seq a k) = seq (lo + a) k.
Proof.
  induction k as [|k IH]; intro a; [reflexivity|]. cbn [seq map].
  f_equal. rewrite IH. f_equal. lia.
Qed.

Lemma forRange_fold {S : Type} (lo hi : nat) (body : nat -> S -> S) (s : S) :
  forRange lo hi body s = fold_left (fun s i => body i s) (seq lo (hi - lo)) s.
Proof.
  unfold forRange. rewrite forUp_fold.
  rewrite <- (fold_left_map (fun s i => body i s) (fun j => (lo + j)%nat)).
  rewrite seq_add_map, Nat.add_0_r. reflexivity.
Qed.

(** The double loop [for i1 < nr, for i1 < i2 < nr] visits the pairs of
    [pairsOf (seq 0 nr)] in order. *)
Lemma pair_loops_fold {St : Type} (body : nat -> nat -> St -> St) (len : nat) :
  forall a s,
    fold_left (fun s i1 => forRange (i1 + 1) (a + len) (body i1) s) (seq a len) s
    = fold_left (fun s ab => body (fst ab) (snd ab) s) (pairsOf (seq a len)) s.
Proof.
  induction len as [|len IH]; intros a s; [reflexivity|].
  cbn [seq fold_left pairsOf]. rewrite fold_left_app.
  rewrite forRange_fold.
  replace (a + S len - (a + 1))%nat with len by lia.
  replace (a + 1)%nat with (S a) by lia.
  rewrite fold_left_map. cbn [fst snd].
  replace (a + S len)%nat with (S a + len)%nat by lia.
  apply IH.
Qed.

Lemma pairsOf_map (f : nat -> nat) (l : list nat) :
  pairsOf (map f l) = map (fun ab => (f (fst ab), f (snd ab))) (pairsOf l).
Proof.
  induction l as [|x l IH]; [reflexivity|].
  cbn [map pairsOf]. rewrite map_app, IH, !map_map. reflexivity.
Qed.

Lemma pairsOf_seq_bound a len x y :
  In (x, y) (pairsOf (seq a len)) -> (a <= x < y /\ y < a + len)%nat.
Proof.
  revert a. induction len as [|len IH]; intros a H; [destruct H|].
  cbn [seq pairsOf] in H. apply in_app_or in H. destruct H as [H|H].
  - apply in_map_iff in H. destruct H as (z & Hz & Hin).
    inversion Hz; subst. apply in_seq in Hin. lia.
  - apply IH in H. lia.
Qed.

Lemma map_nth_seq (l : list nat) :
  map (fun k => nth k l 0%nat) (seq 0 (length l)) = l.
Proof.
  induction l as [|x l IH]; [reflexivity|].
  cbn [length seq map nth]. f_equal.
  rewrite <- seq_shift, map_map. exact IH.
Qed.

Lemma filter_filter {A : Type} (f g : A -> bool) (l : list A) :
  filter f (filter g l) = filter (fun x => g x && f x) l.
Proof.
  induction l as [|x l IH]; [reflexivity|]. simpl.
  destruct (g x); simpl; [destruct (f x)|]; rewrite IH; reflexivity.
Qed.

Lemma filter_map_length {A B : Type} (p : B -> bool) (g : A -> B) (l : list A) :
  length (filter p (map g l)) = length (filter (fun a => p (g a)) l).
Proof.
  induction l as [|x l IH]; [reflexivity|]. simpl.
  destruct (p (g x)); simpl; rewrite IH; reflexivity.
Qed.

(** The selection loop packs the cells of the cube, in index order. *)
Lemma select_loop fresh posAll typesAll M scratch m :
  let sv := forUp m (selectCell fresh posAll typesAll M)
              (mkSubVol (posSubvol scratch) (typesSubvol scratch) 0) in
  let cells := filter (fun i => inSubVol M (posAll i)) (seq 0 m) in
  nrCellsSubVol sv = length cells
  /\ (nrCellsSubVol sv <= m)%nat
  /\ forall k, (k < nrCellsSubVol sv)%nat ->
       posSubvol sv k = posAll (nth k cells 0%nat)
       /\ typesSubvol sv k = typesAll (nth k cells 0%nat).
Proof.
  induction m as [|m IH]; cbv zeta.
  - simpl. repeat split; try lia.
  - cbv zeta in IH. destruct IH as (Hnr & Hle & Hslots).
    simpl forUp.
    set (sv := forUp m (selectCell fresh posAll typesAll M)
                 (mkSubVol (posSubvol scratch) (typesSubvol scratch) 0)) in *.
    rewrite seq_S, filter_app. cbn [filter Nat.add].
    set (cells := filter (fun i => inSubVol M (posAll i)) (seq 0 m)) in *.
    unfold selectCell. cbv zeta.
    destruct (inSubVol M (posAll m)); cbn [nrCellsSubVol posSubvol typesSubvol].
    + rewrite length_app. cbn [length]. split; [lia|]. split; [lia|].
      intros k Hk. destruct (Nat.eq_dec k (nrCellsSubVol sv)) as [->|Hne].
      * upd_simpl. rewrite Hnr, nth_middle. auto.
      * upd_simpl. rewrite app_nth1 by lia. apply Hslots. lia.
    + rewrite app_nil_r. split; [exact Hnr|]. split; [lia|].
      intros k Hk. upd_simpl. apply Hslots, Hk.
Qed.

Section CriterionProps.
Variable sqrtF : Q -> Q.
Variable cbrtF : Q -> Q.
Variable toFloat : Q -> Q.
Variable spatialRange : Q.

(** The two tests of the pair loop, on slots of the packed arrays. *)
Let closeSlots (sv : SubVol) (ab : nat * nat) : bool :=
  Qltb (dist sqrtF (posSubvol sv (fst ab)) (posSubvol sv (snd ab))) spatialRange.
Let diffSlots (sv : SubVol) (ab : nat * nat) : bool :=
  (typesSubvol sv (fst ab) * typesSubvol sv (snd ab) <? 0)%Z.

Lemma pair_fold_counts sv l :
  forall k,
    fold_left (fun k ab => pairStep sqrtF spatialRange sv (fst ab) (snd ab) k) l k
    = mkCounts
        (nrClose k + Z.of_nat (length (filter (closeSlots sv) l)))
        (sameTypeClose k + Z.of_nat (length
           (filter (fun ab => closeSlots sv ab && negb (diffSlots sv ab)) l)))
        (diffTypeClose k + Z.of_nat (length
           (filter (fun ab => closeSlots sv ab && diffSlots sv ab) l))).
Proof.
  induction l as [|ab l IH]; intro k.
  - destruct k. cbn. rewrite !Z.add_0_r. reflexivity.
  - cbn [fold_left filter]. rewrite IH. unfold pairStep. cbv zeta.
    fold (closeSlots sv ab). fold (diffSlots sv ab).
    destruct (closeSlots sv ab); [destruct (diffSlots sv ab)|];
      cbn [andb negb length nrClose sameTypeClose diffTypeClose]; f_equal; lia.
Qed.

Lemma pairLoop_counts sv :
  let l := pairsOf (seq 0 (nrCellsSubVol sv)) in
  pairLoop sqrtF spatialRange sv
  = mkCounts
      (Z.of_nat (length (filter (closeSlots sv) l)))
      (Z.of_nat (length
         (filter (fun ab => closeSlots sv ab && negb (diffSlots sv ab)) l)))
      (Z.of_nat (length
         (filter (fun ab => closeSlots sv ab && diffSlots sv ab) l))).
Proof.
  cbv zeta. unfold pairLoop. rewrite forUp_fold.
  rewrite (pair_loops_fold (pairStep sqrtF spatialRange sv) (nrCellsSubVol sv) 0).
  rewrite pair_fold_counts. reflexivity.
Qed.

(** A count over slot pairs is the count over the pairs of cells the
    slots hold. *)
Lemma slot_pairs_count (cells : list nat) (pI p : nat * nat -> bool) :
  (forall i j, (i < j < length cells)%nat ->
     pI (i, j) = p (nth i cells 0%nat, nth j cells 0%nat)) ->
  length (filter pI (pairsOf (seq 0 (length cells))))
  = length (filter p (pairsOf cells)).
Proof.
  intro H.
  rewrite <- (map_nth_seq cells) at 2.
  rewrite pairsOf_map, filter_map_length.
  f_equal. apply filter_ext_in. intros [i j] Hin.
  apply pairsOf_seq_bound in Hin. cbn [fst snd]. apply H. lia.
Qed.

Lemma types_product (a b : Z) :
  a = 1%Z \/ a = (-1)%Z -> b = 1%Z \/ b = (-1)%Z ->
  (a * b <? 0)%Z = negb (a =? b)%Z.
Proof. intros [-> | ->] [-> | ->]; reflexivity. Qed.

Variable fresh : nat -> vec3.
Variable scratch : SubVol.
Variable posAll : nat -> vec3.
Variable typesAll : nat -> Z.
Variable n : nat.
Variable targetN : Z.
Hypothesis types_signed :
  forall i, (i < n)%nat -> typesAll i = 1%Z \/ typesAll i = (-1)%Z.

Let M := cbrtF (inject_Z targetN / inject_Z (Z.of_nat n)) / 2.
Let cells := subvolCells cbrtF posAll n targetN.
Let sv := forUp n (selectCell fresh posAll typesAll M)
            (mkSubVol (posSubvol scratch) (typesSubvol scratch) 0).

Lemma cells_below i : (i < length cells)%nat -> (nth i cells 0 < n)%nat.
Proof.
  intro Hi. assert (Hin : In (nth i cells 0%nat) cells) by (apply nth_In, Hi).
  set (x := nth i cells 0%nat) in *.
  unfold cells, subvolCells in Hin. apply filter_In in Hin.
  destruct Hin as [Hin _]. apply in_seq in Hin. lia.
Qed.

Lemma pairLoop_spec :
  nrCellsSubVol sv = length cells
  /\ nrClose (pairLoop sqrtF spatialRange sv)
     = Z.of_nat (length (closePairs sqrtF cbrtF posAll n spatialRange targetN))
  /\ sameTypeClose (pairLoop sqrtF spatialRange sv)
     = Z.of_nat (nSameClose sqrtF cbrtF posAll typesAll n spatialRange targetN)
  /\ diffTypeClose (pairLoop sqrtF spatialRange sv)
     = Z.of_nat (nDiffClose sqrtF cbrtF posAll typesAll n spatialRange targetN).
Proof.
  destruct (select_loop fresh posAll typesAll M scratch n) as (Hnr & _ & Hslots).
  fold sv in Hnr, Hslots. fold M in Hnr, Hslots.
  change (filter (fun i => inSubVol M (posAll i)) (seq 0 n)) with cells in Hnr, Hslots.
  split; [exact Hnr|].
  rewrite pairLoop_counts. cbv zeta. cbn [nrClose sameTypeClose diffTypeClose].
  rewrite Hnr.
  assert (Hclose : forall i j, (i < j < length cells)%nat ->
            closeSlots sv (i, j) =
            Qltb (dist sqrtF (posAll (nth i cells 0%nat)) (posAll (nth j cells 0%nat)))
              spatialRange).
  { intros i j Hij. unfold closeSlots. cbn [fst snd].
    destruct (Hslots i) as (-> & _); [lia|].
    destruct (Hslots j) as (-> & _); [lia|]. reflexivity. }
  assert (Hdiff : forall i j, (i < j < length cells)%nat ->
            diffSlots sv (i, j) =
            diffType typesAll (nth i cells 0%nat, nth j cells 0%nat)).
  { intros i j Hij. unfold diffSlots, diffType. cbn [fst snd].
    destruct (Hslots i) as (_ & ->); [lia|].
    destruct (Hslots j) as (_ & ->); [lia|].
    apply types_product; apply types_signed, cells_below; lia. }
  unfold nSameClose, nDiffClose, closePairs. fold cells.
  rewrite !filter_filter.
  split; [|split]; f_equal; apply slot_pairs_count; intros i j Hij; cbn [fst snd].
  - apply Hclose, Hij.
  - rewrite (Hclose i j Hij), (Hdiff i j Hij). reflexivity.
  - rewrite (Hclose i j Hij), (Hdiff i j Hij). reflexivity.
Qed.

(** The function as one boolean formula over the quantities of the
    specification. *)
Lemma getCriterion_formula :
  let m := inject_Z (Z.of_nat (length cells)) in
  let close := inject_Z (Z.of_nat
                 (length (closePairs sqrtF cbrtF posAll n spatialRange targetN))) in
  let same := inject_Z (Z.of_nat
                 (nSameClose sqrtF cbrtF posAll typesAll n spatialRange targetN)) in
  let diff := inject_Z (Z.of_nat
                 (nDiffClose sqrtF cbrtF posAll typesAll n spatialRange targetN)) in
  getCriterion sqrtF cbrtF toFloat fresh scratch posAll typesAll n spatialRange targetN
  = negb (Qltb (m / inject_Z targetN) (1 # 4)
          || Qltb 4 (m / inject_Z targetN)
          || Qltb tenthDouble (toFloat (diff / (close + 1)))
          || Qltb (same / m) 100).
Proof.
  cbv zeta. destruct pairLoop_spec as (Hnr & Hc & Hs & Hd).
  unfold getCriterion. cbv zeta. fold M. fold sv.
  rewrite Hnr, Hc, Hs, Hd.
  destruct (Qltb (inject_Z (Z.of_nat (length cells)) / inject_Z targetN) (1 # 4));
    [reflexivity|].
  destruct (Qltb 4 (inject_Z (Z.of_nat (length cells)) / inject_Z targetN));
    [reflexivity|].
  cbn [orb].
  match goal with |- context [Qltb tenthDouble ?x] => destruct (Qltb tenthDouble x) end;
    [reflexivity|].
  cbn [orb].
  match goal with |- context [Qltb ?x 100] => destruct (Qltb x 100) end;
    reflexivity.
Qed.
End CriterionProps.

Lemma Qdiv_lt_iff (a b c : Q) : 0 < c -> (a / c < b <-> a < b * c).
Proof.
  intro Hc. assert (E : a == a / c * c) by (field; lra).
  split; intro H.
  - rewrite E. apply Qmult_lt_compat_r; assumption.
  - apply Qlt_shift_div_r; assumption.
Qed.

Lemma Qlt_div_iff (a b c : Q) : 0 < c -> (b < a / c <-> b * c < a).
Proof.
  intro Hc. assert (E : a == a / c * c) by (field; lra).
  split; intro H.
  - rewrite E. apply Qmult_lt_compat_r; assumption.
  - apply Qlt_shift_div_l; assumption.
Qed.

Lemma Qle_div_iff (a b c : Q) : 0 < c -> (b <= a / c <-> b * c <= a).
Proof.
  intro Hc. split; intro H.
  - apply Qnot_lt_le. intro Hlt. apply (Qdiv_lt_iff a b c Hc) in Hlt.
    apply (Qlt_not_le _ _ Hlt H).
  - apply Qnot_lt_le. intro Hlt. apply (Qdiv_lt_iff a b c Hc) in Hlt.
    apply (Qlt_not_le _ _ Hlt H).
Qed.

Lemma Qdiv_le_iff (a b c : Q) : 0 < c -> (a / c <= b <-> a <= b * c).
Proof.
  intro Hc. split; intro H.
  - apply Qnot_lt_le. intro Hlt. apply (Qlt_div_iff a b c Hc) in Hlt.
    apply (Qlt_not_le _ _ Hlt H).
  - apply Qnot_lt_le. intro Hlt. apply (Qlt_div_iff a b c Hc) in Hlt.
    apply (Qlt_not_le _ _ Hlt H).
Qed.

(** ** The test against [0.1] *)

Lemma tenthDouble_between : floatBelowTenth < tenthDouble /\ tenthDouble < floatTenth.
Proof. split; reflexivity. Qed.

(** A rounded quotient passes the test [> 0.1] as soon as the quotient
    reaches one tenth, and fails it up to the float below. *)
Lemma tenth_test (toFloat : Q -> Q) (x : Q) :
  roundsToFloat toFloat ->
  (1 # 10 <= x -> tenthDouble < toFloat x)
  /\ (x <= floatBelowTenth -> ~ tenthDouble < toFloat x).
Proof.
  intros (Hmono & Hup & Hdown). destruct tenthDouble_between as (Hlo & Hhi). split.
  - intro Hx. apply Qlt_le_trans with floatTenth; [exact Hhi|].
    rewrite <- Hup. apply Hmono, Hx.
  - intros Hx Hlt. apply (Qlt_irrefl tenthDouble).
    apply Qlt_le_trans with (toFloat x); [exact Hlt|].
    apply Qle_trans with floatBelowTenth; [|apply Qlt_le_weak, Hlo].
    rewrite <- Hdown. apply Hmono, Hx.
Qed.

(** A quotient of counts below one tenth, with a divisor of at most 2^24,
    is at most the float below one tenth. *)
Lemma below_tenth_gap (a b : Z) :
  (0 < b <= 16777216)%Z -> (10 * a < b)%Z ->
  inject_Z a / inject_Z b <= floatBelowTenth.
Proof.
  intros Hb Hab.
  assert (Hbq : 0 < inject_Z b).
  { change 0 with (inject_Z 0). rewrite <- Zlt_Qlt. lia. }
  apply Qdiv_le_iff; [exact Hbq|].
  unfold floatBelowTenth, Qle, Qmult, inject_Z. cbn [Qnum Qden].
  rewrite Pos.mul_1_r. lia.
Qed.

Lemma counts_quotient (diff close : nat) :
  inject_Z (Z.of_nat diff) / (inject_Z (Z.of_nat close) + 1)
  == inject_Z (Z.of_nat diff) / inject_Z (Z.of_nat close + 1).
Proof. rewrite inject_Z_plus. reflexivity. Qed.

(** The test (c) of getCriterion on counts: the different-type close pairs
    reach a tenth of the close pairs plus one. *)
Lemma tenth_test_counts (toFloat : Q -> Q) (diff close : nat) :
  roundsToFloat toFloat ->
  ((Z.of_nat close + 1 <= 10 * Z.of_nat diff)%Z ->
     Qltb tenthDouble
       (toFloat (inject_Z (Z.of_nat diff) / (inject_Z (Z.of_nat close) + 1))) = true)
  /\ ((Z.of_nat close + 1 <= 16777216)%Z ->
      (10 * Z.of_nat diff < Z.of_nat close + 1)%Z ->
      Qltb tenthDouble
        (toFloat (inject_Z (Z.of_nat diff) / (inject_Z (Z.of_nat close) + 1))) = false).
Proof.
  intro Hfl.
  destruct (tenth_test toFloat
              (inject_Z (Z.of_nat diff) / (inject_Z (Z.of_nat close) + 1)) Hfl)
    as (Hup & Hdown).
  assert (Hcq : 0 < inject_Z (Z.of_nat close + 1)).
  { change 0 with (inject_Z 0). rewrite <- Zlt_Qlt. lia. }
  split.
  - intro H. apply Qltb_true, Hup. rewrite counts_quotient.
    apply Qle_div_iff; [exact Hcq|].
    setoid_replace ((1 # 10) * inject_Z (Z.of_nat close + 1))
      with (inject_Z (Z.of_nat close + 1) / 10) by field.
    apply Qdiv_le_iff; [reflexivity|].
    change 10 with (inject_Z 10). rewrite <- inject_Z_mult, <- Zle_Qle. lia.
  - intros Hb H. apply Qltb_false, Qnot_lt_le, Hdown. rewrite counts_quotient.
    apply below_tenth_gap; lia.
Qed.

(** C7.  getCriterion keeps the ratio of test (c) in a [float] and
    compares it with the [double] literal [0.1], which lies below the float
    nearest to one tenth.  So when the different-type close pairs are exactly
    one tenth of the close pairs plus one, the ratio does not exceed 0.1 and
    the function returns false all the same, whatever the tests (a), (b) and
    (d) find.  The subvolume and the close pairs are those of the claim:
    the cells within [cbrt(targetN/n)/2] of 0.5 on every axis, and the pairs
    of them at Euclidean distance below [spatialRange]. *)
Theorem getCriterion_rejects_ratio_one_tenth
    (sqrtF cbrtF toFloat : Q -> Q) (fresh : nat -> vec3) (scratch : SubVol)
    (posAll : nat -> vec3) (typesAll : nat -> Z) (n : nat)
    (spatialRange : Q) (targetN : Z) :
  roundsToFloat toFloat ->
  (forall i, (i < n)%nat -> typesAll i = 1%Z \/ typesAll i = (-1)%Z) ->
  (10 * Z.of_nat (nDiffClose sqrtF cbrtF posAll typesAll n spatialRange targetN)
   = Z.of_nat (length (closePairs sqrtF cbrtF posAll n spatialRange targetN)) + 1)%Z ->
  getCriterion sqrtF cbrtF toFloat fresh scratch posAll typesAll n spatialRange targetN
  = false
  /\ inject_Z (Z.of_nat (nDiffClose sqrtF cbrtF posAll typesAll n spatialRange targetN))
     / (inject_Z (Z.of_nat
          (length (closePairs sqrtF cbrtF posAll n spatialRange targetN))) + 1)
     == 1 # 10.
Proof.
  intros Hfl Htypes Hten. split.
  - rewrite (getCriterion_formula sqrtF cbrtF toFloat spatialRange fresh scratch posAll
               typesAll n targetN Htypes).
    cbv zeta.
    destruct (tenth_test_counts toFloat
                (nDiffClose sqrtF cbrtF posAll typesAll n spatialRange targetN)
                (length (closePairs sqrtF cbrtF posAll n spatialRange targetN)) Hfl)
      as (Hup & _).
    rewrite Hup by lia.
    rewrite orb_true_r. reflexivity.
  - rewrite counts_quotient, <- Hten, inject_Z_mult.
    assert (H0 : 0 < inject_Z (Z.of_nat
                (nDiffClose sqrtF cbrtF posAll typesAll n spatialRange targetN))).
    { change 0 with (inject_Z 0). rewrite <- Zlt_Qlt. lia. }
    change (inject_Z 10) with 10. field. lra.
Qed.

(** X15.  What getCriterion decides, for counts that a [float] holds
    exactly: it returns false exactly when, over the cells within
    [cbrt(targetN/n)/2] of 0.5 on every axis and the pairs of them at distance
    below [spatialRange], (a) the cell count is below [targetN/4], or (b) above
    [4*targetN], or (c) the different-type close pairs reach one tenth of the
    close pairs plus one, or (d) the same-type close pairs are fewer than 100
    per cell. *)
Theorem getCriterion_false_iff
    (sqrtF cbrtF toFloat : Q -> Q) (fresh : nat -> vec3) (scratch : SubVol)
    (posAll : nat -> vec3) (typesAll : nat -> Z) (n : nat)
    (spatialRange : Q) (targetN : Z) :
  roundsToFloat toFloat ->
  (0 < targetN <= 2097152)%Z ->
  (forall i, (i < n)%nat -> typesAll i = 1%Z \/ typesAll i = (-1)%Z) ->
  let m := Z.of_nat (length (subvolCells cbrtF posAll n targetN)) in
  let close := Z.of_nat (length (closePairs sqrtF cbrtF posAll n spatialRange targetN)) in
  let same := Z.of_nat (nSameClose sqrtF cbrtF posAll typesAll n spatialRange targetN) in
  let diff := Z.of_nat (nDiffClose sqrtF cbrtF posAll typesAll n spatialRange targetN) in
  (m <= 131072)%Z -> (close + 1 <= 16777216)%Z ->
  (getCriterion sqrtF cbrtF toFloat fresh scratch posAll typesAll n spatialRange targetN
   = false
   <-> (4 * m < targetN \/ 4 * targetN < m \/ close + 1 <= 10 * diff
        \/ same < 100 * m)%Z).
Proof.
  intros Hfl HT Htypes m close same diff Hm Hclose.
  assert (HTq : 0 < inject_Z targetN).
  { change 0 with (inject_Z 0). rewrite <- Zlt_Qlt. lia. }
  rewrite (getCriterion_formula sqrtF cbrtF toFloat spatialRange fresh scratch posAll
             typesAll n targetN Htypes).
  cbv zeta. fold m close same diff.
  destruct (tenth_test_counts toFloat
              (nDiffClose sqrtF cbrtF posAll typesAll n spatialRange targetN)
              (length (closePairs sqrtF cbrtF posAll n spatialRange targetN)) Hfl)
    as (Hup & Hdown).
  fold close diff in Hup, Hdown.
  assert (Hc : Qltb tenthDouble (toFloat (inject_Z diff / (inject_Z close + 1))) = true
               <-> (close + 1 <= 10 * diff)%Z).
  { split.
    - intro H. destruct (Z_le_gt_dec (close + 1) (10 * diff)) as [Hle | Hgt];
        [exact Hle|].
      rewrite Hdown in H by lia. discriminate.
    - exact Hup. }
  assert (Ha : inject_Z m / inject_Z targetN < 1 # 4 <-> (4 * m < targetN)%Z).
  { rewrite (Qdiv_lt_iff _ _ _ HTq), (Zlt_Qlt (4 * m)), inject_Z_mult.
    change (inject_Z 4) with 4. split; intro H; lra. }
  assert (Hb : 4 < inject_Z m / inject_Z targetN <-> (4 * targetN < m)%Z).
  { rewrite (Qlt_div_iff _ _ _ HTq), (Zlt_Qlt (4 * targetN)), inject_Z_mult.
    change (inject_Z 4) with 4. tauto. }
  rewrite negb_false_iff, !orb_true_iff, Hc, !Qltb_true, Ha, Hb.
  destruct (Z.eq_dec m 0) as [E | E]; [lia|].
  assert (Hmq : 0 < inject_Z m).
  { change 0 with (inject_Z 0). rewrite <- Zlt_Qlt. unfold m in *. lia. }
  assert (Hd : inject_Z same / inject_Z m < 100 <-> (same < 100 * m)%Z).
  { rewrite (Qdiv_lt_iff _ _ _ Hmq), (Zlt_Qlt same), inject_Z_mult.
    change (inject_Z 100) with 100. tauto. }
  rewrite Hd. tauto.
Qed.

(** ** getEnergy *)

Lemma energyTerm_range (spatialRange d : Q) :
  0 <= d -> d < spatialRange -> 1 <= energyTerm spatialRange d <= 100.
Proof.
  intros Hd Hlt. unfold energyTerm.
  destruct (Qeq_bool d 0) eqn:E.
  - split; discriminate.
  - assert (Hne : ~ d == 0).
    { intro H0. apply Qeq_bool_iff in H0. congruence. }
    assert (Hpos : 0 < d) by (apply Qle_lteq in Hd; destruct Hd as [H|H];
                               [exact H|exfalso; apply Hne; symmetry; exact H]).
    assert (Hq : 1 < spatialRange / d).
    { apply Qlt_shift_div_l; [exact Hpos|lra]. }
    split.
    + apply Q.min_glb; lra.
    + apply Q.le_min_l.
Qed.

Lemma filter_none {A : Type} (p : A -> bool) (l : list A) :
  (forall x, In x l -> p x = false) -> filter p l = [].
Proof.
  induction l as [|x l IH]; intro H; [reflexivity|]. simpl.
  rewrite (H x) by (left; reflexivity). apply IH. intros y Hy. apply H. right. exact Hy.
Qed.

Lemma filter_map_swap {A B : Type} (p : B -> bool) (g : A -> B) (l : list A) :
  filter p (map g l) = map g (filter (fun a => p (g a)) l).
Proof.
  induction l as [|x l IH]; [reflexivity|]. simpl.
  destruct (p (g x)); simpl; rewrite IH; reflexivity.
Qed.

(** Terms collected over slot pairs are the terms over the pairs of cells
    that the slots hold. *)
Lemma slot_pairs_terms (cells : list nat) (pI p : nat * nat -> bool)
    (fI f : nat * nat -> Q) :
  (forall i j, (i < j < length cells)%nat ->
     pI (i, j) = p (nth i cells 0%nat, nth j cells 0%nat)) ->
  (forall i j, (i < j < length cells)%nat ->
     fI (i, j) = f (nth i cells 0%nat, nth j cells 0%nat)) ->
  map fI (filter pI (pairsOf (seq 0 (length cells))))
  = map f (filter p (pairsOf cells)).
Proof.
  intros Hp Hf.
  rewrite <- (map_nth_seq cells) at 2.
  rewrite pairsOf_map, filter_map_swap, map_map.
  rewrite (filter_ext_in pI
             (fun ab => p (nth (fst ab) cells 0%nat, nth (snd ab) cells 0%nat))).
  - apply map_ext_in. intros [i j] Hin. apply filter_In in Hin.
    destruct Hin as [Hin _]. apply pairsOf_seq_bound in Hin. cbn [fst snd].
    apply Hf. lia.
  - intros [i j] Hin. apply pairsOf_seq_bound in Hin. cbn [fst snd]. apply Hp. lia.
Qed.


Section EnergyProps.
Variable sqrtF : Q -> Q.
Variable cbrtF : Q -> Q.
Variable spatialRange : Q.

Let closeE (sv : SubVol) (ab : nat * nat) : bool :=
  Qltb (dist sqrtF (posSubvol sv (fst ab)) (posSubvol sv (snd ab))) spatialRange.
Let sameE (sv : SubVol) (ab : nat * nat) : bool :=
  (0 <? typesSubvol sv (fst ab) * typesSubvol sv (snd ab))%Z.
Let termE (sv : SubVol) (ab : nat * nat) : Q :=
  energyTerm spatialRange (dist sqrtF (posSubvol sv (fst ab)) (posSubvol sv (snd ab))).

Lemma energy_fold sv l :
  forall e,
    let e' := fold_left
                (fun e ab => energyStep sqrtF spatialRange sv (fst ab) (snd ab) e) l e in
    intraClusterEnergy e'
      = fold_left Qplus
          (map (termE sv) (filter (fun ab => closeE sv ab && sameE sv ab) l))
          (intraClusterEnergy e)
    /\ extraClusterEnergy e'
      = fold_left Qplus
          (map (termE sv) (filter (fun ab => closeE sv ab && negb (sameE sv ab)) l))
          (extraClusterEnergy e)
    /\ nrSmallDist e'
       == nrSmallDist e + inject_Z (Z.of_nat (length (filter (closeE sv) l))).
Proof.
  induction l as [|ab l IH]; intro e; cbv zeta.
  - cbn. repeat split. ring.
  - cbn [fold_left filter].
    specialize (IH (energyStep sqrtF spatialRange sv (fst ab) (snd ab) e)).
    cbv zeta in IH. destruct IH as (I1 & I2 & I3).
    rewrite I1, I2, I3. unfold energyStep. cbv zeta.
    fold (closeE sv ab). fold (sameE sv ab). fold (termE sv ab).
    destruct (closeE sv ab); [destruct (sameE sv ab)|];
      cbn [andb negb map fold_left length intraClusterEnergy extraClusterEnergy
           nrSmallDist]; repeat split; try reflexivity;
      rewrite ?Nat2Z.inj_succ; unfold Z.succ; rewrite ?inject_Z_plus; ring.
Qed.

Lemma energyLoop_fold sv :
  energyLoop sqrtF spatialRange sv
  = fold_left (fun e ab => energyStep sqrtF spatialRange sv (fst ab) (snd ab) e)
      (pairsOf (seq 0 (nrCellsSubVol sv))) (mkEnergies 0 0 0).
Proof.
  unfold energyLoop. rewrite forUp_fold.
  apply (pair_loops_fold (energyStep sqrtF spatialRange sv) (nrCellsSubVol sv) 0).
Qed.

(** With a square root that is never negative, the accumulators stay
    non-negative and the two energies together stay below 100 per close
    pair. *)
Lemma energy_fold_bounds sv l :
  (forall x, 0 <= sqrtF x) ->
  forall e,
    0 <= intraClusterEnergy e -> 0 <= extraClusterEnergy e -> 0 <= nrSmallDist e ->
    intraClusterEnergy e + extraClusterEnergy e <= 100 * nrSmallDist e ->
    let e' := fold_left
                (fun e ab => energyStep sqrtF spatialRange sv (fst ab) (snd ab) e) l e in
    0 <= intraClusterEnergy e' /\ 0 <= extraClusterEnergy e' /\ 0 <= nrSmallDist e'
    /\ intraClusterEnergy e' + extraClusterEnergy e' <= 100 * nrSmallDist e'.
Proof.
  intro Hsqrt. induction l as [|ab l IH]; intros e Hi He Hn Hs; cbv zeta.
  - cbn. auto.
  - cbn [fold_left]. apply IH; unfold energyStep; cbv zeta;
      set (d := dist sqrtF (posSubvol sv (fst ab)) (posSubvol sv (snd ab)));
      (destruct (Qltb d spatialRange) eqn:E; [|assumption]);
      apply Qltb_true in E;
      pose proof (energyTerm_range spatialRange d (Hsqrt _) E) as Ht;
      destruct (0 <? typesSubvol sv (fst ab) * typesSubvol sv (snd ab))%Z;
      cbn [intraClusterEnergy extraClusterEnergy nrSmallDist]; lra.
Qed.
End EnergyProps.

Section EnergyTheorems.
Variable sqrtF : Q -> Q.
Variable cbrtF : Q -> Q.
Variable fresh : nat -> vec3.
Variable scratch : SubVol.
Variable posAll : nat -> vec3.
Variable typesAll : nat -> Z.
Variable n : nat.
Variable spatialRange : Q.
Variable targetN : Z.

Let M := cbrtF (inject_Z targetN / inject_Z (Z.of_nat n)) / 2.
Let cells := subvolCells cbrtF posAll n targetN.
Let sv := forUp n (selectCell fresh posAll typesAll M)
            (mkSubVol (posSubvol scratch) (typesSubvol scratch) 0).
Let e := energyLoop sqrtF spatialRange sv.

Lemma getEnergy_unfold :
  getEnergy sqrtF cbrtF fresh scratch posAll typesAll n spatialRange targetN
  = (extraClusterEnergy e - intraClusterEnergy e) / (1 + 100 * nrSmallDist e).
Proof. reflexivity. Qed.

Lemma energy_slots :
  nrCellsSubVol sv = length cells
  /\ forall k, (k < length cells)%nat ->
       posSubvol sv k = posAll (nth k cells 0%nat)
       /\ typesSubvol sv k = typesAll (nth k cells 0%nat).
Proof.
  destruct (select_loop fresh posAll typesAll M scratch n) as (Hnr & _ & Hslots).
  fold sv in Hnr, Hslots.
  change (filter (fun i => inSubVol M (posAll i)) (seq 0 n)) with cells in Hnr, Hslots.
  split; [exact Hnr|]. intros k Hk. apply Hslots. lia.
Qed.

Lemma types_product_pos (a b : Z) :
  a = 1%Z \/ a = (-1)%Z -> b = 1%Z \/ b = (-1)%Z ->
  (0 <? a * b)%Z = (a =? b)%Z.
Proof. intros [-> | ->] [-> | ->]; reflexivity. Qed.

(** X: the energy over the close pairs of the subvolume. *)
Lemma getEnergy_accumulators :
  (forall i, (i < n)%nat -> typesAll i = 1%Z \/ typesAll i = (-1)%Z) ->
  intraClusterEnergy e
    = intraEnergy sqrtF cbrtF posAll typesAll n spatialRange targetN
  /\ extraClusterEnergy e
    = extraEnergy sqrtF cbrtF posAll typesAll n spatialRange targetN
  /\ nrSmallDist e
     == inject_Z (Z.of_nat
          (length (closePairs sqrtF cbrtF posAll n spatialRange targetN))).
Proof.
  intro Htypes. destruct energy_slots as (Hnr & Hslots).
  unfold e. rewrite energyLoop_fold.
  destruct (energy_fold sqrtF spatialRange sv
              (pairsOf (seq 0 (nrCellsSubVol sv))) (mkEnergies 0 0 0))
    as (I1 & I2 & I3).
  cbv zeta in I1, I2, I3. rewrite I1, I2, I3.
  cbn [intraClusterEnergy extraClusterEnergy nrSmallDist]. rewrite Hnr.
  assert (Hclose : forall i j, (i < j < length cells)%nat ->
            Qltb (dist sqrtF (posSubvol sv i) (posSubvol sv j)) spatialRange =
            Qltb (dist sqrtF (posAll (nth i cells 0%nat)) (posAll (nth j cells 0%nat)))
              spatialRange).
  { intros i j Hij.
    destruct (Hslots i) as (-> & _); [lia|].
    destruct (Hslots j) as (-> & _); [lia|]. reflexivity. }
  assert (Hsame : forall i j, (i < j < length cells)%nat ->
            (0 <? typesSubvol sv i * typesSubvol sv j)%Z =
            negb (diffType typesAll (nth i cells 0%nat, nth j cells 0%nat))).
  { intros i j Hij. unfold diffType. cbn [fst snd]. rewrite negb_involutive.
    destruct (Hslots i) as (_ & ->); [lia|].
    destruct (Hslots j) as (_ & ->); [lia|].
    apply types_product_pos; apply Htypes, cells_below; fold cells; lia. }
  assert (Hterm : forall i j, (i < j < length cells)%nat ->
            energyTerm spatialRange (dist sqrtF (posSubvol sv i) (posSubvol sv j)) =
            pairTerm sqrtF posAll spatialRange (nth i cells 0%nat, nth j cells 0%nat)).
  { intros i j Hij. unfold pairTerm. cbn [fst snd].
    destruct (Hslots i) as (-> & _); [lia|].
    destruct (Hslots j) as (-> & _); [lia|]. reflexivity. }
  unfold intraEnergy, extraEnergy, closePairs, sumQ. fold cells.
  rewrite !filter_filter.
  split; [|split].
  - f_equal. apply slot_pairs_terms; intros i j Hij; cbn [fst snd].
    + rewrite (Hclose i j Hij), (Hsame i j Hij). reflexivity.
    + apply Hterm, Hij.
  - f_equal. apply slot_pairs_terms; intros i j Hij; cbn [fst snd].
    + rewrite (Hclose i j Hij), (Hsame i j Hij), negb_involutive. reflexivity.
    + apply Hterm, Hij.
  - rewrite Qplus_0_l.
    rewrite (slot_pairs_count cells _
               (fun ab => Qltb (dist sqrtF (posAll (fst ab)) (posAll (snd ab)))
                            spatialRange)).
    + reflexivity.
    + intros i j Hij. cbn [fst snd]. apply Hclose, Hij.
Qed.

Lemma energy_bounds :
  (forall x, 0 <= sqrtF x) ->
  0 <= intraClusterEnergy e /\ 0 <= extraClusterEnergy e /\ 0 <= nrSmallDist e
  /\ intraClusterEnergy e + extraClusterEnergy e <= 100 * nrSmallDist e.
Proof.
  intro Hsqrt. unfold e. rewrite energyLoop_fold.
  apply (energy_fold_bounds sqrtF spatialRange sv _ Hsqrt); cbn; lra.
Qed.

(** With cells of one sign only, nothing is added to the energy between
    clusters. *)
Lemma energy_one_type :
  (forall i j, (i < n)%nat -> (j < n)%nat -> (0 < typesAll i * typesAll j)%Z) ->
  extraClusterEnergy e = 0.
Proof.
  intro Hsign. destruct energy_slots as (Hnr & Hslots).
  unfold e. rewrite energyLoop_fold.
  destruct (energy_fold sqrtF spatialRange sv
              (pairsOf (seq 0 (nrCellsSubVol sv))) (mkEnergies 0 0 0))
    as (_ & I2 & _).
  cbv zeta in I2. rewrite I2. cbn [extraClusterEnergy].
  rewrite filter_none; [reflexivity|].
  intros [i j] Hin. apply pairsOf_seq_bound in Hin. rewrite Hnr in Hin.
  cbn [fst snd].
  destruct (Hslots i) as (_ & ->); [lia|].
  destruct (Hslots j) as (_ & ->); [lia|].
  assert (Hi : (nth i cells 0 < n)%nat) by (apply cells_below; fold cells; lia).
  assert (Hj : (nth j cells 0 < n)%nat) by (apply cells_below; fold cells; lia).
  specialize (Hsign _ _ Hi Hj). apply Z.ltb_lt in Hsign. rewrite Hsign.
  apply andb_false_r.
Qed.

Lemma energy_no_pairs :
  (length cells <= 1)%nat -> e = mkEnergies 0 0 0.
Proof.
  intro Hm. destruct energy_slots as (Hnr & _).
  unfold e. rewrite energyLoop_fold, Hnr.
  destruct (length cells) as [|[|k]]; [reflexivity|reflexivity|lia].
Qed.
End EnergyTheorems.

(** X1.  getEnergy returns, over the pairs of subvolume cells at distance
    below [spatialRange], the sum of the terms [min(100, spatialRange/d)] of
    the pairs of different types minus the sum over the pairs of equal types,
    divided by [1 + 100 * (number of close pairs)].  Stated for at most
    167772 close pairs: the counter and the two sums then stay below 2^24,
    where the program's binary32 accumulators count every pair and take up
    every term, so that the program's value is this quotient up to rounding;
    beyond, the counter stops at 2^24 and the sums lose terms. *)
Theorem getEnergy_over_close_pairs
    (sqrtF cbrtF : Q -> Q) (fresh : nat -> vec3) (scratch : SubVol)
    (posAll : nat -> vec3) (typesAll : nat -> Z) (n : nat)
    (spatialRange : Q) (targetN : Z) :
  (forall i, (i < n)%nat -> typesAll i = 1%Z \/ typesAll i = (-1)%Z) ->
  (Z.of_nat (length (closePairs sqrtF cbrtF posAll n spatialRange targetN))
   <= 167772)%Z ->
  getEnergy sqrtF cbrtF fresh scratch posAll typesAll n spatialRange targetN
  == (extraEnergy sqrtF cbrtF posAll typesAll n spatialRange targetN
      - intraEnergy sqrtF cbrtF posAll typesAll n spatialRange targetN)
     / (1 + 100 * inject_Z (Z.of_nat
          (length (closePairs sqrtF cbrtF posAll n spatialRange targetN)))).
Proof.
  intros Htypes _. rewrite getEnergy_unfold.
  destruct (getEnergy_accumulators sqrtF cbrtF fresh scratch posAll typesAll n
              spatialRange targetN Htypes) as (H1 & H2 & H3).
  rewrite H1, H2, H3. reflexivity.
Qed.

(** X2.  With a square root that is never negative, and for at most
    167772 close pairs in the subvolume, the energy lies strictly between -1
    and 1.  (Within that number of pairs the two sums stay at or below
    [100 * pairs < 2^24] in binary32 as well, and the divisor
    [1 + 100 * pairs] is exact; beyond it the rounded sums can exceed the
    divisor.) *)
Theorem getEnergy_bounded
    (sqrtF cbrtF : Q -> Q) (fresh : nat -> vec3) (scratch : SubVol)
    (posAll : nat -> vec3) (typesAll : nat -> Z) (n : nat)
    (spatialRange : Q) (targetN : Z) :
  (forall x, 0 <= sqrtF x) ->
  (Z.of_nat (length (closePairs sqrtF cbrtF posAll n spatialRange targetN))
   <= 167772)%Z ->
  - (1) < getEnergy sqrtF cbrtF fresh scratch posAll typesAll n spatialRange targetN
  /\ getEnergy sqrtF cbrtF fresh scratch posAll typesAll n spatialRange targetN < 1.
Proof.
  intros Hsqrt _. rewrite getEnergy_unfold.
  destruct (energy_bounds sqrtF cbrtF fresh scratch posAll typesAll n spatialRange
              targetN Hsqrt) as (Hi & He & Hn & Hs).
  split.
  - apply Qlt_shift_div_l; lra.
  - apply Qlt_shift_div_r; lra.
Qed.

(** X3.  When all cells have types of one sign (and the square root is
    never negative), no pair counts as different, the energy between
    clusters is 0 and the total is at most 0.  Whatever the types, when the
    subvolume holds at most one cell there is no pair and the energy is 0. *)
Theorem getEnergy_one_type_nonpositive
    (sqrtF cbrtF : Q -> Q) (fresh : nat -> vec3) (scratch : SubVol)
    (posAll : nat -> vec3) (typesAll : nat -> Z) (n : nat)
    (spatialRange : Q) (targetN : Z) :
  ((forall x, 0 <= sqrtF x) ->
   (forall i j, (i < n)%nat -> (j < n)%nat -> (0 < typesAll i * typesAll j)%Z) ->
   getEnergy sqrtF cbrtF fresh scratch posAll typesAll n spatialRange targetN <= 0)
  /\ ((length (subvolCells cbrtF posAll n targetN) <= 1)%nat ->
      getEnergy sqrtF cbrtF fresh scratch posAll typesAll n spatialRange targetN == 0).
Proof.
  rewrite getEnergy_unfold. split.
  - intros Hsqrt Hsign.
    destruct (energy_bounds sqrtF cbrtF fresh scratch posAll typesAll n spatialRange
                targetN Hsqrt) as (Hi & _ & Hn & _).
    rewrite (energy_one_type sqrtF cbrtF fresh scratch posAll typesAll n spatialRange
               targetN Hsign).
    apply Qle_shift_div_r; lra.
  - intro Hm.
    rewrite (energy_no_pairs sqrtF cbrtF fresh scratch posAll typesAll n spatialRange
               targetN Hm).
    reflexivity.
Qed.

(** ** What a passed criterion implies *)


(** ** The mesh: decay, range and mass *)

Lemma decayVoxel_at mu a b c C s :
  s = 0%Z \/ s = 1%Z -> decayVoxel mu a b c C s a b c = C s a b c * mu.
Proof.
  intros [-> | ->]; unfold decayVoxel; cbv zeta.
  - rewrite store_other by (intros (? & _); discriminate).
    apply store_same.
  - rewrite store_same.
    rewrite store_other by (intros (? & _); discriminate). reflexivity.
Qed.

Lemma decayVoxel_other mu i j k C s a b c :
  ~ ((s = 0%Z \/ s = 1%Z) /\ a = i /\ b = j /\ c = k) ->
  decayVoxel mu i j k C s a b c = C s a b c.
Proof.
  intro H. unfold decayVoxel; cbv zeta.
  rewrite !store_other; [reflexivity| |]; intros (? & ? & ? & ?); apply H; auto.
Qed.

Lemma runDecayStep_at Conc L mu s a b c :
  (s = 0%Z \/ s = 1%Z -> inGrid L (a, b, c) = true ->
     runDecayStep Conc L mu s a b c = Conc s a b c * (1 - mu))
  /\ (~ ((s = 0%Z \/ s = 1%Z) /\ inGrid L (a, b, c) = true) ->
      runDecayStep Conc L mu s a b c = Conc s a b c).
Proof.
  unfold runDecayStep. cbv zeta. split.
  - intros Hs Hg. apply inGrid_iff in Hg. destruct Hg as (Ha & Hb & Hc).
    rewrite (grid_loop_hit (fun t : field => t s a b c) L
               (fun i1 i2 i3 => decayVoxel (1 - mu) i1 i2 i3) Conc a b c Ha Hb Hc).
    + apply decayVoxel_at, Hs.
    + intros i j k t H. apply decayVoxel_other. intros (_ & -> & -> & ->). apply H; auto.
    + intros t t' Ht. rewrite !decayVoxel_at by exact Hs. rewrite Ht. reflexivity.
  - intro H. apply (grid_loop_frame (fun t : field => t s a b c)).
    intros i j k t Hi Hj Hk. apply decayVoxel_other.
    intros (Hs & -> & -> & ->). apply H. split; [exact Hs|].
    apply inGrid_iff. auto.
Qed.

Lemma runDecayStep_within L mu C :
  0 <= mu <= 1 -> fieldWithin L 0 1 C -> fieldWithin L 0 1 (runDecayStep C L mu).
Proof.
  intros Hmu HC s a b c Hs Hg.
  destruct (runDecayStep_at C L mu s a b c) as (H & _).
  rewrite (H Hs Hg). specialize (HC s a b c Hs Hg).
  split.
  - apply Qmult_le_0_compat; lra.
  - assert (0 <= (1 - C s a b c) + C s a b c * mu) by
      (assert (0 <= C s a b c * mu) by (apply Qmult_le_0_compat; lra); lra).
    lra.
Qed.

Lemma produceSubstances_within L C posAll typesAll n :
  fieldWithin L 0 1 C ->
  fieldWithin L 0 1 (produceSubstances C posAll typesAll L n).
Proof.
  intros HC s a b c Hs Hg. rewrite produceSubstances_iter.
  apply iter_deposit_range, HC; assumption.
Qed.

(** The update of one voxel, in closed form. *)
Lemma diffused_closed_form old L D s a b c :
  let nbs := filter (inGrid L) (neighbours a b c) in
  let k := inject_Z (Z.of_nat (length nbs)) in
  let S := fold_right (fun nb acc => let '(j1, j2, j3) := nb in old s j1 j2 j3 + acc)
             0 nbs in
  diffused old L D s a b c == old s a b c + (D / 6) * (S - k * old s a b c).
Proof.
  cbv zeta. unfold diffused.
  generalize (filter (inGrid L) (neighbours a b c)) as l.
  set (v := old s a b c). intro l.
  assert (G : forall acc,
    fold_left (fun acc nb => let '(j1, j2, j3) := nb in
                 acc + (old s j1 j2 j3 - v) * (D / 6)) l acc
    == acc + (D / 6) *
         (fold_right (fun nb acc => let '(j1, j2, j3) := nb in old s j1 j2 j3 + acc) 0 l
          - inject_Z (Z.of_nat (length l)) * v)).
  { induction l as [|[[j1 j2] j3] l IH]; intro acc.
    - cbn [length fold_left fold_right Z.of_nat]. change (inject_Z 0) with 0. ring.
    - cbn [fold_left fold_right length]. rewrite IH.
      rewrite Nat2Z.inj_succ. unfold Z.succ. rewrite inject_Z_plus.
      change (inject_Z 1) with 1. ring. }
  apply G.
Qed.

Lemma neighbour_sum_bounds (old : field) (s : Z) (lo hi : Q) (l : list (Z * Z * Z)) :
  (forall nb, In nb l -> let '(j1, j2, j3) := nb in lo <= old s j1 j2 j3 <= hi) ->
  let k := inject_Z (Z.of_nat (length l)) in
  let S := fold_right (fun nb acc => let '(j1, j2, j3) := nb in old s j1 j2 j3 + acc)
             0 l in
  k * lo <= S <= k * hi.
Proof.
  induction l as [|[[j1 j2] j3] l IH]; intro H; cbv zeta.
  - cbn [length fold_right Z.of_nat]. change (inject_Z 0) with 0. lra.
  - cbn [fold_right length]. rewrite Nat2Z.inj_succ. unfold Z.succ.
    rewrite inject_Z_plus. change (inject_Z 1) with 1.
    pose proof (H (j1, j2, j3) (or_introl eq_refl)) as H1. cbv beta iota in H1.
    cbv zeta in IH.
    specialize (IH (fun nb Hin => H nb (or_intror Hin))).
    lra.
Qed.

Lemma diffusion_within
    (stack Conc : field) (L : Z) (D lo hi : Q) :
  0 <= D <= 1 ->
  fieldWithin L lo hi Conc ->
  fieldWithin L lo hi (runDiffusionStep stack Conc L D).
Proof.
  intros HD HC s a b c Hs Hg.
  pose proof (HC s a b c Hs Hg) as Hv.
  apply inGrid_iff in Hg. destruct Hg as (Ha & Hb & Hc).
  rewrite runDiffusionStep_in_grid by assumption.
  rewrite diffused_closed_form. cbv zeta.
  set (l := filter (inGrid L) (neighbours a b c)).
  assert (Hl : forall nb, In nb l -> let '(j1, j2, j3) := nb in
                 lo <= Conc s j1 j2 j3 <= hi).
  { intros [[j1 j2] j3] Hin. apply filter_In in Hin. destruct Hin as [_ Hin].
    apply HC; assumption. }
  pose proof (neighbour_sum_bounds Conc s lo hi l Hl) as HS. cbv zeta in HS.
  set (S := fold_right (fun nb acc => let '(j1, j2, j3) := nb in Conc s j1 j2 j3 + acc)
              0 l) in *.
  assert (Hk6 : (length l <= 6)%nat).
  { unfold l. etransitivity; [apply filter_length_le|]. simpl. lia. }
  set (k := inject_Z (Z.of_nat (length l))) in *.
  assert (Hk : 0 <= k <= 6).
  { unfold k. split.
    - change 0 with (inject_Z 0). rewrite <- Zle_Qle. lia.
    - change 6 with (inject_Z 6). rewrite <- Zle_Qle. lia. }
  set (v := Conc s a b c) in *.
  clearbody v S k. clear Hl Hk6.
  change (D / 6) with (D * (1 # 6)).
  assert (Hw : 0 <= 1 - D * (1 # 6) * k) by nra.
  split.
  - assert (G1 : 0 <= (v - lo) * (1 - D * (1 # 6) * k))
      by (apply Qmult_le_0_compat; lra).
    assert (G2 : 0 <= D * (1 # 6) * (S - k * lo))
      by (apply Qmult_le_0_compat; lra).
    lra.
  - assert (G1 : 0 <= (hi - v) * (1 - D * (1 # 6) * k))
      by (apply Qmult_le_0_compat; lra).
    assert (G2 : 0 <= D * (1 # 6) * (k * hi - S))
      by (apply Qmult_le_0_compat; lra).
    lra.
Qed.

(** ** Diffusion moves substance, it does not create any *)

Lemma sumTo_ext n f g :
  (forall i, (i < n)%nat -> f i == g i) -> sumTo n f == sumTo n g.
Proof.
  induction n as [|n IH]; intro H; [reflexivity|]. cbn [sumTo].
  rewrite IH by (intros; apply H; lia). rewrite (H n) by lia. reflexivity.
Qed.

Lemma sumTo_plus n f g :
  sumTo n (fun i => f i + g i) == sumTo n f + sumTo n g.
Proof. induction n as [|n IH]; cbn [sumTo]; [ring|rewrite IH; ring]. Qed.

Lemma sumTo_scale n k f :
  sumTo n (fun i => k * f i) == k * sumTo n f.
Proof. induction n as [|n IH]; cbn [sumTo]; [ring|rewrite IH; ring]. Qed.

Lemma sumTo_zero n f :
  (forall i, (i < n)%nat -> f i == 0) -> sumTo n f == 0.
Proof.
  induction n as [|n IH]; intro H; [reflexivity|]. cbn [sumTo].
  rewrite IH by (intros; apply H; lia). rewrite (H n) by lia. ring.
Qed.

Lemma sumTo_swap n m (f : nat -> nat -> Q) :
  sumTo n (fun i => sumTo m (fun j => f i j))
  == sumTo m (fun j => sumTo n (fun i => f i j)).
Proof.
  induction n as [|n IH]; cbn [sumTo].
  - symmetry. apply sumTo_zero. intros. reflexivity.
  - rewrite IH, <- sumTo_plus. reflexivity.
Qed.

Lemma sum3_ext n g h :
  (forall a b c, (a < n)%nat -> (b < n)%nat -> (c < n)%nat -> g a b c == h a b c) ->
  sum3 n g == sum3 n h.
Proof.
  intro H. unfold sum3.
  apply sumTo_ext. intros a Ha. apply sumTo_ext. intros b Hb.
  apply sumTo_ext. intros c Hc. apply H; assumption.
Qed.

Lemma sum3_plus n g h :
  sum3 n (fun a b c => g a b c + h a b c) == sum3 n g + sum3 n h.
Proof.
  unfold sum3.
  rewrite <- sumTo_plus. apply sumTo_ext. intros a _.
  rewrite <- sumTo_plus. apply sumTo_ext. intros b _.
  apply sumTo_plus.
Qed.

Lemma sum3_scale n k g :
  sum3 n (fun a b c => k * g a b c) == k * sum3 n g.
Proof.
  unfold sum3.
  rewrite <- sumTo_scale. apply sumTo_ext. intros a _.
  rewrite <- sumTo_scale. apply sumTo_ext. intros b _.
  apply sumTo_scale.
Qed.

Lemma sum3_zero_inner n g :
  (forall a b, sumTo n (fun c => g a b c) == 0) -> sum3 n g == 0.
Proof.
  intro H. unfold sum3. apply sumTo_zero. intros a _.
  apply sumTo_zero. intros b _. apply H.
Qed.

Lemma sum3_zero_mid n g :
  (forall a c, sumTo n (fun b => g a b c) == 0) -> sum3 n g == 0.
Proof.
  intro H. unfold sum3. apply sumTo_zero. intros a _.
  rewrite sumTo_swap. apply sumTo_zero. intros c _. apply H.
Qed.

Lemma sum3_zero_outer n g :
  (forall b c, sumTo n (fun a => g a b c) == 0) -> sum3 n g == 0.
Proof.
  intro H. unfold sum3. rewrite sumTo_swap.
  apply sumTo_zero. intros b _. rewrite sumTo_swap.
  apply sumTo_zero. intros c _. apply H.
Qed.

(** Along one axis what the voxels give and what they receive cancel,
    the two ends of the grid included. *)
Lemma axisDelta_sum (L : Z) (f : Z -> Q) :
  sumTo (Z.to_nat L) (fun i => axisDelta L f (Z.of_nat i)) == 0.
Proof.
  destruct (Z_le_gt_dec L 0) as [Hle|Hgt].
  { replace (Z.to_nat L) with 0%nat by lia. reflexivity. }
  remember (Z.to_nat L) as n eqn:En.
  assert (HL : L = Z.of_nat n) by lia. clear En. subst L.
  assert (Hpart : forall m, (1 <= m < n)%nat ->
            sumTo m (fun i => axisDelta (Z.of_nat n) f (Z.of_nat i))
            == f (Z.of_nat m) - f (Z.of_nat m - 1)%Z).
  { induction m as [|m IH]; intro Hm; [lia|].
    cbn [sumTo]. destruct (Nat.eq_dec m 0) as [->|Hne].
    - cbn [sumTo]. unfold axisDelta.
      destruct (Z.ltb_spec (Z.of_nat 0 + 1) (Z.of_nat n)); [|lia].
      destruct (Z.leb_spec 0 (Z.of_nat 0 - 1)); [lia|].
      replace (Z.of_nat 1 - 1)%Z with (Z.of_nat 0) by lia.
      replace (Z.of_nat 0 + 1)%Z with (Z.of_nat 1) by lia. ring.
    - rewrite IH by lia. unfold axisDelta.
      destruct (Z.ltb_spec (Z.of_nat m + 1) (Z.of_nat n)); [|lia].
      destruct (Z.leb_spec 0 (Z.of_nat m - 1)); [|lia].
      replace (Z.of_nat (S m) - 1)%Z with (Z.of_nat m) by lia.
      replace (Z.of_nat m + 1)%Z with (Z.of_nat (S m)) by lia. ring. }
  destruct n as [|[|n]]; [lia| |].
  - cbn [sumTo]. unfold axisDelta.
    destruct (Z.ltb_spec (Z.of_nat 0 + 1) (Z.of_nat 1)); [lia|].
    destruct (Z.leb_spec 0 (Z.of_nat 0 - 1)); [lia|]. ring.
  - cbn [sumTo]. cbn [sumTo] in Hpart.
    change (sumTo n (fun i => axisDelta (Z.of_nat (S (S n))) f (Z.of_nat i))
            + axisDelta (Z.of_nat (S (S n))) f (Z.of_nat n))
      with (sumTo (S n) (fun i => axisDelta (Z.of_nat (S (S n))) f (Z.of_nat i))).
    rewrite (Hpart (S n)) by lia. unfold axisDelta.
    destruct (Z.ltb_spec (Z.of_nat (S n) + 1) (Z.of_nat (S (S n)))); [lia|].
    destruct (Z.leb_spec 0 (Z.of_nat (S n) - 1)); [|lia]. ring.
Qed.

Lemma diffuseValue_delta t L D s a b c v :
  diffuseValue t L D s a b c v
  == v + D * (axisDelta L (fun i => t s i b c) a
              + axisDelta L (fun j => t s a j c) b
              + axisDelta L (fun k => t s a b k) c).
Proof.
  unfold diffuseValue, axisDelta. cbv zeta.
  destruct (a + 1 <? L)%Z, (0 <=? a - 1)%Z, (b + 1 <? L)%Z, (0 <=? b - 1)%Z,
           (c + 1 <? L)%Z, (0 <=? c - 1)%Z; ring.
Qed.

(** X7.  A diffusion step leaves the total amount of each substance on
    the grid unchanged, for every resolution and diffusion constant: a missing
    neighbour at the boundary gives nothing and takes nothing. *)
Theorem runDiffusionStep_conserves_mass
    (stack Conc : field) (L : Z) (D : Q) (s : Z) :
  s = 0%Z \/ s = 1%Z ->
  totalMass L (runDiffusionStep stack Conc L D) s == totalMass L Conc s.
Proof.
  intro Hs. unfold totalMass.
  set (n := Z.to_nat L).
  change (sum3 n (fun a b c =>
            runDiffusionStep stack Conc L D s (Z.of_nat a) (Z.of_nat b) (Z.of_nat c))
          == sum3 n (fun a b c => Conc s (Z.of_nat a) (Z.of_nat b) (Z.of_nat c))).
  rewrite (sum3_ext n _
    (fun a b c =>
       Conc s (Z.of_nat a) (Z.of_nat b) (Z.of_nat c)
       + (D / 6) *
         (axisDelta L (fun i => Conc s i (Z.of_nat b) (Z.of_nat c)) (Z.of_nat a)
          + (axisDelta L (fun j => Conc s (Z.of_nat a) j (Z.of_nat c)) (Z.of_nat b)
             + axisDelta L (fun k => Conc s (Z.of_nat a) (Z.of_nat b) k) (Z.of_nat c))))).
  - rewrite sum3_plus, sum3_scale, sum3_plus, sum3_plus.
    rewrite (sum3_zero_outer n
               (fun a b c => axisDelta L (fun i => Conc s i (Z.of_nat b) (Z.of_nat c))
                               (Z.of_nat a))) by (intros; apply axisDelta_sum).
    rewrite (sum3_zero_mid n
               (fun a b c => axisDelta L (fun j => Conc s (Z.of_nat a) j (Z.of_nat c))
                               (Z.of_nat b))) by (intros; apply axisDelta_sum).
    rewrite (sum3_zero_inner n
               (fun a b c => axisDelta L (fun k => Conc s (Z.of_nat a) (Z.of_nat b) k)
                               (Z.of_nat c))) by (intros; apply axisDelta_sum).
    ring.
  - intros a b c Ha Hb Hc. unfold n in *.
    rewrite runDiffusionStep_in_grid by (try exact Hs; lia).
    rewrite <- diffuseValue_diffused by lia.
    rewrite diffuseValue_delta. ring.
Qed.

(** ** The growth step and phase 1, further *)

Lemma growth_count_bounds rnd sqrtF thr dth p n :
  (n <= currentNumberCells (cellMovementAndDuplication rnd sqrtF thr dth n p)
     <= 2 * n)%nat.
Proof.
  destruct (growInv_final rnd sqrtF thr dth p n) as (Hcnt & _).
  unfold daughterSlot in Hcnt.
  pose proof (divisionsBefore_le thr dth p n). lia.
Qed.

(** X8.  A growth step entered with [n] cells returns between [n] and
    [2n] cells and makes three draws per cell and three more per daughter.
    It never writes the path of a daughter, which keeps what its slot held,
    and it writes nothing at or above the returned count. *)
Theorem growth_step_accounting
    (rnd : nat -> Q) (sqrtF : Q -> Q) (pathThreshold : Q) (divThreshold : Z)
    (p : Pop) (n : nat) :
  let q := cellMovementAndDuplication rnd sqrtF pathThreshold divThreshold n p in
  (n <= currentNumberCells q <= 2 * n)%nat
  /\ rng q = (rng p + 3 * n + 3 * (currentNumberCells q - n))%nat
  /\ (forall j, (n <= j)%nat -> pathTraveled q j = pathTraveled p j)
  /\ (forall j, (currentNumberCells q <= j)%nat ->
        posAll q j = posAll p j /\ typesAll q j = typesAll p j
        /\ numberDivisions q j = numberDivisions p j).
Proof.
  intro q.
  destruct (growInv_final rnd sqrtF pathThreshold divThreshold p n)
    as (Hcnt & Hrng & _ & Hhi & Hfree & _).
  fold q in Hcnt, Hrng, Hhi, Hfree.
  unfold daughterSlot in Hcnt, Hfree. unfold cursorAt in Hrng.
  pose proof (divisionsBefore_le pathThreshold divThreshold p n) as Hle.
  split; [lia|]. split; [lia|]. split; [exact Hhi|].
  intros j Hj. destruct (Hfree j) as (H1 & H2 & H3); [lia|]. auto.
Qed.

Section TypesInvariant.
Variable rnd : nat -> Q.
Variable sqrtF : Q -> Q.
Variable thr : Q.
Variable dth : Z.

Let signed (q : Pop) : Prop :=
  forall j, (j < currentNumberCells q)%nat ->
    typesAll q j = 1%Z \/ typesAll q j = (-1)%Z.

Lemma growCell_signed c q :
  (c < currentNumberCells q)%nat -> signed q ->
  signed (growCell rnd sqrtF thr dth c q).
Proof.
  intros Hc Hs. unfold signed. rewrite growCell_eq. cbv zeta.
  destruct ((numberDivisions q c <? dth)%Z && Qltb thr (pathTraveled q c + (1 # 10)));
    proj_pop; [|exact Hs].
  intros j Hj. destruct (Nat.eq_dec j (currentNumberCells q)) as [->|Hne].
  - upd_simpl. destruct (Hs c Hc) as [-> | ->]; auto.
  - upd_simpl. apply Hs. lia.
Qed.

Lemma growth_signed n p :
  currentNumberCells p = n -> signed p ->
  signed (cellMovementAndDuplication rnd sqrtF thr dth n p).
Proof.
  intros Hn Hs. unfold cellMovementAndDuplication. cbv zeta.
  assert (G : forall m q, (m <= n)%nat -> (n <= currentNumberCells q)%nat -> signed q ->
            signed (forUp m (growCell rnd sqrtF thr dth) q)
            /\ (n <= currentNumberCells (forUp m (growCell rnd sqrtF thr dth) q))%nat).
  { induction m as [|m IH]; intros q Hm Hq Hsq; simpl; [auto|].
    destruct (IH q) as [I1 I2]; [lia|exact Hq|exact Hsq|].
    split.
    - apply growCell_signed; [lia|exact I1].
    - etransitivity; [exact I2|apply growCell_count]. }
  apply (G n); [lia|proj_pop; lia|]. subst n. destruct p; exact Hs.
Qed.
End TypesInvariant.

Section Phase1Extra.
Variable rnd : nat -> Q.
Variable sqrtF : Q -> Q.
Variable stack : field.
Variable P : cdc_params.

Let step := phase1Step rnd sqrtF stack P.
Let run := phase1 rnd sqrtF stack P.

(** What holds on entry and is kept by every pass taken holds at the
    end, where the count has reached the target. *)
Lemma phase1_guarded_invariant (Inv : Sim -> Prop) :
  (forall st, (n st < finalNumberCells P)%nat -> Inv st -> Inv (step st)) ->
  forall fuel st st',
    Inv st -> run fuel st = Some st' ->
    Inv st' /\ (finalNumberCells P <= n st')%nat.
Proof.
  intro Hstep. induction fuel as [|fuel IH]; intros st st' Hinv Hrun.
  - destruct (Nat.ltb_spec (n st) (finalNumberCells P)) as [Hlt|Hge].
    + unfold run in Hrun. simpl in Hrun.
      destruct (Nat.ltb_spec (n st) (finalNumberCells P)); [discriminate|lia].
    + unfold run in Hrun. rewrite phase1_stop in Hrun by exact Hge.
      inversion Hrun; subst. auto.
  - destruct (Nat.ltb_spec (n st) (finalNumberCells P)) as [Hlt|Hge].
    + unfold run in Hrun. rewrite phase1_continue in Hrun by exact Hlt.
      apply (IH (step st)); [apply Hstep; assumption|exact Hrun].
    + unfold run in Hrun. rewrite phase1_stop in Hrun by exact Hge.
      inversion Hrun; subst. auto.
Qed.

(** The invariant of the states that phase 1 goes through. *)
Let reached (st : Sim) : Prop :=
  lineageInv (divThreshold P) (finalNumberCells P) (pop st)
  /\ (forall j, (j < n st)%nat ->
        typesAll (pop st) j = 1%Z \/ typesAll (pop st) j = (-1)%Z)
  /\ (forall c, (1 <= c < n st)%nat -> inCube (posAll (pop st) c))
  /\ (1 <= n st <= Nat.max 1 (2 * (finalNumberCells P - 1)))%nat.

Lemma reached_init heap :
  (0 <= divThreshold P)%Z -> reached (main_init P heap).
Proof.
  intro Hd. destruct (main_init_spec P heap) as (Hn & _ & Ht & _).
  unfold reached. rewrite Hn.
  split; [apply main_init_lineage, Hd|]. split; [|split; [|lia]].
  - intros j Hj. assert (j = 0%nat) by lia. subst j. auto.
  - intros c Hc. lia.
Qed.

Lemma reached_step st :
  (n st < finalNumberCells P)%nat -> reached st -> reached (step st).
Proof.
  intros Hlt (Hlin & Hsig & Hcube & Hn).
  pose proof (growth_count_bounds rnd sqrtF (pathThreshold P) (divThreshold P)
                (pop st) (n st)) as Hcount.
  assert (Hn' : n (step st) = currentNumberCells
            (cellMovementAndDuplication rnd sqrtF (pathThreshold P)
               (divThreshold P) (n st) (pop st))) by reflexivity.
  unfold reached. split; [apply step_lineage, Hlin|].
  split; [|split].
  - intros j Hj. unfold step. rewrite step_types.
    apply (growth_signed rnd sqrtF (pathThreshold P) (divThreshold P) (n st) (pop st)
             eq_refl Hsig). rewrite <- Hn'. exact Hj.
  - intros c Hc. apply phase1Step_clamps_from_one. fold step. lia.
  - rewrite Hn'. lia.
Qed.

Lemma phase1_result_reached heap fuel st :
  (0 <= divThreshold P)%Z ->
  run fuel (main_init P heap) = Some st ->
  reached st /\ (finalNumberCells P <= n st)%nat.
Proof.
  intros Hd Hrun.
  apply (phase1_guarded_invariant reached reached_step fuel (main_init P heap) st);
    [apply reached_init, Hd|exact Hrun].
Qed.
End Phase1Extra.

(** X9.  When phase 1 ends, started from the seed of [main] with a
    non-negative [divThreshold]: the count has reached [finalNumberCells] and
    is at most [2*(finalNumberCells-1)] (or 1) and at most [2^divThreshold];
    every active cell has type +1 or -1 and a division count between 0 and
    [divThreshold]; and every active cell but cell 0 lies in the unit
    cube. *)
Theorem phase1_result_invariants
    (rnd : nat -> Q) (sqrtF : Q -> Q) (stack : field) (heap : Sim)
    (P : cdc_params) (fuel : nat) (st : Sim) :
  (0 <= divThreshold P)%Z ->
  phase1 rnd sqrtF stack P fuel (main_init P heap) = Some st ->
  (finalNumberCells P <= n st)%nat
  /\ (1 <= n st <= Nat.max 1 (2 * (finalNumberCells P - 1)))%nat
  /\ (Z.of_nat (n st) <= 2 ^ divThreshold P)%Z
  /\ forall c, (c < n st)%nat ->
       (typesAll (pop st) c = 1%Z \/ typesAll (pop st) c = (-1)%Z)
       /\ (0 <= numberDivisions (pop st) c <= divThreshold P)%Z
       /\ ((1 <= c)%nat -> inCube (posAll (pop st) c)).
Proof.
  intros Hd Hrun.
  destruct (phase1_result_reached rnd sqrtF stack P heap fuel st Hd Hrun)
    as ((Hlin & Hsig & Hcube & Hn) & Hge).
  pose proof (lineage_bound _ _ _ Hd Hlin) as Hb.
  destruct Hlin as (_ & Hdiv & _).
  split; [exact Hge|]. split; [exact Hn|]. split; [exact Hb|].
  intros c Hc. split; [apply Hsig, Hc|]. split; [apply Hdiv, Hc|].
  intro H1. apply Hcube. lia.
Qed.

(** X10.  With a non-negative [divThreshold], phase 1 started from the
    seed of [main] can only end when [finalNumberCells <= 2^divThreshold]:
    above that, the population stops growing below the target and the loop
    never exits, whatever the threshold and the draws.  For a positive
    [pathThreshold] of at most 2097151 (below 2^21, where a binary32 path
    still grows by each step, as the exact one does) the condition is also
    sufficient: phase 1 ends. *)
Theorem phase1_terminates_iff
    (rnd : nat -> Q) (sqrtF : Q -> Q) (stack : field) (heap : Sim)
    (P : cdc_params) :
  (0 <= divThreshold P)%Z ->
  ((exists fuel st, phase1 rnd sqrtF stack P fuel (main_init P heap) = Some st) ->
   (Z.of_nat (finalNumberCells P) <= 2 ^ divThreshold P)%Z)
  /\ ((2 ^ divThreshold P < Z.of_nat (finalNumberCells P))%Z ->
      forall fuel, phase1 rnd sqrtF stack P fuel (main_init P heap) = None)
  /\ (0 < pathThreshold P <= 2097151 ->
      (Z.of_nat (finalNumberCells P) <= 2 ^ divThreshold P)%Z ->
      exists fuel st, phase1 rnd sqrtF stack P fuel (main_init P heap) = Some st).
Proof.
  intro Hd.
  assert (Hnec : forall fuel st,
            phase1 rnd sqrtF stack P fuel (main_init P heap) = Some st ->
            (Z.of_nat (finalNumberCells P) <= 2 ^ divThreshold P)%Z).
  { intros fuel st Hrun.
    destruct (phase1_result_reached rnd sqrtF stack P heap fuel st Hd Hrun)
      as ((Hlin & _) & Hge).
    pose proof (lineage_bound _ _ _ Hd Hlin) as Hb. unfold n in Hge. lia. }
  split; [|split].
  - intros (fuel & st & Hrun). exact (Hnec fuel st Hrun).
  - intros Hgt fuel.
    destruct (phase1 rnd sqrtF stack P fuel (main_init P heap)) as [st|] eqn:E;
      [|reflexivity].
    pose proof (Hnec fuel st E). lia.
  - intros _ HF.
    destruct (phase1_terminates rnd sqrtF stack P (finalNumberCells P)
                (finalNumberCells P) (main_init P heap) Hd HF (le_n _))
      as (fuel & st & Hrun & _); [lia|apply main_init_lineage, Hd|].
    exists fuel, st. exact Hrun.
Qed.

(** ** Deposits of a cell outside the cube *)

Lemma deposit_above (x : Q) : x <= 1 -> x <= deposit x.
Proof.
  intro H. unfold deposit. cbv zeta.
  destruct (Qltb 1 (x + (1 # 10))) eqn:E; [exact H|lra].
Qed.

Lemma deposit_grows (x : Q) : x < 1 -> x < deposit x.
Proof.
  intro H. unfold deposit. cbv zeta.
  destruct (Qltb 1 (x + (1 # 10))) eqn:E; [exact H|lra].
Qed.

Lemma iter_deposit_above (k : nat) (x : Q) :
  x <= 1 -> x <= Nat.iter k deposit x <= 1.
Proof.
  intro H. induction k as [|k IH]; simpl.
  - split; [apply Qle_refl|exact H].
  - split; [|apply deposit_le_one].
    apply Qle_trans with (Nat.iter k deposit x); [apply IH|].
    apply deposit_above, IH.
Qed.

Lemma iter_deposit_grows (k : nat) (x : Q) :
  (1 <= k)%nat -> x < 1 -> x < Nat.iter k deposit x.
Proof.
  intros Hk H. destruct k as [|k]; [lia|]. simpl.
  destruct (iter_deposit_above k x (Qlt_le_weak _ _ H)) as (Hlo & Hhi).
  destruct (Qlt_le_dec (Nat.iter k deposit x) 1) as [Hlt | Hge].
  - apply Qle_lt_trans with (Nat.iter k deposit x); [exact Hlo|].
    apply deposit_grows, Hlt.
  - apply Qlt_le_trans with 1; [exact H|].
    apply Qle_trans with (Nat.iter k deposit x); [exact Hge|].
    apply deposit_above, Hhi.
Qed.

Lemma voxelOf_negative (L : Z) (x : Q) :
  (0 < L)%Z -> x < 0 -> (voxelOf (1 / inject_Z L) (L - 1) x < 0)%Z.
Proof.
  intros HL Hx. unfold voxelOf.
  assert (HLq : 0 < inject_Z L).
  { change 0 with (inject_Z 0). rewrite <- Zlt_Qlt. exact HL. }
  assert (Hd : x / (1 / inject_Z L) == x * inject_Z L).
  { field. intro Hz. rewrite Hz in HLq. apply (Qlt_irrefl 0 HLq). }
  assert (Hneg : x * inject_Z L < 0).
  { setoid_replace 0 with (0 * inject_Z L) by ring.
    apply Qmult_lt_compat_r; assumption. }
  assert (Hfl : (Qfloor (x / (1 / inject_Z L)) < 0)%Z).
  { rewrite Hd.
    destruct (Z_lt_le_dec (Qfloor (x * inject_Z L)) 0) as [Hl | Hg]; [exact Hl|].
    exfalso. apply (Qlt_irrefl 0).
    apply Qle_lt_trans with (x * inject_Z L); [|exact Hneg].
    apply Qle_trans with (inject_Z (Qfloor (x * inject_Z L))); [|apply Qfloor_le].
    change 0 with (inject_Z 0). rewrite <- Zle_Qle. exact Hg. }
  lia.
Qed.

Lemma hits_own posAll typesAll L n c :
  (c < n)%nat ->
  (1 <= hits posAll typesAll L n (substanceOf (typesAll c))
          (voxelOf (1 / inject_Z L) (L - 1) (c0 (posAll c)))
          (voxelOf (1 / inject_Z L) (L - 1) (c1 (posAll c)))
          (voxelOf (1 / inject_Z L) (L - 1) (c2 (posAll c))))%nat.
Proof.
  intro Hc. unfold hits.
  match goal with |- (1 <= length (filter ?f ?l))%nat =>
    assert (Hin : In c (filter f l)) end.
  { apply filter_In. split; [apply in_seq; lia|].
    unfold depositsAt, voxelOf. cbv zeta. apply sameVoxel_refl. }
  match goal with |- (1 <= length ?l)%nat => destruct l end;
    [destruct Hin|simpl; lia].
Qed.

(** X13.  produceSubstances guards a voxel index from above only.  A cell
    [c < n] with a negative coordinate gets a negative index on that axis,
    so its deposit goes to a slot outside the [L^3] grid, and that slot,
    when it held less than 1, holds more after the call. *)
Theorem produceSubstances_writes_below_grid
    (Conc : field) (posAll : nat -> vec3) (typesAll : nat -> Z) (L : Z)
    (n c : nat) :
  (0 < L)%Z -> (c < n)%nat ->
  c0 (posAll c) < 0 \/ c1 (posAll c) < 0 \/ c2 (posAll c) < 0 ->
  let s := substanceOf (typesAll c) in
  let i1 := voxelOf (1 / inject_Z L) (L - 1) (c0 (posAll c)) in
  let i2 := voxelOf (1 / inject_Z L) (L - 1) (c1 (posAll c)) in
  let i3 := voxelOf (1 / inject_Z L) (L - 1) (c2 (posAll c)) in
  (i1 < 0 \/ i2 < 0 \/ i3 < 0)%Z
  /\ inGrid L (i1, i2, i3) = false
  /\ (Conc s i1 i2 i3 < 1 ->
      Conc s i1 i2 i3 < produceSubstances Conc posAll typesAll L n s i1 i2 i3).
Proof.
  intros HL Hc Hneg. cbv zeta.
  assert (Hidx : (voxelOf (1 / inject_Z L) (L - 1) (c0 (posAll c)) < 0
                  \/ voxelOf (1 / inject_Z L) (L - 1) (c1 (posAll c)) < 0
                  \/ voxelOf (1 / inject_Z L) (L - 1) (c2 (posAll c)) < 0)%Z).
  { destruct Hneg as [H | [H | H]];
      [left|right; left|right; right]; apply voxelOf_negative; assumption. }
  split; [exact Hidx|]. split.
  - destruct (inGrid L _) eqn:E; [|reflexivity].
    apply inGrid_iff in E. lia.
  - intro Hlt. rewrite produceSubstances_iter.
    apply iter_deposit_grows; [apply hits_own, Hc|exact Hlt].
Qed.

(** ** Length of a clustering move *)






Lemma sum3_totalMass L C s :
  totalMass L C s
  = sum3 (Z.to_nat L) (fun a b c => C s (Z.of_nat a) (Z.of_nat b) (Z.of_nat c)).
Proof. reflexivity. Qed.

(** X5.  runDecayStep multiplies every voxel of the grid, of both
    substances, by [1 - mu], and changes nothing else; the total amount of a
    substance on the grid is multiplied by [1 - mu] as well. *)
Theorem runDecayStep_scales (Conc : field) (L : Z) (mu : Q) (s : Z) :
  s = 0%Z \/ s = 1%Z ->
  (forall a b c, inGrid L (a, b, c) = true ->
     runDecayStep Conc L mu s a b c = Conc s a b c * (1 - mu))
  /\ (forall s' a b c, inGrid L (a, b, c) = false ->
        runDecayStep Conc L mu s' a b c = Conc s' a b c)
  /\ totalMass L (runDecayStep Conc L mu) s == (1 - mu) * totalMass L Conc s.
Proof.
  intro Hs. split; [|split].
  - intros a b c Hg. apply runDecayStep_at; assumption.
  - intros s' a b c Hg. apply runDecayStep_at. intros (_ & H). congruence.
  - rewrite !sum3_totalMass. rewrite <- sum3_scale. apply sum3_ext.
    intros a b c Ha Hb Hc.
    destruct (runDecayStep_at Conc L mu s (Z.of_nat a) (Z.of_nat b) (Z.of_nat c))
      as (H & _).
    rewrite H; [ring|exact Hs|apply inGrid_iff; lia].
Qed.

(** X6.  For a diffusion constant between 0 and 1/2, a diffusion step
    keeps every voxel of the grid within the bounds that held for the grid
    before it: no new maximum or minimum appears.  In exact arithmetic the
    same holds up to [D = 1] (lemma [diffusion_within]); the theorem stops
    at 1/2, where the weight [1 - D] that a voxel keeps of its own value is
    large enough to cover the rounding of the six binary32 updates, which
    at [D = 1] takes a voxel past the bound. *)
Theorem runDiffusionStep_within
    (stack Conc : field) (L : Z) (D lo hi : Q) :
  0 <= D <= 1 # 2 ->
  fieldWithin L lo hi Conc ->
  fieldWithin L lo hi (runDiffusionStep stack Conc L D).
Proof. intros HD. apply diffusion_within. lra. Qed.

(** ** The mesh and the cells through the two phases *)

Lemma zeroVoxel_at a b c C s :
  s = 0%Z \/ s = 1%Z -> zeroVoxel a b c C s a b c = 0.
Proof.
  intros [-> | ->]; unfold zeroVoxel; cbv zeta.
  - rewrite store_other by (intros (? & _); discriminate). apply store_same.
  - apply store_same.
Qed.

Lemma zeroVoxel_other i j k C s a b c :
  ~ (a = i /\ b = j /\ c = k) -> zeroVoxel i j k C s a b c = C s a b c.
Proof.
  intro H. unfold zeroVoxel; cbv zeta.
  rewrite !store_other; [reflexivity| |]; intros (_ & ? & ? & ?); apply H; auto.
Qed.

Lemma main_init_mesh P heap s a b c :
  (s = 0%Z \/ s = 1%Z -> inGrid (L P) (a, b, c) = true ->
     Conc (main_init P heap) s a b c = 0)
  /\ (inGrid (L P) (a, b, c) = false ->
      Conc (main_init P heap) s a b c = Conc heap s a b c).
Proof.
  unfold main_init. cbv zeta. cbn [Conc].
  match goal with |- context [forUp (finalNumberCells P) (initCell heap) ?s0] =>
    destruct (initLoop_spec heap (finalNumberCells P) s0) as (_ & _ & I3 & _);
    set (r := forUp (finalNumberCells P) (initCell heap) s0) in *
  end.
  cbn [Conc] in I3. split.
  - intros Hs Hg. apply inGrid_iff in Hg. destruct Hg as (Ha & Hb & Hc).
    rewrite (grid_loop_hit (fun t : field => t s a b c) (L P)
               (fun i1 i2 i3 => zeroVoxel i1 i2 i3) (Conc r) a b c Ha Hb Hc).
    + apply zeroVoxel_at, Hs.
    + intros i j k t H. apply zeroVoxel_other. intros (-> & -> & ->). apply H; auto.
    + intros t t' _. rewrite !zeroVoxel_at by exact Hs. reflexivity.
  - intro Hg.
    rewrite (grid_loop_frame (fun t : field => t s a b c) (L P)
               (fun i1 i2 i3 => zeroVoxel i1 i2 i3) (Conc r)).
    + rewrite I3. reflexivity.
    + intros i j k t Hi Hj Hk. apply zeroVoxel_other. intros (-> & -> & ->).
      assert (inGrid (L P) (i, j, k) = true) by (apply inGrid_iff; auto).
      congruence.
Qed.

Section MeshInvariant.
Variable rnd : nat -> Q.
Variable sqrtF : Q -> Q.
Variable stack : field.
Variable P : cdc_params.
Hypothesis D_range : 0 <= D P <= 1.
Hypothesis mu_range : 0 <= mu P <= 1.

Lemma mesh_pass_within C posAll typesAll n :
  fieldWithin (L P) 0 1 C ->
  fieldWithin (L P) 0 1
    (runDecayStep
       (runDiffusionStep stack (produceSubstances C posAll typesAll (L P) n)
          (L P) (D P))
       (L P) (mu P)).
Proof.
  intro H. apply runDecayStep_within; [exact mu_range|].
  apply diffusion_within; [exact D_range|].
  apply produceSubstances_within, H.
Qed.

Lemma phase1Step_mesh st :
  fieldWithin (L P) 0 1 (Conc st) ->
  fieldWithin (L P) 0 1 (Conc (phase1Step rnd sqrtF stack P st)).
Proof. intro H. apply mesh_pass_within, H. Qed.

Lemma phase2Step_mesh st :
  fieldWithin (L P) 0 1 (Conc st) ->
  fieldWithin (L P) 0 1 (Conc (phase2Step sqrtF stack P st)).
Proof. intro H. apply mesh_pass_within, H. Qed.

Lemma phase2_mesh st :
  fieldWithin (L P) 0 1 (Conc st) ->
  fieldWithin (L P) 0 1 (Conc (phase2 sqrtF stack P st)).
Proof.
  unfold phase2. generalize (T P) as t. intro t. revert st.
  induction t as [|t IH]; intros st H; simpl; [exact H|].
  apply IH, phase2Step_mesh, H.
Qed.

Lemma main_init_mesh_within heap : fieldWithin (L P) 0 1 (Conc (main_init P heap)).
Proof.
  intros s a b c Hs Hg.
  destruct (main_init_mesh P heap s a b c) as (H & _).
  rewrite (H Hs Hg). split; [apply Qle_refl|discriminate].
Qed.
End MeshInvariant.

(** X11.  With the diffusion constant in [0,1/2] and the decay fraction
    in [0,1], the concentrations on the grid stay in [0,1] through the whole
    run: the mesh that [main] sets up is zero on the grid, every pass of
    phase 1 and of phase 2 (production, diffusion, decay) keeps the range, so
    it holds when phase 1 ends and after the [T] passes of phase 2.  (The
    range of [D] is that of [runDiffusionStep_within].) *)
Theorem mesh_stays_in_unit_range
    (rnd : nat -> Q) (sqrtF : Q -> Q) (stack : field) (heap : Sim)
    (P : cdc_params) (fuel : nat) (st : Sim) :
  0 <= D P <= 1 # 2 -> 0 <= mu P <= 1 ->
  phase1 rnd sqrtF stack P fuel (main_init P heap) = Some st ->
  fieldWithin (L P) 0 0 (Conc (main_init P heap))
  /\ fieldWithin (L P) 0 1 (Conc st)
  /\ fieldWithin (L P) 0 1 (Conc (phase2 sqrtF stack P st)).
Proof.
  intros HD' Hmu Hrun.
  assert (HD : 0 <= D P <= 1) by lra.
  assert (H1 : fieldWithin (L P) 0 1 (Conc st)).
  { apply (phase1_guarded_invariant rnd sqrtF stack P
             (fun s => fieldWithin (L P) 0 1 (Conc s))
             (fun s _ H => phase1Step_mesh rnd sqrtF stack P HD Hmu s H)
             fuel (main_init P heap) st);
      [apply main_init_mesh_within|exact Hrun]. }
  split; [|split; [exact H1|apply phase2_mesh; assumption]].
  intros s a b c Hs Hg. destruct (main_init_mesh P heap s a b c) as (H & _).
  rewrite (H Hs Hg). split; apply Qle_refl.
Qed.

Section Phase2Extra.
Variable sqrtF : Q -> Q.
Variable stack : field.
Variable P : cdc_params.

Lemma phase2Step_frame st :
  let st' := phase2Step sqrtF stack P st in
  n st' = n st
  /\ typesAll (pop st') = typesAll (pop st)
  /\ numberDivisions (pop st') = numberDivisions (pop st)
  /\ pathTraveled (pop st') = pathTraveled (pop st)
  /\ rng (pop st') = rng (pop st)
  /\ (forall c, (n st <= c)%nat ->
        posAll (pop st') c = posAll (pop st) c /\ currMov st' c = currMov st c).
Proof.
  cbv zeta. unfold phase2Step, n. cbv zeta. cbn [pop currMov]. proj_pop.
  repeat split; try reflexivity.
  - apply (forDown_frame (fun pos : nat -> vec3 => pos c)).
    intros j t Hj. apply moveCell_other. lia.
  - apply runDiffusionClusterStep_inactive. exact H.
Qed.

Lemma phase2Step_position st c :
  (c < n st)%nat ->
  let st' := phase2Step sqrtF stack P st in
  posAll (pop st') c =
  mkVec (clampCoord (c0 (posAll (pop st) c) + c0 (currMov st' c)))
        (clampCoord (c1 (posAll (pop st) c) + c1 (currMov st' c)))
        (clampCoord (c2 (posAll (pop st) c) + c2 (currMov st' c))).
Proof.
  intro Hc. cbv zeta. unfold phase2Step. cbv zeta. cbn [pop currMov]. proj_pop.
  rewrite (forDown_hit (fun pos : nat -> vec3 => pos c) (n st) _ c Hc).
  - apply moveCell_at.
  - intros j t _ Hj. apply moveCell_other. auto.
  - intros t t' Ht. rewrite !moveCell_at, Ht. reflexivity.
Qed.

Lemma phase2_frame t :
  forall st,
    let st' := forDown t (fun _ => phase2Step sqrtF stack P) st in
    n st' = n st
    /\ typesAll (pop st') = typesAll (pop st)
    /\ numberDivisions (pop st') = numberDivisions (pop st)
    /\ pathTraveled (pop st') = pathTraveled (pop st)
    /\ rng (pop st') = rng (pop st)
    /\ (forall c, (n st <= c)%nat -> posAll (pop st') c = posAll (pop st) c)
    /\ ((1 <= t)%nat -> forall c, (c < n st)%nat -> inCube (posAll (pop st') c)).
Proof.
  induction t as [|t IH]; intro st; cbv zeta.
  - simpl. repeat split; try reflexivity; lia.
  - simpl forDown.
    destruct (phase2Step_frame st) as (F1 & F2 & F3 & F4 & F5 & F6).
    cbv zeta in F1, F2, F3, F4, F5, F6.
    specialize (IH (phase2Step sqrtF stack P st)). cbv zeta in IH.
    destruct IH as (I1 & I2 & I3 & I4 & I5 & I6 & I7).
    rewrite I1, I2, I3, I4, I5, F1, F2, F3, F4, F5.
    split; [reflexivity|]. split; [reflexivity|]. split; [reflexivity|].
    split; [reflexivity|]. split; [reflexivity|]. split.
    + intros c Hc. rewrite I6 by (rewrite F1; exact Hc). apply F6, Hc.
    + intros _ c Hc. destruct t as [|t].
      * simpl. apply phase2Step_in_cube, Hc.
      * apply I7; [lia|rewrite F1; exact Hc].
Qed.
End Phase2Extra.

(** X12.  Phase 2 moves cells and nothing else: after its [T] passes the
    count, the types, the division counts, the paths and the position in the
    random stream are what they were, slots at or above the count are
    untouched, and, when [T >= 1], every active cell lies in the unit cube.
    One pass puts an active cell at its position plus its movement vector,
    each coordinate cut to [0,1]. *)
Theorem phase2_moves_cells_only
    (sqrtF : Q -> Q) (stack : field) (P : cdc_params) (st : Sim) :
  let st' := phase2 sqrtF stack P st in
  let st1 := phase2Step sqrtF stack P st in
  n st' = n st
  /\ typesAll (pop st') = typesAll (pop st)
  /\ numberDivisions (pop st') = numberDivisions (pop st)
  /\ pathTraveled (pop st') = pathTraveled (pop st)
  /\ rng (pop st') = rng (pop st)
  /\ (forall c, (n st <= c)%nat -> posAll (pop st') c = posAll (pop st) c)
  /\ ((1 <= T P)%nat -> forall c, (c < n st)%nat -> inCube (posAll (pop st') c))
  /\ (forall c, (c < n st)%nat ->
        posAll (pop st1) c =
        mkVec (clampCoord (c0 (posAll (pop st) c) + c0 (currMov st1 c)))
              (clampCoord (c1 (posAll (pop st) c) + c1 (currMov st1 c)))
              (clampCoord (c2 (posAll (pop st) c) + c2 (currMov st1 c)))).
Proof.
  cbv zeta.
  destruct (phase2_frame sqrtF stack P (T P) st) as (I1 & I2 & I3 & I4 & I5 & I6 & I7).
  cbv zeta in *. unfold phase2.
  do 7 (split; [assumption|]).
  intros c Hc. apply phase2Step_position, Hc.
Qed.

(** ** The theorems at sample inputs *)

Lemma produceSubstances_deposits_and_bounds_witness :
  ((0 < 2)%Z
   /\ (forall s i j k, s = 0%Z \/ s = 1%Z -> inGrid 2 (i, j, k) = true ->
         0 <= zeroField s i j k <= 1)
   /\ (forall c, (c < 3)%nat -> inCube (twinPos c)))
  /\ produceSubstances zeroField twinPos twinTypes 2 3 0%Z 1%Z 1%Z 1%Z
     = Nat.iter (hits twinPos twinTypes 2 3 0%Z 1%Z 1%Z 1%Z) deposit
         (zeroField 0%Z 1%Z 1%Z 1%Z).
Proof.
  assert (H1 : (0 < 2)%Z) by reflexivity.
  assert (H2 : forall s i j k, s = 0%Z \/ s = 1%Z -> inGrid 2 (i, j, k) = true ->
                 0 <= zeroField s i j k <= 1).
  { intros s i j k _ _. unfold zeroField. split; [apply Qle_refl|discriminate]. }
  assert (H3 : forall c, (c < 3)%nat -> inCube (twinPos c)).
  { intros c _. unfold inCube, twinPos. cbn. repeat split; discriminate. }
  split; [auto|].
  apply (produceSubstances_deposits_and_bounds zeroField twinPos twinTypes 2 3 H1 H2 H3).
Defined.

Lemma runDiffusionStep_snapshot_laplacian_witness :
  ((0 = 0 \/ 0 = 1) /\ (0 <= 1 < 3) /\ (0 <= 1 < 3) /\ (0 <= 1 < 3))%Z
  /\ runDiffusionStep zeroField rampField 3 (1 # 10) 0%Z 1%Z 1%Z 1%Z =
     fold_left
       (fun acc nb => let '(j1, j2, j3) := nb in
          acc + (rampField 0%Z j1 j2 j3 - rampField 0%Z 1%Z 1%Z 1%Z) * ((1 # 10) / 6))
       (filter (inGrid 3) (neighbours 1 1 1))
       (rampField 0%Z 1%Z 1%Z 1%Z).
Proof.
  assert (Hs : (0 = 0 \/ 0 = 1)%Z) by (left; reflexivity).
  assert (Hr : (0 <= 1 < 3)%Z) by (split; [discriminate|reflexivity]).
  split; [auto|].
  apply (runDiffusionStep_snapshot_laplacian zeroField rampField 3 (1 # 10)
           0 1 1 1 Hs Hr Hr Hr).
Defined.

Lemma growth_step_division_rule_witness :
  (0 < 1)%nat
  /\ currentNumberCells
       (cellMovementAndDuplication rndEast sqrt24 (1 # 20) 3 1 seedPop)
     = (1 + length (filter (divides (1 # 20) 3 seedPop) (seq 0 1)))%nat.
Proof.
  split; [apply Nat.lt_0_1|].
  apply (growth_step_division_rule rndEast sqrt24 (1 # 20) 3 seedPop 1 0 Nat.lt_0_1).
Defined.

Lemma clusterStep_movement_witness :
  ((0 < 1)%nat
   /\ 0 < l2norm sqrt24 (centralDifference crossField 0 4 (twinPos 0%nat))
   /\ 0 < l2norm sqrt24 (centralDifference crossField 1 4 (twinPos 0%nat)))
  /\ (c0 (centralDifference crossField 0 4 (twinPos 0%nat)) == 4
      /\ c1 (centralDifference crossField 0 4 (twinPos 0%nat)) == 0
      /\ c0 (centralDifference crossField 1 4 (twinPos 0%nat)) == 0
      /\ c1 (centralDifference crossField 1 4 (twinPos 0%nat)) == 4)
  /\ let g1 := centralDifference crossField 0 4 (twinPos 0%nat) in
     let g2 := centralDifference crossField 1 4 (twinPos 0%nat) in
     let n1 := l2norm sqrt24 g1 in
     let n2 := l2norm sqrt24 g2 in
     let t := inject_Z (twinTypes 0%nat) in
     let mv := runDiffusionClusterStep sqrt24 crossField (fun _ => zeroVec) twinPos
                 twinTypes 1 4 (1 # 100) 0%nat in
     ~ n1 == 0 /\ ~ n2 == 0
     /\ c0 mv == t * (1 # 100) * (c0 g1 / n1 - c0 g2 / n2)
     /\ c1 mv == t * (1 # 100) * (c1 g1 / n1 - c1 g2 / n2)
     /\ c2 mv == t * (1 # 100) * (c2 g1 / n1 - c2 g2 / n2).
Proof.
  assert (H1 : 0 < l2norm sqrt24 (centralDifference crossField 0 4 (twinPos 0%nat)))
    by reflexivity.
  assert (H2 : 0 < l2norm sqrt24 (centralDifference crossField 1 4 (twinPos 0%nat)))
    by reflexivity.
  split; [split; [exact Nat.lt_0_1|split; [exact H1|exact H2]]|].
  split; [repeat split|].
  apply (clusterStep_movement sqrt24 crossField (fun _ => zeroVec) twinPos twinTypes
           1 4 (1 # 100) 0 Nat.lt_0_1). split; [exact H1|exact H2].
Defined.

Lemma gradient_divisors_nonzero_witness :
  ((0 < 2)%Z /\ inCube (twinPos 0%nat))
  /\ ((2 <= 2)%Z -> ~ c0 (gradDenominators 2 (twinPos 0%nat)) == 0).
Proof.
  assert (H1 : (0 < 2)%Z) by reflexivity.
  assert (H2 : inCube (twinPos 0%nat)).
  { unfold inCube, twinPos. cbn. repeat split; discriminate. }
  split; [auto|].
  intro HL.
  apply (gradient_divisors_nonzero 2 (twinPos 0%nat) H1 H2). exact HL.
Defined.

(** The sample criterion run: two cells at the same point, one close pair
    of equal types, and too few neighbours. *)
Example getCriterion_twins :
  getCriterion sqrt24 cbrt24 round27 twinPos emptySubVol twinPos twinTypes 2 1 1
  = false.
Proof. vm_compute. reflexivity. Qed.

(** Three cells in one voxel raise it by 0.3; twelve fill it to the cap. *)
Example produceSubstances_three :
  produceSubstances zeroField twinPos twinTypes 2 3 0%Z 1%Z 1%Z 1%Z == 3 # 10.
Proof. vm_compute. reflexivity. Qed.

Example produceSubstances_twelve :
  produceSubstances zeroField twinPos twinTypes 2 12 0%Z 1%Z 1%Z 1%Z == 1.
Proof. vm_compute. reflexivity. Qed.

(** A corner voxel of a 3x3x3 ramp has three neighbours in the grid. *)
Example runDiffusionStep_corner :
  runDiffusionStep zeroField rampField 3 (6 # 10) 0%Z 0%Z 0%Z 0%Z == 6 # 10.
Proof. vm_compute. reflexivity. Qed.

(** On [crossField], resolution 4, a cell of type +1 in the middle moves
    by [speed * (1, -1, 0)]. *)
Example clusterStep_cross :
  let mv := runDiffusionClusterStep sqrt24 crossField (fun _ => zeroVec)
              twinPos twinTypes 1 4 (1 # 100) 0%nat in
  c0 mv == 1 # 100 /\ c1 mv == - (1 # 100) /\ c2 mv == 0.
Proof. vm_compute. repeat split; reflexivity. Qed.

(** One growth step of the seed with [pathThreshold = 0.05]: the seed
    moves to x = 0.6 and its daughter of type -1 appears at x = 0.65. *)
Example growth_step_seed :
  let q := cellMovementAndDuplication rndEast sqrt24 (1 # 20) 3 1 seedPop in
  currentNumberCells q = 2%nat
  /\ c0 (posAll q 0%nat) == 6 # 10
  /\ c0 (posAll q 1%nat) == 65 # 100
  /\ typesAll q 1%nat = (-1)%Z
  /\ numberDivisions q 0%nat = 1%Z /\ numberDivisions q 1%nat = 1%Z
  /\ pathTraveled q 0%nat == 1 # 20.
Proof. vm_compute. repeat split; reflexivity. Qed.

(** ** Populations on which the criterion is run *)

Lemma round27_rounds : roundsToFloat round27.
Proof.
  split; [|split; reflexivity].
  intros x y Hxy. unfold round27, Qle. cbn [Qnum Qden].
  apply Z.mul_le_mono_nonneg_r; [discriminate|].
  apply Qfloor_resp_le.
  assert (H : x * inject_Z 134217728 <= y * inject_Z 134217728).
  { apply Qmult_le_compat_r; [exact Hxy|discriminate]. }
  lra.
Qed.




(** The population of [tenthPos] and [tenthTypes]: 292 cells in the
    subvolume, 34859 close pairs, of which 3486 of different types. *)
Lemma tenth_counts :
  Z.of_nat (length (subvolCells cbrt24 tenthPos 292 292)) = 292%Z
  /\ Z.of_nat (length (closePairs sqrt24 cbrt24 tenthPos 292 (1 # 10) 292)) = 34859%Z
  /\ Z.of_nat (nDiffClose sqrt24 cbrt24 tenthPos tenthTypes 292 (1 # 10) 292) = 3486%Z
  /\ Z.of_nat (nSameClose sqrt24 cbrt24 tenthPos tenthTypes 292 (1 # 10) 292) = 31373%Z.
Proof. vm_compute. repeat split; reflexivity. Qed.

Lemma tenthTypes_signed (i : nat) :
  (i < 292)%nat -> tenthTypes i = 1%Z \/ tenthTypes i = (-1)%Z.
Proof.
  intros _. unfold tenthTypes.
  destruct (i <? 249)%nat; [left; reflexivity|].
  destruct (i <? 263)%nat; [right|left]; reflexivity.
Qed.

(** ** Instances of the further properties *)

Lemma sqrt24_nonneg (x : Q) : 0 <= sqrt24 x.
Proof.
  unfold sqrt24, Qle. cbn [Qnum Qden]. rewrite Z.mul_1_r, Z.mul_0_l.
  apply Z.sqrt_nonneg.
Qed.


Lemma rampField_within : fieldWithin 2 0 7 rampField.
Proof.
  intros s a b c Hs Hg. apply inGrid_iff in Hg. unfold rampField.
  change 0 with (inject_Z 0). change 7 with (inject_Z 7).
  rewrite <- !Zle_Qle. lia.
Qed.

Lemma twin_close_pairs :
  (Z.of_nat (length (closePairs sqrt24 cbrt24 twinPos 2 1 1)) <= 167772)%Z.
Proof. vm_compute. discriminate. Qed.

Lemma getEnergy_over_close_pairs_witness :
  ((forall i, (i < 2)%nat -> mixedTypes i = 1%Z \/ mixedTypes i = (-1)%Z)
   /\ (Z.of_nat (length (closePairs sqrt24 cbrt24 twinPos 2 1 1)) <= 167772)%Z)
  /\ getEnergy sqrt24 cbrt24 twinPos emptySubVol twinPos mixedTypes 2 1 1
     == (extraEnergy sqrt24 cbrt24 twinPos mixedTypes 2 1 1
         - intraEnergy sqrt24 cbrt24 twinPos mixedTypes 2 1 1)
        / (1 + 100 * inject_Z (Z.of_nat
             (length (closePairs sqrt24 cbrt24 twinPos 2 1 1)))).
Proof.
  assert (Ht : forall i, (i < 2)%nat -> mixedTypes i = 1%Z \/ mixedTypes i = (-1)%Z).
  { intros i _. unfold mixedTypes. destruct (i =? 0)%nat; [left|right]; reflexivity. }
  split; [split; [exact Ht|exact twin_close_pairs]|].
  apply (getEnergy_over_close_pairs sqrt24 cbrt24 twinPos emptySubVol twinPos
           mixedTypes 2 1 1 Ht twin_close_pairs).
Defined.

Lemma getEnergy_bounded_witness :
  ((forall x, 0 <= sqrt24 x)
   /\ (Z.of_nat (length (closePairs sqrt24 cbrt24 twinPos 2 1 1)) <= 167772)%Z)
  /\ - (1) < getEnergy sqrt24 cbrt24 twinPos emptySubVol twinPos twinTypes 2 1 1
  /\ getEnergy sqrt24 cbrt24 twinPos emptySubVol twinPos twinTypes 2 1 1 < 1.
Proof.
  split; [split; [exact sqrt24_nonneg|exact twin_close_pairs]|].
  apply (getEnergy_bounded sqrt24 cbrt24 twinPos emptySubVol twinPos twinTypes
           2 1 1 sqrt24_nonneg twin_close_pairs).
Defined.

Lemma getEnergy_one_type_nonpositive_witness :
  ((forall x, 0 <= sqrt24 x)
   /\ (forall i j, (i < 2)%nat -> (j < 2)%nat -> (0 < twinTypes i * twinTypes j)%Z)
   /\ (length (subvolCells cbrt24 twinPos 1 1) <= 1)%nat)
  /\ getEnergy sqrt24 cbrt24 twinPos emptySubVol twinPos twinTypes 2 1 1 <= 0
  /\ getEnergy sqrt24 cbrt24 twinPos emptySubVol twinPos mixedTypes 1 1 1 == 0.
Proof.
  assert (H : forall i j, (i < 2)%nat -> (j < 2)%nat ->
                (0 < twinTypes i * twinTypes j)%Z).
  { intros i j _ _. reflexivity. }
  assert (Hone : (length (subvolCells cbrt24 twinPos 1 1) <= 1)%nat).
  { vm_compute. apply le_n. }
  split; [split; [exact sqrt24_nonneg|split; [exact H|exact Hone]]|].
  split.
  - apply (proj1 (getEnergy_one_type_nonpositive sqrt24 cbrt24 twinPos emptySubVol
                    twinPos twinTypes 2 1 1) sqrt24_nonneg H).
  - apply (proj2 (getEnergy_one_type_nonpositive sqrt24 cbrt24 twinPos emptySubVol
                    twinPos mixedTypes 1 1 1) Hone).
Defined.


Lemma runDecayStep_scales_witness :
  (0%Z = 0%Z \/ 0%Z = 1%Z)
  /\ (forall a b c, inGrid 2 (a, b, c) = true ->
        runDecayStep rampField 2 (1 # 10) 0%Z a b c
        = rampField 0%Z a b c * (1 - (1 # 10)))
  /\ (forall s' a b c, inGrid 2 (a, b, c) = false ->
        runDecayStep rampField 2 (1 # 10) s' a b c = rampField s' a b c)
  /\ totalMass 2 (runDecayStep rampField 2 (1 # 10)) 0
     == (1 - (1 # 10)) * totalMass 2 rampField 0.
Proof.
  split; [left; reflexivity|].
  apply (runDecayStep_scales rampField 2 (1 # 10) 0). left. reflexivity.
Defined.

Lemma runDiffusionStep_within_witness :
  (0 <= 1 # 2 <= 1 # 2 /\ fieldWithin 2 0 7 rampField)
  /\ fieldWithin 2 0 7 (runDiffusionStep zeroField rampField 2 (1 # 2)).
Proof.
  assert (HD : 0 <= 1 # 2 <= 1 # 2) by (split; discriminate).
  split; [split; [exact HD|exact rampField_within]|].
  apply (runDiffusionStep_within zeroField rampField 2 (1 # 2) 0 7 HD rampField_within).
Defined.

Lemma runDiffusionStep_conserves_mass_witness :
  (0%Z = 0%Z \/ 0%Z = 1%Z)
  /\ totalMass 2 (runDiffusionStep zeroField rampField 2 (1 # 2)) 0
     == totalMass 2 rampField 0.
Proof.
  split; [left; reflexivity|].
  apply (runDiffusionStep_conserves_mass zeroField rampField 2 (1 # 2) 0).
  left. reflexivity.
Defined.

Lemma phase1_result_invariants_witness :
  (0 <= divThreshold (scenarioParams (1 # 20)))%Z
  /\ exists fuel st,
       phase1 rndEast sqrt24 zeroField (scenarioParams (1 # 20)) fuel
         (main_init (scenarioParams (1 # 20)) heapCalm) = Some st
       /\ (finalNumberCells (scenarioParams (1 # 20)) <= n st)%nat
       /\ (1 <= n st
           <= Nat.max 1 (2 * (finalNumberCells (scenarioParams (1 # 20)) - 1)))%nat
       /\ (Z.of_nat (n st) <= 2 ^ divThreshold (scenarioParams (1 # 20)))%Z
       /\ forall c, (c < n st)%nat ->
            (typesAll (pop st) c = 1%Z \/ typesAll (pop st) c = (-1)%Z)
            /\ (0 <= numberDivisions (pop st) c
                <= divThreshold (scenarioParams (1 # 20)))%Z
            /\ ((1 <= c)%nat -> inCube (posAll (pop st) c)).
Proof.
  assert (Hd : (0 <= divThreshold (scenarioParams (1 # 20)))%Z) by discriminate.
  split; [exact Hd|].
  destruct (phase1_reaches_full rndEast sqrt24 zeroField heapCalm
              (scenarioParams (1 # 20)) Hd eq_refl) as (fuel & st & Hrun & _).
  exists fuel, st. split; [exact Hrun|].
  apply (phase1_result_invariants rndEast sqrt24 zeroField heapCalm
           (scenarioParams (1 # 20)) fuel st Hd Hrun).
Defined.

Lemma phase1_terminates_iff_witness :
  (0 <= divThreshold walkParams)%Z
  /\ ((exists fuel st,
         phase1 rndEast sqrt24 zeroField walkParams fuel
           (main_init walkParams heapCalm) = Some st) ->
      (Z.of_nat (finalNumberCells walkParams) <= 2 ^ divThreshold walkParams)%Z)
  /\ ((2 ^ divThreshold walkParams < Z.of_nat (finalNumberCells walkParams))%Z ->
      forall fuel,
        phase1 rndEast sqrt24 zeroField walkParams fuel
          (main_init walkParams heapCalm) = None)
  /\ (0 < pathThreshold walkParams <= 2097151 ->
      (Z.of_nat (finalNumberCells walkParams) <= 2 ^ divThreshold walkParams)%Z ->
      exists fuel st,
        phase1 rndEast sqrt24 zeroField walkParams fuel
          (main_init walkParams heapCalm) = Some st).
Proof.
  assert (Hd : (0 <= divThreshold walkParams)%Z) by discriminate.
  split; [exact Hd|].
  apply (phase1_terminates_iff rndEast sqrt24 zeroField heapCalm walkParams Hd).
Defined.

Lemma mesh_stays_in_unit_range_witness :
  (0 <= D (scenarioParams (1 # 20)) <= 1 # 2
   /\ 0 <= mu (scenarioParams (1 # 20)) <= 1)
  /\ exists fuel st,
       phase1 rndEast sqrt24 zeroField (scenarioParams (1 # 20)) fuel
         (main_init (scenarioParams (1 # 20)) heapCalm) = Some st
       /\ fieldWithin (L (scenarioParams (1 # 20))) 0 0
            (Conc (main_init (scenarioParams (1 # 20)) heapCalm))
       /\ fieldWithin (L (scenarioParams (1 # 20))) 0 1 (Conc st)
       /\ fieldWithin (L (scenarioParams (1 # 20))) 0 1
            (Conc (phase2 sqrt24 zeroField (scenarioParams (1 # 20)) st)).
Proof.
  assert (HD : 0 <= D (scenarioParams (1 # 20)) <= 1 # 2) by (split; discriminate).
  assert (Hmu : 0 <= mu (scenarioParams (1 # 20)) <= 1) by (split; discriminate).
  assert (Hd : (0 <= divThreshold (scenarioParams (1 # 20)))%Z) by discriminate.
  split; [split; assumption|].
  destruct (phase1_reaches_full rndEast sqrt24 zeroField heapCalm
              (scenarioParams (1 # 20)) Hd eq_refl) as (fuel & st & Hrun & _).
  exists fuel, st. split; [exact Hrun|].
  apply (mesh_stays_in_unit_range rndEast sqrt24 zeroField heapCalm
           (scenarioParams (1 # 20)) fuel st HD Hmu Hrun).
Defined.

Lemma produceSubstances_writes_below_grid_witness :
  ((0 < 2)%Z /\ (0 < 1)%nat
   /\ (c0 (strayPos 0%nat) < 0 \/ c1 (strayPos 0%nat) < 0 \/ c2 (strayPos 0%nat) < 0))
  /\ let s := substanceOf (twinTypes 0%nat) in
     let i1 := voxelOf (1 / inject_Z 2) (2 - 1) (c0 (strayPos 0%nat)) in
     let i2 := voxelOf (1 / inject_Z 2) (2 - 1) (c1 (strayPos 0%nat)) in
     let i3 := voxelOf (1 / inject_Z 2) (2 - 1) (c2 (strayPos 0%nat)) in
     (i1 < 0 \/ i2 < 0 \/ i3 < 0)%Z
     /\ inGrid 2 (i1, i2, i3) = false
     /\ (zeroField s i1 i2 i3 < 1 ->
         zeroField s i1 i2 i3
         < produceSubstances zeroField strayPos twinTypes 2 1 s i1 i2 i3).
Proof.
  assert (HL : (0 < 2)%Z) by reflexivity.
  assert (Hneg : c0 (strayPos 0%nat) < 0 \/ c1 (strayPos 0%nat) < 0
                 \/ c2 (strayPos 0%nat) < 0) by (left; reflexivity).
  split; [split; [exact HL|split; [exact Nat.lt_0_1|exact Hneg]]|].
  apply (produceSubstances_writes_below_grid zeroField strayPos twinTypes 2 1 0
           HL Nat.lt_0_1 Hneg).
Defined.


(** ** The criterion at a ratio of exactly one tenth *)

Lemma getCriterion_rejects_ratio_one_tenth_witness :
  (roundsToFloat round27
   /\ (forall i, (i < 292)%nat -> tenthTypes i = 1%Z \/ tenthTypes i = (-1)%Z)
   /\ (10 * Z.of_nat (nDiffClose sqrt24 cbrt24 tenthPos tenthTypes 292 (1 # 10) 292)
       = Z.of_nat (length (closePairs sqrt24 cbrt24 tenthPos 292 (1 # 10) 292)) + 1)%Z)
  /\ (getCriterion sqrt24 cbrt24 round27 tenthPos emptySubVol tenthPos tenthTypes
        292 (1 # 10) 292 = false
      /\ inject_Z (Z.of_nat (nDiffClose sqrt24 cbrt24 tenthPos tenthTypes 292 (1 # 10) 292))
         / (inject_Z (Z.of_nat
              (length (closePairs sqrt24 cbrt24 tenthPos 292 (1 # 10) 292))) + 1)
         == 1 # 10)
  /\ ~ (inject_Z (Z.of_nat (length (subvolCells cbrt24 tenthPos 292 292)))
          < (1 # 4) * inject_Z 292
        \/ 4 * inject_Z 292
           < inject_Z (Z.of_nat (length (subvolCells cbrt24 tenthPos 292 292)))
        \/ 1 # 10
           < inject_Z (Z.of_nat
               (nDiffClose sqrt24 cbrt24 tenthPos tenthTypes 292 (1 # 10) 292))
             / (inject_Z (Z.of_nat
                  (length (closePairs sqrt24 cbrt24 tenthPos 292 (1 # 10) 292))) + 1)
        \/ inject_Z (Z.of_nat
             (nSameClose sqrt24 cbrt24 tenthPos tenthTypes 292 (1 # 10) 292))
           / inject_Z (Z.of_nat (length (subvolCells cbrt24 tenthPos 292 292)))
           < 100).
Proof.
  destruct tenth_counts as (Hm & Hclose & Hdiff & Hsame).
  assert (Hten : (10 * Z.of_nat (nDiffClose sqrt24 cbrt24 tenthPos tenthTypes 292
                                   (1 # 10) 292)
                  = Z.of_nat (length (closePairs sqrt24 cbrt24 tenthPos 292
                                        (1 # 10) 292)) + 1)%Z).
  { rewrite Hdiff, Hclose. reflexivity. }
  split; [split; [exact round27_rounds|split; [exact tenthTypes_signed|exact Hten]]|].
  split.
  - apply (getCriterion_rejects_ratio_one_tenth sqrt24 cbrt24 round27 tenthPos
             emptySubVol tenthPos tenthTypes 292 (1 # 10) 292 round27_rounds
             tenthTypes_signed Hten).
  - rewrite Hm, Hclose, Hdiff, Hsame.
    intros [H | [H | [H | H]]]; vm_compute in H; discriminate H.
Defined.

Lemma getCriterion_false_iff_witness :
  (roundsToFloat round27
   /\ (0 < 292 <= 2097152)%Z
   /\ (forall i, (i < 292)%nat -> tenthTypes i = 1%Z \/ tenthTypes i = (-1)%Z)
   /\ (Z.of_nat (length (subvolCells cbrt24 tenthPos 292 292)) <= 131072)%Z
   /\ (Z.of_nat (length (closePairs sqrt24 cbrt24 tenthPos 292 (1 # 10) 292)) + 1
       <= 16777216)%Z)
  /\ (getCriterion sqrt24 cbrt24 round27 tenthPos emptySubVol tenthPos tenthTypes
        292 (1 # 10) 292 = false
      <-> (4 * Z.of_nat (length (subvolCells cbrt24 tenthPos 292 292)) < 292
           \/ 4 * 292 < Z.of_nat (length (subvolCells cbrt24 tenthPos 292 292))
           \/ Z.of_nat (length (closePairs sqrt24 cbrt24 tenthPos 292 (1 # 10) 292)) + 1
              <= 10 * Z.of_nat (nDiffClose sqrt24 cbrt24 tenthPos tenthTypes 292
                                  (1 # 10) 292)
           \/ Z.of_nat (nSameClose sqrt24 cbrt24 tenthPos tenthTypes 292 (1 # 10) 292)
              < 100 * Z.of_nat (length (subvolCells cbrt24 tenthPos 292 292)))%Z).
Proof.
  destruct tenth_counts as (Hm & Hclose & _).
  assert (HT : (0 < 292 <= 2097152)%Z) by (split; [reflexivity|discriminate]).
  assert (H1 : (Z.of_nat (length (subvolCells cbrt24 tenthPos 292 292)) <= 131072)%Z).
  { rewrite Hm. discriminate. }
  assert (H2 : (Z.of_nat (length (closePairs sqrt24 cbrt24 tenthPos 292 (1 # 10) 292))
                + 1 <= 16777216)%Z).
  { rewrite Hclose. discriminate. }
  split; [split; [exact round27_rounds|split; [exact HT|
          split; [exact tenthTypes_signed|split; [exact H1|exact H2]]]]|].
  apply (getCriterion_false_iff sqrt24 cbrt24 round27 tenthPos emptySubVol tenthPos
           tenthTypes 292 (1 # 10) 292 round27_rounds HT tenthTypes_signed H1 H2).
Defined.
